(** * racestrategy: pit-strategy evaluator

    A shallow embedding of [racestrategy.py] and the properties of its
    arithmetic pipeline.

    Modelling conventions.
    - A [timedelta] is its total number of microseconds, an integer in the
      range CPython accepts; every operation that builds one checks the
      range and raises [OverflowError] outside it.
    - A Python [float] is an IEEE 754 binary64 datum ([spec_float] of the
      standard library).  Every arithmetic operation is the exact rational
      result rounded to nearest, ties to even.
    - A Python exception is an [exn] carried by the [result] monad.
    - A [str] is a [string]: code points up to U+00FF, of which only
      [0]..[9] are decimal digits.
    - A [dict] is an association list in insertion order.
    - The namespace of [argparse] is a record of its attributes; the
      parsing of the command line itself is not modelled. *)

From Stdlib Require Import ZArith QArith Qround Qabs Qpower Lia Lqa.
From Stdlib Require Import List Bool String Ascii.
From Stdlib Require Import Sorting.Sorted Sorting.Permutation.
From Stdlib Require Import Floats.SpecFloat.
Import ListNotations.

Local Open Scope Z_scope.

(* ------------------------------------------------------------------ *)
(** ** Exceptions *)

Inductive exn : Type :=
| ZeroDivisionError
| OverflowError
| ValueError
| KeyError
| StatisticsError.

Inductive result (A : Type) : Type :=
| Ok (a : A)
| Raise (e : exn).

Arguments Ok {A} a.
Arguments Raise {A} e.

Definition bind {A B : Type} (c : result A) (k : A -> result B) : result B :=
  match c with
  | Ok a => k a
  | Raise e => Raise e
  end.

Declare Scope result_scope.
Delimit Scope result_scope with result.
Notation "x <- c ;; k" := (bind c (fun x => k))
  (at level 61, c at next level, right associativity) : result_scope.
Notation "' pat <- c ;; k" := (bind c (fun x => match x with pat => k end))
  (at level 61, pat pattern, c at next level, right associativity)
  : result_scope.
Local Open Scope result_scope.

Definition is_ok {A : Type} (c : result A) : bool :=
  match c with Ok _ => true | Raise _ => false end.

(* ------------------------------------------------------------------ *)
(** ** Integer rounding *)

(** [_divide_and_round] of the datetime module ([divide_nearest] in C):
    the quotient of [a] by [b] rounded to the nearest integer, ties to
    even.  [Z.div] and [Z.modulo] are Python's [divmod]. *)
Definition divide_and_round (a b : Z) : Z :=
  let q := a / b in
  let r := 2 * (a mod b) in
  let greater_than_half := if 0 <? b then b <? r else r <? b in
  if greater_than_half || ((r =? b) && Z.odd q) then q + 1 else q.

(* ------------------------------------------------------------------ *)
(** ** Floats *)

Module Float.

Definition float : Type := spec_float.

Definition prec : Z := 53.
Definition emax : Z := 1024.
Definition emin : Z := -1074.

Definition pow2 (e : Z) : Q := (2 ^ e)%Q.

(** The real number a finite float stands for. *)
Definition F2Q (x : float) : Q :=
  match x with
  | S754_finite s m e =>
      ((if s then inject_Z (Zneg m) else inject_Z (Zpos m)) * pow2 e)%Q
  | _ => 0%Q
  end.

Definition is_finite (x : float) : bool :=
  match x with
  | S754_zero _ | S754_finite _ _ _ => true
  | _ => false
  end.

(** Rounding of a rational to the nearest integer, ties to even. *)
Definition Qround_half_even (q : Q) : Z :=
  divide_and_round (Qnum q) (Zpos (Qden q)).

(** The integer [k] with [2^k <= q < 2^(k+1)], for [0 < q]. *)
Definition Qlog2 (q : Q) : Z :=
  let k := Z.log2 (Qnum q) - Z.log2 (Zpos (Qden q)) in
  if Qle_bool (pow2 k) q then k else k - 1.

(** Mantissa and exponent of the binary64 nearest to [q], for [0 < q]:
    the exponent is that of the binade of [q], not below [emin]. *)
Definition round_pos (q : Q) : Z * Z :=
  let e := Z.max (Qlog2 q - (prec - 1)) emin in
  let m := Qround_half_even (q / pow2 e) in
  if m =? 2 ^ prec then (2 ^ (prec - 1), e + 1) else (m, e).

(** Round to nearest, ties to even; overflow gives an infinity and a
    non-zero [q] that rounds to zero keeps its sign. *)
Definition round (q : Q) : float :=
  match Qcompare q 0 with
  | Eq => S754_zero false
  | c =>
      let s := match c with Lt => true | _ => false end in
      let '(m, e) := round_pos (Qabs q) in
      match m with
      | Zpos p => if emax - prec <? e then S754_infinity s
                  else S754_finite s p e
      | _ => S754_zero s
      end
  end.

Definition sign (x : float) : bool :=
  match x with
  | S754_zero s | S754_infinity s | S754_finite s _ _ => s
  | S754_nan => false
  end.

Definition neg (x : float) : float :=
  match x with
  | S754_zero s => S754_zero (negb s)
  | S754_infinity s => S754_infinity (negb s)
  | S754_finite s m e => S754_finite (negb s) m e
  | S754_nan => S754_nan
  end.

Definition is_zero (x : float) : bool :=
  match x with S754_zero _ => true | _ => false end.

Definition mul (x y : float) : float :=
  match x, y with
  | S754_nan, _ | _, S754_nan => S754_nan
  | S754_infinity sx, S754_zero _ | S754_zero _, S754_infinity sx =>
      S754_nan
  | S754_infinity sx, _ | _, S754_infinity sx =>
      S754_infinity (xorb (sign x) (sign y))
  | S754_zero _, _ | _, S754_zero _ =>
      S754_zero (xorb (sign x) (sign y))
  | _, _ => round (F2Q x * F2Q y)
  end.

Definition add (x y : float) : float :=
  match x, y with
  | S754_nan, _ | _, S754_nan => S754_nan
  | S754_infinity sx, S754_infinity sy =>
      if Bool.eqb sx sy then x else S754_nan
  | S754_infinity _, _ => x
  | _, S754_infinity _ => y
  | S754_zero sx, S754_zero sy => S754_zero (sx && sy)
  | S754_zero _, _ => y
  | _, S754_zero _ => x
  | _, _ => round (F2Q x + F2Q y)
  end.

Definition sub (x y : float) : float := add x (neg y).

(** [x / y] on floats; Python raises on a zero divisor. *)
Definition div (x y : float) : result float :=
  match x, y with
  | _, S754_zero _ => Raise ZeroDivisionError
  | S754_nan, _ | _, S754_nan => Ok S754_nan
  | S754_infinity _, S754_infinity _ => Ok S754_nan
  | S754_infinity _, _ => Ok (S754_infinity (xorb (sign x) (sign y)))
  | _, S754_infinity _ => Ok (S754_zero (xorb (sign x) (sign y)))
  | S754_zero _, _ => Ok (S754_zero (xorb (sign x) (sign y)))
  | _, _ => Ok (round (F2Q x / F2Q y))
  end.

(** [float(n)] for an [int]: correctly rounded, or [OverflowError]. *)
Definition of_int (n : Z) : result float :=
  match round (inject_Z n) with
  | S754_infinity _ => Raise OverflowError
  | x => Ok x
  end.

(** [a / b] on two [int]s: the correctly rounded quotient. *)
Definition int_truediv (a b : Z) : result float :=
  if b =? 0 then Raise ZeroDivisionError
  else if a =? 0 then Ok (S754_zero (b <? 0))
  else match round (inject_Z a / inject_Z b) with
       | S754_infinity _ => Raise OverflowError
       | x => Ok x
       end.

(** A decimal literal [n / d] of the source text. *)
Definition literal (n : Z) (d : positive) : float := round (n # d).

(** Comparisons are by value; they are all false on a NaN. *)
Definition compare (x y : float) : option comparison :=
  match x, y with
  | S754_nan, _ | _, S754_nan => None
  | S754_infinity sx, S754_infinity sy =>
      Some (if Bool.eqb sx sy then Eq else if sx then Lt else Gt)
  | S754_infinity sx, _ => Some (if sx then Lt else Gt)
  | _, S754_infinity sy => Some (if sy then Gt else Lt)
  | _, _ => Some (Qcompare (F2Q x) (F2Q y))
  end.

Definition ltb (x y : float) : bool :=
  match compare x y with Some Lt => true | _ => false end.

Definition leb (x y : float) : bool :=
  match compare x y with Some Lt | Some Eq => true | _ => false end.

(** [math.ceil]. *)
Definition ceil (x : float) : result Z :=
  match x with
  | S754_nan => Raise ValueError
  | S754_infinity _ => Raise OverflowError
  | _ => Ok (Qceiling (F2Q x))
  end.

(** [float.as_integer_ratio]: the value as a fraction in lowest terms. *)
Definition as_integer_ratio (x : float) : result (Z * Z) :=
  match x with
  | S754_nan => Raise ValueError
  | S754_infinity _ => Raise OverflowError
  | _ => let q := Qred (F2Q x) in Ok (Qnum q, Zpos (Qden q))
  end.

(** C's [modf]: the integral part, rounded toward zero, and the
    fractional part, both exact. *)
Definition Qtrunc (q : Q) : Z :=
  if Qle_bool 0 q then Qfloor q else Qceiling q.

Definition modf (x : float) : Z * Q :=
  let i := Qtrunc (F2Q x) in (i, (F2Q x - inject_Z i)%Q).

End Float.

Import Float.

(* ------------------------------------------------------------------ *)
(** ** Durations *)

(** A [datetime.timedelta], as its total number of microseconds. *)
Definition timedelta : Type := Z.

Module Timedelta.

(** CPython keeps [-999999999 <= days <= 999999999]. *)
Definition us_per_second : Z := 1000000.
Definition us_per_day : Z := 86400 * us_per_second.
Definition min_us : Z := -999999999 * us_per_day.
Definition max_us : Z := 999999999 * us_per_day + (us_per_day - 1).

Definition in_range (us : Z) : bool := (min_us <=? us) && (us <=? max_us).

(** [microseconds_to_delta]: every constructed duration is checked. *)
Definition make (us : Z) : result timedelta :=
  if in_range us then Ok us else Raise OverflowError.

(** [timedelta(minutes=m, seconds=s, microseconds=u)] on integers. *)
Definition of_fields (m s u : Z) : result timedelta :=
  make (m * 60 * us_per_second + s * us_per_second + u).

Definition add (a b : timedelta) : result timedelta := make (a + b).

(** [n * td] and [td * n] for an [int]. *)
Definition mul_int (td : timedelta) (n : Z) : result timedelta :=
  make (td * n).

(** [td / n] for an [int]. *)
Definition div_int (td : timedelta) (n : Z) : result timedelta :=
  if n =? 0 then Raise ZeroDivisionError
  else make (divide_and_round td n).

(** [td * x] for a [float]: the product with the exact ratio of [x],
    rounded to a whole microsecond. *)
Definition mul_float (td : timedelta) (x : float) : result timedelta :=
  '(n, d) <- as_integer_ratio x ;;
  make (divide_and_round (td * n) d).

(** [a / b] for two durations: a [float]. *)
Definition truediv (a b : timedelta) : result float := int_truediv a b.

Definition total_seconds (td : timedelta) : result float :=
  int_truediv td us_per_second.

(** C's [round]: to the nearest integer, ties away from zero. *)
Definition c_round (q : Q) : Z :=
  if Qle_bool 0 q then Qfloor (q + (1 # 2)) else Qceiling (q - (1 # 2)).

(** [timedelta(seconds=x)] for a [float] ([delta_new] and [accum] of
    the C module).  The whole seconds are converted exactly; the
    fractional part is multiplied by [1e6] in floating point, and what
    is left below a microsecond is rounded, ties to even.  Besides the
    product every floating-point step of the C code is exact, so those
    steps are written on rationals. *)
Definition of_seconds (x : float) : result timedelta :=
  match x with
  | S754_nan => Raise ValueError
  | S754_infinity _ => Raise OverflowError
  | _ =>
      let '(intpart, fracpart) := modf x in
      let sum := intpart * us_per_second in
      if Qeq_bool fracpart 0 then make sum
      else
        let dnum := round (inject_Z us_per_second * fracpart) in
        let '(intpart', leftover_us) := modf dnum in
        let y := sum + intpart' in
        if Qeq_bool leftover_us 0 then make y
        else
          let whole_us := c_round leftover_us in
          let whole_us :=
            if Qeq_bool (Qabs (inject_Z whole_us - leftover_us)) (1 # 2)
            then
              let x_is_odd := Z.land y 1 in
              2 * c_round ((leftover_us + inject_Z x_is_odd) * (1 # 2))
              - x_is_odd
            else whole_us in
          make (y + whole_us)
  end.

End Timedelta.

(* ------------------------------------------------------------------ *)
(** ** [statistics.mean] *)

Module Statistics.

Fixpoint Qsum (l : list Q) : Q :=
  match l with
  | [] => 0%Q
  | q :: l' => (q + Qsum l')%Q
  end.

(** The exact sum of the data as a fraction, divided by their number and
    converted once to a [float].  Data that are not finite are summed
    as floats instead. *)
Definition mean (data : list float) : result float :=
  match data with
  | [] => Raise StatisticsError
  | _ =>
      let n := Z.of_nat (List.length data) in
      match filter (fun x => negb (is_finite x)) data with
      | [] =>
          let total := Qred (Qsum (map F2Q data)) in
          let avg := Qred (total / inject_Z n) in
          int_truediv (Qnum avg) (Zpos (Qden avg))
      | s :: ss =>
          n' <- of_int n ;;
          Float.div (fold_left Float.add ss s) n'
      end
  end.

End Statistics.

(* ------------------------------------------------------------------ *)
(** ** Dictionaries and sequences *)

Fixpoint mapM {A B : Type} (f : A -> result B) (l : list A)
  : result (list B) :=
  match l with
  | [] => Ok []
  | a :: l' => b <- f a ;; bs <- mapM f l' ;; Ok (b :: bs)
  end.

Module Dict.

(** A [dict] with [str] keys: its items in insertion order. *)
Definition dict (V : Type) : Type := list (string * V).

Fixpoint lookup {V : Type} (d : dict V) (k : string) : option V :=
  match d with
  | [] => None
  | (k', v) :: d' => if String.eqb k k' then Some v else lookup d' k
  end.

(** [d[k]]. *)
Definition get {V : Type} (d : dict V) (k : string) : result V :=
  match lookup d k with
  | Some v => Ok v
  | None => Raise KeyError
  end.

(** [d[k] = v]: a present key keeps its place. *)
Fixpoint set {V : Type} (d : dict V) (k : string) (v : V) : dict V :=
  match d with
  | [] => [(k, v)]
  | (k', v') :: d' =>
      if String.eqb k k' then (k, v) :: d' else (k', v') :: set d' k v
  end.

Definition keys {V : Type} (d : dict V) : list string := map fst d.

(** What the type guarantees of a [dict]: no key twice. *)
Definition wf {V : Type} (d : dict V) : Prop := NoDup (keys d).

End Dict.

(** [sorted(items, key=key)]: a stable sort that compares keys with [<]
    only.  Each item is inserted behind the items that are not greater. *)
Section Sorted.

Context {A : Type} (key : A -> float).

Fixpoint insert_sorted (x : A) (l : list A) : list A :=
  match l with
  | [] => [x]
  | y :: l' =>
      if Float.ltb (key x) (key y) then x :: l
      else y :: insert_sorted x l'
  end.

Definition stable_sort (l : list A) : list A :=
  fold_left (fun acc x => insert_sorted x acc) l [].

(** With [reverse=True] the list is reversed, sorted and reversed
    again, which keeps items of equal key in their original order. *)
Definition sorted (l : list A) (reverse : bool) : list A :=
  if reverse then rev (stable_sort (rev l)) else stable_sort l.

End Sorted.

(* ------------------------------------------------------------------ *)
(** ** The program *)

Local Open Scope string_scope.

Definition TIME_TO_CHANGE_TYRES : timedelta := 20 * Timedelta.us_per_second.
Definition TIME_TO_FILL_ONE_LITRE : timedelta := 190000.

Definition FUEL_SAFETY_BUFFER_LITRES : Z := 1.
Definition FUEL_SAFETY_EXTRA_LAP_THRESHOLD : float := literal 15 100.
Definition STRATEGY_ARGS : list string := ["soft-50"; "med-50"; "med-99"].
Definition TIME_LOST_AT_RACE_START : timedelta := 3 * Timedelta.us_per_second.

Definition TYRE_DETERIORATION : Dict.dict float :=
  [("soft_50", literal 14 10);
   ("med_50", literal 4 10);
   ("med_99", literal 4 10)].

Record StrategyResult : Type := mkStrategyResult {
  laps_at_zero : float;
  total_laps : Z;
  total_fuel : Z;
  normalised_lap_time : timedelta;
  total_time : timedelta;
  pit_stop_time : timedelta
}.

(** The three entries of the dictionary are all computed before the
    strategy is looked up. *)
Definition get_pit_stop_time_for_strategy (strategy : string) (litres : Z)
  : result timedelta :=
  refill_time <- Timedelta.mul_int TIME_TO_FILL_ONE_LITRE litres ;;
  soft <- Timedelta.div_int refill_time 2 ;;
  med <- Timedelta.div_int refill_time 2 ;;
  let out :=
    [("soft_50", Z.max soft TIME_TO_CHANGE_TYRES);
     ("med_50", med);
     ("med_99", TIME_TO_FILL_ONE_LITRE)] in
  Dict.get out strategy.

(** With [full] the lap count is an [int], without it a [float]. *)
Definition calculate_laps (race_time lap_time : timedelta) (full : bool)
  : result (if full then Z else float) :=
  match full return result (if full then Z else float) with
  | true => res <- Timedelta.truediv race_time lap_time ;; Float.ceil res
  | false => res <- Timedelta.truediv race_time lap_time ;; Ok res
  end.

Definition calculate_fuel (litres_per_lap : float) (laps : Z) : result Z :=
  laps' <- Float.of_int laps ;;
  buffer <- Float.of_int FUEL_SAFETY_BUFFER_LITRES ;;
  Float.ceil (Float.add (Float.mul litres_per_lap laps') buffer).

Definition calculate_total_time (laps : Z) (lap_time : timedelta)
  : result timedelta :=
  Timedelta.mul_int lap_time laps.

Definition calculate_lost_time
  (pit_stop_time time_lost_driving_through_pits : timedelta)
  : result timedelta :=
  t <- Timedelta.add TIME_LOST_AT_RACE_START time_lost_driving_through_pits ;;
  Timedelta.add t pit_stop_time.

(** Lines 116-124 of the loop body: the mean lap time with the tyre
    deterioration added. *)
Definition deteriorated_lap_time (strat : string) (lap_times : list timedelta)
  : result timedelta :=
  seconds <- mapM Timedelta.total_seconds lap_times ;;
  mean <- Statistics.mean seconds ;;
  raw_lap_time <- Timedelta.of_seconds mean ;;
  hundredth <- Timedelta.div_int raw_lap_time 100 ;;
  deterioration <- Dict.get TYRE_DETERIORATION strat ;;
  two <- Float.of_int 2 ;;
  half <- Float.div deterioration two ;;
  add_time <- Timedelta.mul_float hundredth half ;;
  Timedelta.add raw_lap_time add_time.

(** Lines 130-131: the naive lap count and the fuel for it. *)
Definition naive_estimate (race_time raw_lap_time : timedelta)
  (litres_per_lap : float) : result (Z * Z) :=
  naive_laps <- calculate_laps race_time raw_lap_time true ;;
  naive_fuel <- calculate_fuel litres_per_lap naive_laps ;;
  Ok (naive_laps, naive_fuel).

(** Lines 136-161: the result of one strategy from its lap time and its
    naive estimate. *)
Definition strategy_result (race_time : timedelta) (litres_per_lap : float)
  (time_lost_driving_through_pits : timedelta) (strat : string)
  (raw_lap_time : timedelta) (naive_laps naive_fuel : Z)
  : result StrategyResult :=
  pit_stop_time <- get_pit_stop_time_for_strategy strat naive_fuel ;;
  lost <- calculate_lost_time pit_stop_time time_lost_driving_through_pits ;;
  amortised <- Timedelta.div_int lost naive_laps ;;
  lap_time <- Timedelta.add raw_lap_time amortised ;;
  laps <- calculate_laps race_time lap_time true ;;
  laps_at_zero <- calculate_laps race_time lap_time false ;;
  ceiling <- Float.ceil laps_at_zero ;;
  ceiling' <- Float.of_int ceiling ;;
  let fuel_laps :=
    if Float.leb (Float.sub ceiling' laps_at_zero)
         FUEL_SAFETY_EXTRA_LAP_THRESHOLD
    then laps + 1 else laps in
  fuel <- calculate_fuel litres_per_lap fuel_laps ;;
  time <- calculate_total_time laps lap_time ;;
  shown_pit_time <- Timedelta.add pit_stop_time
                      time_lost_driving_through_pits ;;
  Ok (mkStrategyResult laps_at_zero laps fuel lap_time time shown_pit_time).

(** The body of the loop of [get_strategies]. *)
Definition evaluate_strategy (race_time : timedelta) (litres_per_lap : float)
  (time_lost_driving_through_pits : timedelta) (strat : string)
  (lap_times : list timedelta) : result StrategyResult :=
  raw_lap_time <- deteriorated_lap_time strat lap_times ;;
  '(naive_laps, naive_fuel) <-
    naive_estimate race_time raw_lap_time litres_per_lap ;;
  strategy_result race_time litres_per_lap time_lost_driving_through_pits
    strat raw_lap_time naive_laps naive_fuel.

(** The loop itself, over the items that are left, with [out] so far. *)
Fixpoint evaluate_all (race_time : timedelta) (litres_per_lap : float)
  (time_lost_driving_through_pits : timedelta)
  (items : list (string * list timedelta)) (out : Dict.dict StrategyResult)
  : result (Dict.dict StrategyResult) :=
  match items with
  | [] => Ok out
  | (strat, lap_times) :: items' =>
      r <- evaluate_strategy race_time litres_per_lap
             time_lost_driving_through_pits strat lap_times ;;
      evaluate_all race_time litres_per_lap time_lost_driving_through_pits
        items' (Dict.set out strat r)
  end.

Definition get_strategies (race_time : timedelta)
  (strategies_to_times : Dict.dict (list timedelta))
  (litres_per_lap : float) (time_lost_driving_through_pits : timedelta)
  : result (Dict.dict StrategyResult) :=
  out <- evaluate_all race_time litres_per_lap
           time_lost_driving_through_pits strategies_to_times [] ;;
  Ok (sorted (fun r => laps_at_zero (snd r)) out true).

(* ------------------------------------------------------------------ *)
(** ** Text of durations *)

(** Regular expressions of the [re] module as backtracking matchers: the
    ways to match a prefix of the text, most preferred first, each with
    the text matched and the text left. *)
Module Regex.

Definition matcher : Type := string -> list (string * string).

Definition set (p : ascii -> bool) : matcher :=
  fun s =>
    match s with
    | String c s' => if p c then [(String c "", s')] else []
    | EmptyString => []
    end.

Definition chr (c : ascii) : matcher := set (Ascii.eqb c).

Definition empty : matcher := fun s => [("", s)].

Definition seq (r1 r2 : matcher) : matcher :=
  fun s =>
    flat_map
      (fun m1 => map (fun m2 => (fst m1 ++ fst m2, snd m2)) (r2 (snd m1)))
      (r1 s).

Definition alt (r1 r2 : matcher) : matcher :=
  fun s => (r1 s ++ r2 s)%list.

(** [r{0,n}], greedy. *)
Fixpoint upto (n : nat) (r : matcher) : matcher :=
  match n with
  | O => empty
  | S k => alt (seq r (upto k r)) empty
  end.

Definition in_range (lo hi : ascii) (c : ascii) : bool :=
  (nat_of_ascii lo <=? nat_of_ascii c)%nat
  && (nat_of_ascii c <=? nat_of_ascii hi)%nat.

(** [\d]: within U+0000..U+00FF the decimal digits are [0]..[9]. *)
Definition digit : matcher := set (in_range "0" "9").

End Regex.

Module Strptime.

Import Regex.

(** The patterns [_strptime] has for the directives. *)
Definition directive_M : matcher :=
  alt (seq (set (in_range "0" "5")) digit) digit.

Definition directive_S : matcher :=
  alt (seq (chr "6") (set (in_range "0" "1")))
    (alt (seq (set (in_range "0" "5")) digit) digit).

Definition directive_f : matcher :=
  seq (set (in_range "0" "9")) (upto 5 (set (in_range "0" "9"))).

(** The expression compiled from ["%M:%S.%f"], with its three groups. *)
Definition format_regex (s : string)
  : list (string * string * string * string) :=
  flat_map (fun gM =>
  flat_map (fun c1 =>
  flat_map (fun gS =>
  flat_map (fun c2 =>
  map (fun gf => (fst gM, fst gS, fst gf, snd gf))
    (directive_f (snd c2)))
    (chr "." (snd gS)))
    (directive_S (snd c1)))
    (chr ":" (snd gM)))
    (directive_M s).

Definition digit_value (c : ascii) : option Z :=
  if in_range "0" "9" c
  then Some (Z.of_nat (nat_of_ascii c) - 48) else None.

Fixpoint int_from (acc : Z) (s : string) : result Z :=
  match s with
  | EmptyString => Ok acc
  | String c s' =>
      match digit_value c with
      | Some d => int_from (10 * acc + d) s'
      | None => Raise ValueError
      end
  end.

(** [int(s)] on a text without sign or blanks. *)
Definition int (s : string) : result Z :=
  match s with
  | EmptyString => Raise ValueError
  | _ => int_from 0 s
  end.

Fixpoint zeros (n : nat) : string :=
  match n with
  | O => ""
  | S k => String "0" (zeros k)
  end.

(** [datetime.strptime(data_string, "%M:%S.%f")], as the minute, second
    and microsecond of the [datetime] it builds. *)
Definition strptime (data_string : string) : result (Z * Z * Z) :=
  match format_regex data_string with
  | [] => Raise ValueError
  | (gM, gS, f, rest) :: _ =>
      if negb (String.eqb rest "") then Raise ValueError
      else
        minute <- int gM ;;
        second <- int gS ;;
        fraction <- int (f ++ zeros (6 - String.length f)) ;;
        if ((0 <=? minute) && (minute <=? 59)
            && (0 <=? second) && (second <=? 59)
            && (0 <=? fraction) && (fraction <=? 999999))%Z
        then Ok (minute, second, fraction)
        else Raise ValueError
  end.

End Strptime.

Definition msm_to_tds (td_str : string) : result timedelta :=
  '(minute, second, microsecond) <- Strptime.strptime td_str ;;
  Timedelta.of_fields minute second microsecond.

(** [str(td)], which [format] applies to each duration [main] prints. *)
Module TimedeltaStr.

Definition digit_char (d : Z) : ascii := ascii_of_nat (Z.to_nat (48 + d)).

(** The decimal digits of [n >= 0], most significant first. *)
Fixpoint digits (fuel : nat) (n : Z) : string :=
  match fuel with
  | O => ""
  | S k =>
      (if (n <? 10)%Z then "" else digits k (n / 10))
      ++ String (digit_char (n mod 10)) ""
  end.

(** ["%d" % n]. *)
Definition decimal (n : Z) : string :=
  if (n <? 0)%Z then String "-" (digits (S (Z.to_nat (Z.log2 (- n)))) (- n))
  else digits (S (Z.to_nat (Z.log2 n))) n.

(** ["%0wd" % n] for [n >= 0]. *)
Definition zero_padded (w : nat) (n : Z) : string :=
  let s := decimal n in Strptime.zeros (w - String.length s) ++ s.

Definition str (td : timedelta) : string :=
  let days := td / Timedelta.us_per_day in
  let us := td mod Timedelta.us_per_second in
  let seconds := (td mod Timedelta.us_per_day) / Timedelta.us_per_second in
  let mm := seconds / 60 in
  let ss := seconds mod 60 in
  let hh := mm / 60 in
  let mm := mm mod 60 in
  let s :=
    decimal hh ++ ":" ++ zero_padded 2 mm ++ ":" ++ zero_padded 2 ss in
  let s :=
    if (days =? 0)%Z then s
    else decimal days
         ++ (if (Z.abs days =? 1)%Z then " day, " else " days, ") ++ s in
  if (us =? 0)%Z then s else s ++ "." ++ zero_padded 6 us.

End TimedeltaStr.

(** The lines of [main] that print the whole laps, the fuel and the three
    durations of a result. *)
Definition print_result (res : StrategyResult) : list string :=
  ["Total laps: " ++ TimedeltaStr.decimal (total_laps res);
   "Total fuel: " ++ TimedeltaStr.decimal (total_fuel res);
   "Normalised lap time: " ++ TimedeltaStr.str (normalised_lap_time res);
   "Total time: " ++ TimedeltaStr.str (total_time res);
   "Pit stop time: " ++ TimedeltaStr.str (pit_stop_time res) ++ "
"].

(** The namespace [parse_args] returns, with an attribute for each option:
    the name of the option with [_] for [-].  A strategy option that was
    not given is [None]; one that was given holds its times in the order
    they were given. *)
Module Namespace.

Record t : Type := mk {
  litres_per_lap : float;
  time_lost_driving_through_pits : timedelta;
  race_time : timedelta;
  soft_50 : option (list timedelta);
  med_50 : option (list timedelta);
  med_99 : option (list timedelta)
}.

(** [getattr(args, name, None)] on the attributes of the strategies. *)
Definition getattr (args : t) (name : string) : option (list timedelta) :=
  if String.eqb name "soft_50" then soft_50 args
  else if String.eqb name "med_50" then med_50 args
  else if String.eqb name "med_99" then med_99 args
  else None.

End Namespace.

(** [s.replace(old, new)] for [old] and [new] of one character. *)
Fixpoint replace (old new : ascii) (s : string) : string :=
  match s with
  | EmptyString => EmptyString
  | String c s' =>
      String (if Ascii.eqb c old then new else c) (replace old new s')
  end.

(** Lines 199-205 of [main]: the lap times of the strategies that were
    given. *)
Definition main_strategies_to_times (args : Namespace.t)
  : Dict.dict (list timedelta) :=
  fold_left
    (fun strategies_to_times arg =>
       let arg := replace "-" "_" arg in
       match Namespace.getattr args arg with
       | Some (t :: times) => Dict.set strategies_to_times arg (t :: times)
       | _ => strategies_to_times
       end)
    STRATEGY_ARGS [].

(** Lines 212-217 of [main]: the call of [get_strategies]. *)
Definition main_strategies (args : Namespace.t)
  : result (Dict.dict StrategyResult) :=
  get_strategies (Namespace.race_time args) (main_strategies_to_times args)
    (Namespace.litres_per_lap args)
    (Namespace.time_lost_driving_through_pits args).

(* ------------------------------------------------------------------ *)
(** ** Notions used to state the properties *)

(** The value of a mantissa and exponent. *)
Definition pair_value (me : Z * Z) : Q :=
  (inject_Z (fst me) * pow2 (snd me))%Q.

(** The exponent and the mantissa [round_pos] starts from. *)
Definition round_exp (q : Q) : Z := Z.max (Qlog2 q - (prec - 1)) emin.
Definition round_mant (q : Q) : Z :=
  Qround_half_even (q / pow2 (round_exp q)).

Definition not_nan (x : float) : bool :=
  match x with S754_nan => false | _ => true end.

(** A run used to illustrate the properties: a race of one hour at 3 l
    per lap and 10 s lost in the pit lane, with one lap time for each
    strategy. *)
Definition example_times : Dict.dict (list timedelta) :=
  [("soft_50"%string, [89200000]);
   ("med_50"%string, [90000000]);
   ("med_99"%string, [90000000])].

Definition example_soft_50 : StrategyResult :=
  {| laps_at_zero := S754_finite false 5590411501227901 (-47);
     total_laps := 40;
     total_fuel := 121;
     normalised_lap_time := 90629278;
     total_time := 3625171120;
     pit_stop_time := 30000000 |}.

Definition example_med_50 : StrategyResult :=
  {| laps_at_zero := S754_finite false 5580369035166013 (-47);
     total_laps := 40;
     total_fuel := 121;
     normalised_lap_time := 90792375;
     total_time := 3631695000;
     pit_stop_time := 21495000 |}.

Definition example_med_99 : StrategyResult :=
  {| laps_at_zero := S754_finite false 5597794249560747 (-47);
     total_laps := 40;
     total_fuel := 121;
     normalised_lap_time := 90509750;
     total_time := 3620390000;
     pit_stop_time := 10190000 |}.

Definition example_out : Dict.dict StrategyResult :=
  [("med_99"%string, example_med_99);
   ("soft_50"%string, example_soft_50);
   ("med_50"%string, example_med_50)].

(** The finite floats of binary64: a mantissa below [2^prec] with an
    exponent of the format. *)
Definition canonical (x : float) : Prop :=
  match x with
  | S754_zero _ => True
  | S754_finite _ m e => Zpos m < 2 ^ prec /\ emin <= e <= emax - prec
  | _ => False
  end.

(** The normalised lap time as the specification words it, on exact
    numbers of microseconds: the mean of the samples times
    [1 + deterioration_percent / 200], plus the time lost over the naive
    laps.  [pit_stop] is the pit-stop time of the strategy. *)
Definition spec_deterioration_percent (strat : string) : Q :=
  if String.eqb strat "soft_50" then 14 # 10 else 4 # 10.

Definition spec_normalised_lap_time (race_time pit_transit : timedelta)
  (strat : string) (samples : list timedelta) (pit_stop : timedelta) : Q :=
  let mean :=
    (Statistics.Qsum (map inject_Z samples)
     / inject_Z (Z.of_nat (List.length samples)))%Q in
  let adjusted := (mean * (1 + spec_deterioration_percent strat / 200))%Q in
  let naive_laps := Qceiling (inject_Z race_time / adjusted) in
  (adjusted
   + inject_Z (TIME_LOST_AT_RACE_START + pit_transit + pit_stop)
     / inject_Z naive_laps)%Q.

(** The text of a duration as [msm_to_tds] reads it: one or two digits of
    minutes, a colon, one or two digits of seconds, a point and one to six
    digits of a fraction of a second. *)
Module DurationText.

Definition is_digit (c : ascii) : bool := Regex.in_range "0" "9" c.

Fixpoint all_digits (s : string) : bool :=
  match s with
  | EmptyString => true
  | String c s' => is_digit c && all_digits s'
  end.

Fixpoint value_from (acc : Z) (s : string) : Z :=
  match s with
  | EmptyString => acc
  | String c s' => value_from (10 * acc + (Z.of_nat (nat_of_ascii c) - 48)) s'
  end.

(** The number a text of digits stands for. *)
Definition value (s : string) : Z := value_from 0 s.

Definition well_formed (m sec f : string) : Prop :=
  all_digits m = true /\ all_digits sec = true /\ all_digits f = true
  /\ (1 <= String.length m <= 2)%nat
  /\ (1 <= String.length sec <= 2)%nat
  /\ (1 <= String.length f <= 6)%nat
  /\ value m <= 59 /\ value sec <= 59.

Definition text (m sec f : string) : string :=
  (m ++ ":" ++ sec ++ "." ++ f)%string.

(** The duration the three fields stand for, in microseconds: the
    fraction counts from the left, as if padded to six digits. *)
Definition duration (m sec f : string) : timedelta :=
  value m * 60000000 + value sec * 1000000
  + value f * 10 ^ (6 - Z.of_nat (String.length f)).

End DurationText.

(** A matcher is sound for a property of texts when everything it matches
    is a prefix of the input with that property. *)
Definition sound (r : Regex.matcher) (P : string -> Prop) : Prop :=
  forall s m rest, In (m, rest) (r s) -> s = (m ++ rest)%string /\ P m.

(** How often a character occurs in a text. *)
Fixpoint occurrences (c : ascii) (s : string) : nat :=
  match s with
  | EmptyString => O
  | String x s' => ((if Ascii.eqb c x then 1 else 0) + occurrences c s')%nat
  end.

(** The exceptions of arithmetic, as against those of a missing key or of
    missing data. *)
Definition arithmetic (e : exn) : bool :=
  match e with
  | ZeroDivisionError | OverflowError | ValueError => true
  | KeyError | StatisticsError => false
  end.

Definition known_strategy (k : string) : bool :=
  String.eqb k "soft_50" || String.eqb k "med_50" || String.eqb k "med_99".

(** [a] stands before [b] in a list. *)
Inductive precedes {A : Type} (a b : A) : list A -> Prop :=
| precedes_here (l : list A) : In b l -> precedes a b (a :: l)
| precedes_later (c : A) (l : list A) :
    precedes a b l -> precedes a b (c :: l).

(* ================================================================== *)
(** * Properties *)

Local Open Scope Z_scope.

(** ** The exception monad *)

Lemma bind_ok {A B : Type} (c : result A) (k : A -> result B) (b : B) :
  bind c k = Ok b <-> exists a, c = Ok a /\ k a = Ok b.
Proof.
  destruct c as [a | e]; simpl; split.
  - intros H. exists a. split; [reflexivity | exact H].
  - intros (a' & Ha & Hk). injection Ha as ->. exact Hk.
  - discriminate.
  - intros (a' & Ha & _). discriminate.
Qed.

(** Splits a hypothesis [x <- c ;; k = Ok b] into its two runs. *)
Ltac bind_inv H :=
  let a := fresh "v" in
  let Ha := fresh "E" in
  apply bind_ok in H; destruct H as (a & Ha & H).

(** ** Rounded division *)

Lemma divide_and_round_mul (k b : Z) :
  b <> 0 -> divide_and_round (k * b) b = k.
Proof.
  intros Hb. unfold divide_and_round.
  rewrite Z.mod_mul, Z.div_mul by assumption.
  change (2 * 0) with 0.
  destruct (Z.eqb_spec 0 b) as [H0 | _]; [lia |].
  destruct (Z.ltb_spec 0 b), (Z.ltb_spec b 0); try lia; reflexivity.
Qed.

(** For a positive divisor the result is the integer nearest to the
    quotient, and an even one when two are as near. *)
Lemma divide_and_round_spec (a b : Z) :
  0 < b ->
  let r := divide_and_round a b in
  2 * a - b <= 2 * b * r <= 2 * a + b
  /\ (2 * b * r = 2 * a - b \/ 2 * b * r = 2 * a + b -> Z.even r = true).
Proof.
  intros Hb. unfold divide_and_round. cbv zeta.
  pose proof (Z.div_mod a b ltac:(lia)) as Hdm.
  pose proof (Z.mod_pos_bound a b Hb) as Hm.
  replace (0 <? b) with true by (symmetry; apply Z.ltb_lt; lia).
  set (q := a / b) in *. set (m := a mod b) in *.
  destruct (b <? 2 * m) eqn:Hgt; cbn [orb andb].
  - apply Z.ltb_lt in Hgt. split; [nia | intros [H | H]; nia].
  - apply Z.ltb_ge in Hgt.
    destruct (2 * m =? b) eqn:Heq; cbn [orb andb].
    + apply Z.eqb_eq in Heq.
      destruct (Z.odd q) eqn:Hodd.
      * split; [nia |]. intros _.
        rewrite Z.even_add, <- Z.negb_odd, Hodd. reflexivity.
      * split; [nia |]. intros _.
        rewrite <- Z.negb_odd, Hodd. reflexivity.
    + apply Z.eqb_neq in Heq. split; [nia | intros [H | H]; nia].
Qed.

Lemma divide_and_round_unique (a b r : Z) :
  0 < b ->
  2 * a - b <= 2 * b * r <= 2 * a + b ->
  (2 * b * r = 2 * a - b \/ 2 * b * r = 2 * a + b -> Z.even r = true) ->
  divide_and_round a b = r.
Proof.
  intros Hb Hr Hev.
  destruct (divide_and_round_spec a b Hb) as [Hr' Hev'].
  set (r' := divide_and_round a b) in *.
  assert (Hcases : r' = r \/ r' = r + 1 \/ r = r' + 1) by nia.
  destruct Hcases as [H | [H | H]]; [exact H | exfalso | exfalso].
  - assert (H1 : 2 * b * r = 2 * a - b) by nia.
    assert (H2 : 2 * b * r' = 2 * a + b) by nia.
    specialize (Hev (or_introl H1)). specialize (Hev' (or_intror H2)).
    rewrite H, Z.even_add, Hev in Hev'. discriminate.
  - assert (H1 : 2 * b * r = 2 * a + b) by nia.
    assert (H2 : 2 * b * r' = 2 * a - b) by nia.
    specialize (Hev (or_intror H1)). specialize (Hev' (or_introl H2)).
    rewrite H, Z.even_add, Hev' in Hev. discriminate.
Qed.

Lemma divide_and_round_monotone (a a' b : Z) :
  0 < b -> a <= a' -> divide_and_round a b <= divide_and_round a' b.
Proof.
  intros Hb Ha.
  destruct (divide_and_round_spec a b Hb) as [Hr Hev].
  destruct (divide_and_round_spec a' b Hb) as [Hr' Hev'].
  set (r := divide_and_round a b) in *.
  set (r' := divide_and_round a' b) in *.
  destruct (Z_le_gt_dec r r') as [H | H]; [exact H | exfalso].
  assert (Hlt : 2 * b * r' < 2 * b * r)
    by (apply Z.mul_lt_mono_pos_l; lia).
  assert (Hle : 2 * b * r <= 2 * b * (r' + 1)) by lia.
  apply Z.mul_le_mono_pos_l in Hle; [| lia].
  assert (H0 : r = r' + 1) by lia.
  clearbody r r'. subst r.
  assert (H1 : 2 * b * (r' + 1) = 2 * a + b) by lia.
  assert (H2 : 2 * b * r' = 2 * a' - b) by lia.
  specialize (Hev (or_intror H1)). specialize (Hev' (or_introl H2)).
  rewrite Z.even_add, Hev' in Hev. discriminate.
Qed.

Lemma divide_and_round_nonneg (a b : Z) :
  0 < b -> 0 <= a -> 0 <= divide_and_round a b.
Proof.
  intros Hb Ha.
  rewrite <- (divide_and_round_mul 0 b) by lia.
  apply divide_and_round_monotone; lia.
Qed.

(** ** Pit-stop time *)

Lemma make_in_range (us : Z) :
  Timedelta.in_range us = true -> Timedelta.make us = Ok us.
Proof. intros H. unfold Timedelta.make. rewrite H. reflexivity. Qed.

Lemma in_range_bounds (us : Z) :
  Timedelta.in_range us = true <->
  Timedelta.min_us <= us <= Timedelta.max_us.
Proof.
  unfold Timedelta.in_range. rewrite andb_true_iff, !Z.leb_le. tauto.
Qed.

Lemma half_refill_time (litres : Z) :
  divide_and_round (TIME_TO_FILL_ONE_LITRE * litres) 2 = 95000 * litres.
Proof.
  replace (TIME_TO_FILL_ONE_LITRE * litres) with (95000 * litres * 2)
    by (unfold TIME_TO_FILL_ONE_LITRE; lia).
  apply divide_and_round_mul. discriminate.
Qed.

(** C1.  With a naive fuel requirement of [litres] whose refill time is a
    representable duration, the pit stop of soft-50 takes the larger of
    half the refill time and the 20 s of a tyre change, the pit stop of
    med-50 half the refill time, and the pit stop of med-99 the 190 ms of
    one litre. *)
Theorem pit_stop_time_by_strategy (litres : Z) :
  Timedelta.in_range (TIME_TO_FILL_ONE_LITRE * litres) = true ->
  let refill_time := TIME_TO_FILL_ONE_LITRE * litres in
  get_pit_stop_time_for_strategy "soft_50" litres
    = Ok (Z.max (divide_and_round refill_time 2) TIME_TO_CHANGE_TYRES)
  /\ get_pit_stop_time_for_strategy "med_50" litres
    = Ok (divide_and_round refill_time 2)
  /\ get_pit_stop_time_for_strategy "med_99" litres
    = Ok TIME_TO_FILL_ONE_LITRE
  /\ TIME_TO_FILL_ONE_LITRE = 190000
  /\ TIME_TO_CHANGE_TYRES = 20000000.
Proof.
  intros Hrange refill_time.
  assert (Hhalf : Timedelta.div_int refill_time 2
                  = Ok (divide_and_round refill_time 2)).
  { unfold Timedelta.div_int. cbn [Z.eqb].
    apply make_in_range. unfold refill_time in *.
    rewrite half_refill_time.
    apply in_range_bounds in Hrange. apply in_range_bounds.
    unfold Timedelta.min_us, Timedelta.max_us, Timedelta.us_per_day,
      Timedelta.us_per_second, TIME_TO_FILL_ONE_LITRE in *.
    lia. }
  unfold get_pit_stop_time_for_strategy, Timedelta.mul_int.
  fold refill_time. rewrite (make_in_range refill_time Hrange).
  cbn [bind]. rewrite Hhalf. cbn [bind].
  repeat split.
Qed.

Lemma pit_stop_time_by_strategy_witness :
  get_pit_stop_time_for_strategy "soft_50" 121 = Ok 20000000
  /\ get_pit_stop_time_for_strategy "med_50" 121 = Ok 11495000
  /\ get_pit_stop_time_for_strategy "med_99" 121 = Ok 190000.
Proof.
  destruct (pit_stop_time_by_strategy 121 eq_refl) as (H1 & H2 & H3 & _).
  split; [exact H1 | split; [exact H2 | exact H3]].
Defined.

(** ** Rounding of rationals to integers *)

Lemma divide_and_round_scale (a b c : Z) :
  0 < b -> 0 < c -> divide_and_round (a * c) (b * c) = divide_and_round a b.
Proof.
  intros Hb Hc.
  destruct (divide_and_round_spec a b Hb) as [Hr Hev].
  apply divide_and_round_unique; [nia | nia |].
  intros H. apply Hev. nia.
Qed.

Lemma Qround_half_even_monotone (p q : Q) :
  (p <= q)%Q -> Qround_half_even p <= Qround_half_even q.
Proof.
  destruct p as [a b], q as [a' b']. unfold Qle, Qround_half_even. simpl.
  intros H.
  rewrite <- (divide_and_round_scale a (Zpos b) (Zpos b')) by lia.
  rewrite <- (divide_and_round_scale a' (Zpos b') (Zpos b)) by lia.
  rewrite (Z.mul_comm (Zpos b') (Zpos b)).
  apply divide_and_round_monotone; lia.
Qed.

Lemma Qround_half_even_comp (p q : Q) :
  (p == q)%Q -> Qround_half_even p = Qround_half_even q.
Proof.
  intros H. apply Z.le_antisymm; apply Qround_half_even_monotone;
    rewrite H; apply Qle_refl.
Qed.

Lemma Qround_half_even_Z (z : Z) : Qround_half_even (inject_Z z) = z.
Proof.
  unfold Qround_half_even, inject_Z. simpl.
  rewrite <- (Z.mul_1_r z) at 1. apply divide_and_round_mul. discriminate.
Qed.

(** ** Powers of two *)

Lemma pow2_pos (e : Z) : (0 < pow2 e)%Q.
Proof. apply Qpower_0_lt. reflexivity. Qed.

Lemma pow2_add (a b : Z) : (pow2 (a + b) == pow2 a * pow2 b)%Q.
Proof. apply Qpower_plus. discriminate. Qed.

Lemma pow2_le (a b : Z) : a <= b -> (pow2 a <= pow2 b)%Q.
Proof. intros H. apply Qpower_le_compat_l; [exact H | discriminate]. Qed.

Lemma pow2_lt (a b : Z) : a < b -> (pow2 a < pow2 b)%Q.
Proof.
  intros H. replace b with (a + (b - a)) by lia. rewrite pow2_add.
  rewrite <- (Qmult_1_r (pow2 a)) at 1.
  apply Qmult_lt_l; [apply pow2_pos |].
  apply Qpower_1_lt; [reflexivity | lia].
Qed.

Lemma pow2_lt_inv (a b : Z) : (pow2 a < pow2 b)%Q -> a < b.
Proof.
  intros H. destruct (Z_lt_le_dec a b) as [Hlt | Hge]; [exact Hlt |].
  apply pow2_le in Hge. exfalso. apply (Qlt_irrefl (pow2 a)).
  apply Qlt_le_trans with (pow2 b); assumption.
Qed.

Lemma pow2_Z (n : Z) : 0 <= n -> (pow2 n == inject_Z (2 ^ n))%Q.
Proof. intros H. unfold pow2. rewrite Zpower_Qpower by exact H. reflexivity. Qed.

Lemma Qdiv_pow2_le (p q : Q) (e : Z) :
  (p <= q)%Q -> (p / pow2 e <= q / pow2 e)%Q.
Proof.
  intros H. apply Qmult_le_compat_r; [exact H |].
  apply Qlt_le_weak, Qinv_lt_0_compat, pow2_pos.
Qed.

Lemma Qdiv_pow2_cancel (q : Q) (e : Z) : (q / pow2 e * pow2 e == q)%Q.
Proof.
  rewrite Qmult_comm. apply Qmult_div_r. intros H.
  pose proof (pow2_pos e) as Hp. rewrite H in Hp. discriminate.
Qed.

(** ** Binary logarithm *)

Lemma Qlog2_spec (q : Q) :
  (0 < q)%Q -> (pow2 (Qlog2 q) <= q < pow2 (Qlog2 q + 1))%Q.
Proof.
  intros Hq. unfold Qlog2.
  destruct q as [n d]. cbn [Qnum Qden].
  assert (Hn : 0 < n) by (unfold Qlt in Hq; simpl in Hq; lia).
  pose proof (Z.log2_spec n Hn) as [Hn1 Hn2].
  pose proof (Z.log2_spec (Zpos d) ltac:(lia)) as [Hd1 Hd2].
  pose proof (Z.log2_nonneg n) as Hln.
  pose proof (Z.log2_nonneg (Zpos d)) as Hld.
  set (a := Z.log2 n) in *. set (b := Z.log2 (Zpos d)) in *.
  assert (Hval : (n # d == inject_Z n / inject_Z (Zpos d))%Q)
    by (rewrite Qmake_Qdiv; reflexivity).
  assert (Hdpos : (0 < inject_Z (Zpos d))%Q) by reflexivity.
  (* bounds on numerator and denominator as rationals *)
  assert (Ha1 : (pow2 a <= inject_Z n)%Q)
    by (rewrite pow2_Z by lia; rewrite <- Zle_Qle; exact Hn1).
  assert (Ha2 : (inject_Z n < pow2 (a + 1))%Q).
  { rewrite pow2_Z by lia. rewrite <- Zlt_Qlt.
    replace (a + 1) with (Z.succ a) by lia. exact Hn2. }
  assert (Hb1 : (pow2 b <= inject_Z (Zpos d))%Q)
    by (rewrite pow2_Z by lia; rewrite <- Zle_Qle; exact Hd1).
  assert (Hb2 : (inject_Z (Zpos d) < pow2 (b + 1))%Q).
  { rewrite pow2_Z by lia. rewrite <- Zlt_Qlt.
    replace (b + 1) with (Z.succ b) by lia. exact Hd2. }
  destruct (Qle_bool (pow2 (a - b)) (n # d)) eqn:Hle.
  - apply Qle_bool_iff in Hle. split; [exact Hle |].
    (* n/d < 2^(a+1) / 2^b *)
    rewrite Hval. apply Qlt_shift_div_r; [exact Hdpos |].
    apply Qlt_le_trans with (pow2 (a + 1)); [exact Ha2 |].
    replace (a + 1) with (a - b + 1 + b) by lia.
    rewrite (pow2_add (a - b + 1) b).
    apply Qmult_le_l; [apply pow2_pos | exact Hb1].
  - assert (Hlt : (n # d < pow2 (a - b))%Q).
    { apply Qnot_le_lt. intros H. apply Qle_bool_iff in H. congruence. }
    split.
    + (* 2^a / 2^(b+1) <= n/d *)
      rewrite Hval. apply Qle_shift_div_l; [exact Hdpos |].
      apply Qle_trans with (pow2 a); [| exact Ha1].
      replace a with (a - b - 1 + (b + 1)) at 2 by lia.
      rewrite (pow2_add (a - b - 1) (b + 1)).
      apply Qmult_le_l; [apply pow2_pos | apply Qlt_le_weak; exact Hb2].
    + replace (a - b - 1 + 1) with (a - b) by lia. exact Hlt.
Qed.

Lemma Qlog2_monotone (p q : Q) :
  (0 < p)%Q -> (p <= q)%Q -> Qlog2 p <= Qlog2 q.
Proof.
  intros Hp Hpq.
  assert (Hq : (0 < q)%Q) by (apply Qlt_le_trans with p; assumption).
  destruct (Qlog2_spec p Hp) as [H1 _].
  destruct (Qlog2_spec q Hq) as [_ H2].
  assert (H : Qlog2 p < Qlog2 q + 1).
  { apply pow2_lt_inv. apply Qle_lt_trans with p; [exact H1 |].
    apply Qle_lt_trans with q; assumption. }
  lia.
Qed.

(** ** Rounding of positive rationals to binary64 *)

Lemma round_pos_unfold (q : Q) :
  round_pos q =
  if round_mant q =? 2 ^ prec then (2 ^ (prec - 1), round_exp q + 1)
  else (round_mant q, round_exp q).
Proof. reflexivity. Qed.

Lemma round_mant_bounds (q : Q) :
  (0 < q)%Q ->
  0 <= round_mant q <= 2 ^ prec
  /\ (emin < round_exp q -> 2 ^ (prec - 1) <= round_mant q).
Proof.
  intros Hq. destruct (Qlog2_spec q Hq) as [Hlo Hhi].
  unfold round_mant. set (e := round_exp q).
  assert (He : Qlog2 q - (prec - 1) <= e) by (unfold e, round_exp; lia).
  split; [split |].
  - rewrite <- (Qround_half_even_Z 0). apply Qround_half_even_monotone.
    apply Qle_shift_div_l; [apply pow2_pos |].
    rewrite Qmult_0_l. apply Qlt_le_weak, Hq.
  - rewrite <- (Qround_half_even_Z (2 ^ prec)).
    apply Qround_half_even_monotone.
    apply Qle_shift_div_r; [apply pow2_pos |].
    rewrite <- pow2_Z by (unfold prec; lia). rewrite <- pow2_add.
    apply Qlt_le_weak. apply Qlt_le_trans with (pow2 (Qlog2 q + 1));
      [exact Hhi | apply pow2_le; lia].
  - intros Hnorm.
    assert (He' : e = Qlog2 q - (prec - 1)) by (unfold e, round_exp in *; lia).
    rewrite <- (Qround_half_even_Z (2 ^ (prec - 1))).
    apply Qround_half_even_monotone.
    apply Qle_shift_div_l; [apply pow2_pos |].
    rewrite <- pow2_Z by (unfold prec; lia). rewrite <- pow2_add.
    apply Qle_trans with (pow2 (Qlog2 q)); [apply pow2_le; lia | exact Hlo].
Qed.

Lemma round_pos_value (q : Q) :
  (pair_value (round_pos q)
   == inject_Z (round_mant q) * pow2 (round_exp q))%Q.
Proof.
  rewrite round_pos_unfold.
  destruct (Z.eqb_spec (round_mant q) (2 ^ prec)) as [H | H];
    unfold pair_value; cbn [fst snd]; [| reflexivity].
  rewrite H. rewrite <- !pow2_Z by (unfold prec; lia).
  rewrite <- !pow2_add.
  replace (prec - 1 + (round_exp q + 1)) with (prec + round_exp q) by lia.
  reflexivity.
Qed.

(** The rounded mantissa is below [2^prec], and at least [2^(prec-1)]
    above the smallest exponent. *)
Lemma round_pos_canonical (q : Q) :
  (0 < q)%Q ->
  0 <= fst (round_pos q) < 2 ^ prec
  /\ emin <= snd (round_pos q)
  /\ (emin < snd (round_pos q) -> 2 ^ (prec - 1) <= fst (round_pos q)).
Proof.
  intros Hq. destruct (round_mant_bounds q Hq) as [Hb Hn].
  assert (He : emin <= round_exp q) by (unfold round_exp; lia).
  rewrite round_pos_unfold.
  destruct (Z.eqb_spec (round_mant q) (2 ^ prec)) as [H | H]; cbn [fst snd].
  - unfold prec. simpl. lia.
  - repeat split; first [lia | exact Hn].
Qed.

Lemma round_pos_monotone (p q : Q) :
  (0 < p)%Q -> (p <= q)%Q ->
  (pair_value (round_pos p) <= pair_value (round_pos q))%Q.
Proof.
  intros Hp Hpq.
  assert (Hq : (0 < q)%Q) by (apply Qlt_le_trans with p; assumption).
  rewrite !round_pos_value.
  pose proof (Qlog2_monotone p q Hp Hpq) as Hk.
  destruct (round_mant_bounds p Hp) as [[_ Hpm] _].
  destruct (round_mant_bounds q Hq) as [_ Hqn].
  assert (He : round_exp p <= round_exp q) by (unfold round_exp; lia).
  destruct (Z.eq_dec (round_exp p) (round_exp q)) as [Heq | Hne].
  - unfold round_mant. rewrite Heq.
    apply Qmult_le_compat_r; [| apply Qlt_le_weak, pow2_pos].
    rewrite <- Zle_Qle. apply Qround_half_even_monotone.
    apply Qdiv_pow2_le, Hpq.
  - assert (Hlt : round_exp p < round_exp q) by lia.
    assert (Hnorm : emin < round_exp q) by (unfold round_exp in *; lia).
    specialize (Hqn Hnorm).
    apply Qle_trans with (inject_Z (2 ^ prec) * pow2 (round_exp p))%Q.
    { apply Qmult_le_compat_r; [| apply Qlt_le_weak, pow2_pos].
      rewrite <- Zle_Qle. exact Hpm. }
    apply Qle_trans
      with (inject_Z (2 ^ (prec - 1)) * pow2 (round_exp q))%Q.
    { rewrite <- !pow2_Z by (unfold prec; lia). rewrite <- !pow2_add.
      apply pow2_le. unfold prec. lia. }
    apply Qmult_le_compat_r; [| apply Qlt_le_weak, pow2_pos].
    rewrite <- Zle_Qle. exact Hqn.
Qed.

(** ** The order of floats *)

Lemma F2Q_finite_pos (m : positive) (e : Z) :
  (0 < F2Q (S754_finite false m e))%Q.
Proof.
  unfold F2Q. apply Qmult_lt_0_compat; [reflexivity | apply pow2_pos].
Qed.

Lemma F2Q_finite_neg (m : positive) (e : Z) :
  (F2Q (S754_finite true m e) < 0)%Q.
Proof.
  unfold F2Q.
  setoid_replace 0%Q with (0 * pow2 e)%Q by (rewrite Qmult_0_l; reflexivity).
  apply Qmult_lt_compat_r; [apply pow2_pos | reflexivity].
Qed.

Lemma leb_finite (x y : float) :
  is_finite x = true -> is_finite y = true ->
  (leb x y = true <-> (F2Q x <= F2Q y)%Q).
Proof.
  intros Hx Hy. unfold leb.
  assert (Hc : Float.compare x y = Some (Qcompare (F2Q x) (F2Q y)))
    by (destruct x, y; try discriminate; reflexivity).
  rewrite Hc, Qle_alt.
  destruct (Qcompare (F2Q x) (F2Q y)); split; congruence.
Qed.

Lemma leb_not_nan (x y : float) :
  leb x y = true -> not_nan x = true /\ not_nan y = true.
Proof. destruct x, y; try discriminate; split; reflexivity. Qed.

Lemma leb_refl (x : float) : not_nan x = true -> leb x x = true.
Proof.
  destruct x as [s | s | | s m e]; try discriminate; intros _.
  - apply leb_finite; try reflexivity. apply Qle_refl.
  - unfold leb. cbn. rewrite Bool.eqb_reflx. reflexivity.
  - apply leb_finite; try reflexivity. apply Qle_refl.
Qed.

Lemma leb_trans (x y z : float) :
  leb x y = true -> leb y z = true -> leb x z = true.
Proof.
  intros Hxy Hyz.
  destruct (is_finite x) eqn:Fx, (is_finite y) eqn:Fy, (is_finite z) eqn:Fz.
  - rewrite leb_finite in * by assumption.
    apply Qle_trans with (F2Q y); assumption.
  - destruct x, z as [| [|] | |]; try discriminate;
      destruct y as [| | | [|] ? ?]; try discriminate; reflexivity.
  - destruct y as [| [|] | |]; try discriminate;
      destruct x; try discriminate; destruct z; discriminate.
  - destruct y as [| [|] | |]; try discriminate;
      destruct x; try discriminate;
      destruct z as [| [|] | |]; try discriminate; reflexivity.
  - destruct x as [| [|] | |]; try discriminate;
      destruct y; try discriminate; destruct z; try discriminate; reflexivity.
  - destruct x as [| [|] | |]; try discriminate;
      destruct y; try discriminate;
      destruct z as [| [|] | |]; try discriminate; reflexivity.
  - destruct x as [| [|] | |]; try discriminate;
      destruct y as [| [|] | |]; try discriminate;
      destruct z; try discriminate; reflexivity.
  - destruct x as [| [|] | |]; try discriminate;
      destruct y as [| [|] | |]; try discriminate;
      destruct z as [| [|] | |]; try discriminate; reflexivity.
Qed.

Lemma leb_total (x y : float) :
  not_nan x = true -> not_nan y = true ->
  leb x y = true \/ leb y x = true.
Proof.
  intros Nx Ny.
  destruct (is_finite x) eqn:Fx, (is_finite y) eqn:Fy.
  - rewrite !leb_finite by assumption.
    destruct (Qlt_le_dec (F2Q y) (F2Q x)) as [H | H];
      [right; apply Qlt_le_weak, H | left; exact H].
  - destruct y as [| [|] | |]; try discriminate;
      destruct x; try discriminate; auto.
  - destruct x as [| [|] | |]; try discriminate;
      destruct y; try discriminate; auto.
  - destruct x as [| [|] | |]; try discriminate;
      destruct y as [| [|] | |]; try discriminate; auto.
Qed.

(** Between zero and a finite float there are only finite floats. *)
Lemma finite_between (x y : float) :
  leb (S754_zero false) x = true -> leb x y = true ->
  is_finite y = true -> is_finite x = true.
Proof.
  destruct x as [| [|] | |]; try discriminate; try reflexivity.
  destruct y; discriminate.
Qed.

Lemma ltb_leb (x y : float) :
  not_nan x = true -> not_nan y = true ->
  ltb x y = false -> leb y x = true.
Proof.
  intros Nx Ny H.
  destruct (is_finite x) eqn:Fx, (is_finite y) eqn:Fy.
  - apply leb_finite; try assumption.
    unfold ltb in H.
    assert (Hc : Float.compare x y = Some (Qcompare (F2Q x) (F2Q y)))
      by (destruct x, y; try discriminate; reflexivity).
    rewrite Hc in H. apply Qnot_lt_le. intros Hlt.
    rewrite Qlt_alt in Hlt. rewrite Hlt in H. discriminate.
  - destruct y as [| [|] | |]; try discriminate;
      destruct x; try discriminate; auto.
  - destruct x as [| [|] | |]; try discriminate;
      destruct y; try discriminate; auto.
  - destruct x as [| [|] | |]; try discriminate;
      destruct y as [| [|] | |]; try discriminate; auto.
Qed.

(** ** Rounding to binary64 is monotone *)

Lemma round_zero (q : Q) : (q == 0)%Q -> round q = S754_zero false.
Proof.
  intros H. unfold round. rewrite (proj1 (Qeq_alt q 0) H). reflexivity.
Qed.

Lemma round_pos_case (q : Q) :
  (0 < q)%Q ->
  round q =
  match fst (round_pos q) with
  | Zpos p => if emax - prec <? snd (round_pos q) then S754_infinity false
              else S754_finite false p (snd (round_pos q))
  | _ => S754_zero false
  end.
Proof.
  intros Hq. unfold round.
  assert (Hc : Qcompare q 0 = Gt) by (apply Qgt_alt; exact Hq).
  rewrite Hc.
  assert (Habs : Qabs q = q).
  { destruct q as [[| n | n] d]; try reflexivity; discriminate. }
  rewrite Habs. destruct (round_pos q) as [m e]. reflexivity.
Qed.

(** What rounding a positive rational gives: zero, a positive finite float
    with the value of [round_pos], or the positive infinity when that
    value is at least [2^emax]. *)
Lemma round_pos_cases (q : Q) :
  (0 < q)%Q ->
  (round q = S754_zero false /\ (pair_value (round_pos q) == 0)%Q)
  \/ (round q = S754_infinity false
      /\ (pow2 emax <= pair_value (round_pos q))%Q)
  \/ (exists m e, round q = S754_finite false m e
      /\ (F2Q (round q) == pair_value (round_pos q))%Q
      /\ (pair_value (round_pos q) < pow2 emax)%Q).
Proof.
  intros Hq. rewrite (round_pos_case q Hq).
  destruct (round_pos_canonical q Hq) as ([Hm0 Hm1] & He & Hn).
  unfold pair_value.
  destruct (round_pos q) as [m e]. cbn [fst snd] in *.
  destruct m as [| p | p]; [| | lia].
  - left. split; [reflexivity |]. rewrite Qmult_0_l. reflexivity.
  - right. destruct (Z.ltb_spec (emax - prec) e) as [Hov | Hfin].
    + left. split; [reflexivity |].
      specialize (Hn ltac:(unfold emin, emax, prec in *; lia)).
      apply Qle_trans with (inject_Z (2 ^ (prec - 1)) * pow2 e)%Q.
      * rewrite <- pow2_Z by (unfold prec; lia). rewrite <- pow2_add.
        apply pow2_le. unfold emax, prec in *. lia.
      * apply Qmult_le_compat_r; [| apply Qlt_le_weak, pow2_pos].
        rewrite <- Zle_Qle. exact Hn.
    + right. exists p, e. split; [reflexivity |]. split; [reflexivity |].
      apply Qlt_le_trans with (inject_Z (2 ^ prec) * pow2 e)%Q.
      * apply Qmult_lt_compat_r; [apply pow2_pos |].
        rewrite <- Zlt_Qlt. exact Hm1.
      * rewrite <- pow2_Z by (unfold prec; lia). rewrite <- pow2_add.
        apply pow2_le. unfold emax, prec in *. lia.
Qed.

Lemma round_nonneg (q : Q) :
  (0 <= q)%Q -> leb (S754_zero false) (round q) = true.
Proof.
  intros Hq. destruct (Qle_lt_or_eq _ _ Hq) as [Hpos | Hz].
  - destruct (round_pos_cases q Hpos)
      as [[-> _] | [[-> _] | (m & e & -> & _)]]; try reflexivity.
    apply leb_finite; try reflexivity.
    apply Qlt_le_weak, F2Q_finite_pos.
  - rewrite round_zero by (symmetry; exact Hz). reflexivity.
Qed.

Theorem round_monotone (p q : Q) :
  (0 <= p)%Q -> (p <= q)%Q -> leb (round p) (round q) = true.
Proof.
  intros Hp Hpq. destruct (Qle_lt_or_eq _ _ Hp) as [Hpos | Hz].
  - assert (Hq : (0 < q)%Q) by (apply Qlt_le_trans with p; assumption).
    pose proof (round_pos_monotone p q Hpos Hpq) as Hmono.
    destruct (round_pos_cases p Hpos)
      as [[Ep Vp] | [[Ep Vp] | (m & e & Ep & Fp & Vp)]];
    destruct (round_pos_cases q Hq)
      as [[Eq' Vq] | [[Eq' Vq] | (m' & e' & Eq' & Fq & Vq)]].
    + rewrite Ep, Eq'. reflexivity.
    + rewrite Ep, Eq'. reflexivity.
    + rewrite Ep, Eq'. apply leb_finite; try reflexivity.
      apply Qlt_le_weak, F2Q_finite_pos.
    + exfalso. rewrite Vq in Hmono.
      apply (Qlt_irrefl (pow2 emax)).
      apply Qle_lt_trans with 0%Q; [| apply pow2_pos].
      apply Qle_trans with (pair_value (round_pos p)); assumption.
    + rewrite Ep, Eq'. reflexivity.
    + exfalso. apply (Qlt_irrefl (pow2 emax)).
      apply Qle_lt_trans with (pair_value (round_pos q)); [| exact Vq].
      apply Qle_trans with (pair_value (round_pos p)); assumption.
    + exfalso. rewrite Ep in Fp.
      pose proof (F2Q_finite_pos m e) as Hpos'. rewrite Fp in Hpos'.
      rewrite Vq in Hmono. apply (Qlt_irrefl 0%Q).
      apply Qlt_le_trans with (pair_value (round_pos p)); assumption.
    + rewrite Ep, Eq'. reflexivity.
    + apply leb_finite; [rewrite Ep | rewrite Eq' |]; try reflexivity.
      rewrite Fp, Fq. exact Hmono.
  - rewrite (round_zero p) by (symmetry; exact Hz).
    apply round_nonneg. apply Qle_trans with p; assumption.
Qed.

(** ** Arithmetic on non-negative floats *)

Lemma leb_zero_sign (s : bool) (x : float) :
  leb (S754_zero s) x = leb (S754_zero false) x.
Proof. destruct x; reflexivity. Qed.

Lemma leb_zero_nonneg (x : float) :
  is_finite x = true ->
  (leb (S754_zero false) x = true <-> (0 <= F2Q x)%Q).
Proof. intros Hx. apply (leb_finite (S754_zero false) x eq_refl Hx). Qed.

Lemma of_int_ok (n : Z) (x : float) :
  of_int n = Ok x -> x = round (inject_Z n) /\ is_finite x = true.
Proof.
  unfold of_int. intros H.
  assert (Hn : (0 <= inject_Z n)%Q \/ (inject_Z n < 0)%Q).
  { destruct (Qlt_le_dec (inject_Z n) 0); auto. }
  destruct (round (inject_Z n)) as [s | s | | s m e] eqn:E;
    try discriminate; injection H as <-; split; try reflexivity.
  exfalso. unfold round in E.
  destruct (Qcompare (inject_Z n) 0); try discriminate;
    destruct (round_pos (Qabs (inject_Z n))) as [[| p | p] e];
    try discriminate; destruct (emax - prec <? e); discriminate.
Qed.

Lemma of_int_finite (n : Z) :
  is_finite (round (inject_Z n)) = true ->
  of_int n = Ok (round (inject_Z n)).
Proof.
  unfold of_int. destruct (round (inject_Z n)); try discriminate; reflexivity.
Qed.

Lemma ceil_ok (x : float) (n : Z) :
  Float.ceil x = Ok n <-> is_finite x = true /\ n = Qceiling (F2Q x).
Proof.
  destruct x; simpl; split; try discriminate;
    try (intros [H _]; discriminate);
    try (intros H; injection H as <-; split; reflexivity);
    intros [_ ->]; reflexivity.
Qed.

Lemma mul_monotone (x x' y y' : float) :
  leb (S754_zero false) x = true -> leb x x' = true ->
  leb (S754_zero false) y = true -> leb y y' = true ->
  is_finite x' = true -> is_finite y' = true ->
  leb (S754_zero false) (Float.mul x y) = true
  /\ leb (Float.mul x y) (Float.mul x' y') = true.
Proof.
  intros Hx Hxx Hy Hyy Fx' Fy'.
  pose proof (finite_between x x' Hx Hxx Fx') as Fx.
  pose proof (finite_between y y' Hy Hyy Fy') as Fy.
  pose proof (proj1 (leb_zero_nonneg x Fx) Hx) as Vx.
  pose proof (proj1 (leb_zero_nonneg y Fy) Hy) as Vy.
  pose proof (proj1 (leb_finite x x' Fx Fx') Hxx) as Vxx.
  pose proof (proj1 (leb_finite y y' Fy Fy') Hyy) as Vyy.
  assert (Hprod : (0 <= F2Q x * F2Q y)%Q) by (apply Qmult_le_0_compat; assumption).
  assert (Hprod' : (F2Q x * F2Q y <= F2Q x' * F2Q y')%Q).
  { apply Qmult_le_compat_nonneg; split; assumption. }
  assert (Hnn : forall u v : float,
             is_finite u = true -> is_finite v = true ->
             (0 <= F2Q u * F2Q v)%Q ->
             leb (S754_zero false) (Float.mul u v) = true).
  { intros u v Fu Fv Huv.
    destruct u as [su | | | su mu eu], v as [sv | | | sv mv ev];
      try discriminate; try reflexivity.
    apply round_nonneg. exact Huv. }
  split; [apply Hnn; assumption |].
  destruct x as [sx | | | sx mx ex]; try discriminate;
    destruct y as [sy | | | sy my ey]; try discriminate.
  - cbn [Float.mul]. rewrite leb_zero_sign.
    apply Hnn; first [assumption | eapply Qle_trans; eassumption].
  - cbn [Float.mul]. rewrite leb_zero_sign.
    apply Hnn; first [assumption | eapply Qle_trans; eassumption].
  - cbn [Float.mul]. rewrite leb_zero_sign.
    apply Hnn; first [assumption | eapply Qle_trans; eassumption].
  - (* both positive: so are x' and y' *)
    assert (Px : (0 < F2Q (S754_finite sx mx ex))%Q).
    { destruct sx; [| apply F2Q_finite_pos].
      exfalso. apply (Qlt_irrefl 0%Q).
      eapply Qle_lt_trans; [exact Vx | apply F2Q_finite_neg]. }
    assert (Py : (0 < F2Q (S754_finite sy my ey))%Q).
    { destruct sy; [| apply F2Q_finite_pos].
      exfalso. apply (Qlt_irrefl 0%Q).
      eapply Qle_lt_trans; [exact Vy | apply F2Q_finite_neg]. }
    destruct x' as [sx' | | | sx' mx' ex']; try discriminate.
    { exfalso. apply (Qlt_irrefl 0%Q).
      eapply Qlt_le_trans; [exact Px | exact Vxx]. }
    destruct y' as [sy' | | | sy' my' ey']; try discriminate.
    { exfalso. apply (Qlt_irrefl 0%Q).
      eapply Qlt_le_trans; [exact Py | exact Vyy]. }
    cbn [Float.mul]. apply round_monotone; assumption.
Qed.

Lemma of_int_buffer :
  of_int FUEL_SAFETY_BUFFER_LITRES = Ok (round (inject_Z 1)).
Proof. vm_compute. reflexivity. Qed.

Lemma F2Q_one : (F2Q (round (inject_Z 1)) == 1)%Q.
Proof. vm_compute. reflexivity. Qed.

Lemma round_one :
  round (inject_Z 1) = S754_finite false 4503599627370496 (-52).
Proof. vm_compute. reflexivity. Qed.

Lemma add_one_monotone (x x' : float) :
  leb (S754_zero false) x = true -> leb x x' = true ->
  is_finite x' = true ->
  leb (S754_zero false) (Float.add x (round (inject_Z 1))) = true
  /\ leb (Float.add x (round (inject_Z 1)))
         (Float.add x' (round (inject_Z 1))) = true.
Proof.
  intros Hx Hxx Fx'.
  pose proof (finite_between x x' Hx Hxx Fx') as Fx.
  pose proof (proj1 (leb_zero_nonneg x Fx) Hx) as Vx.
  pose proof (proj1 (leb_finite x x' Fx Fx') Hxx) as Vxx.
  assert (Vx' : (0 <= F2Q x')%Q) by (apply Qle_trans with (F2Q x); assumption).
  assert (Hone : forall s m e,
             Float.add (S754_finite s m e) (round (inject_Z 1))
             = round (F2Q (S754_finite s m e) + F2Q (round (inject_Z 1))))
    by reflexivity.
  assert (Hzero : forall s, Float.add (S754_zero s) (round (inject_Z 1))
                            = round (inject_Z 1)) by reflexivity.
  assert (Hsum : forall u : float, (0 <= F2Q u)%Q ->
                   (inject_Z 1 <= F2Q u + F2Q (round (inject_Z 1)))%Q).
  { intros u Hu. rewrite F2Q_one.
    setoid_replace (inject_Z 1) with (0 + 1)%Q by reflexivity.
    apply Qplus_le_l. exact Hu. }
  destruct x as [sx | | | sx mx ex]; try discriminate;
    destruct x' as [sx' | | | sx' mx' ex']; try discriminate;
    rewrite ?Hone, ?Hzero.
  - split; reflexivity.
  - split; [reflexivity |].
    apply round_monotone; [discriminate |]. apply Hsum, Vx'.
  - exfalso.
    assert (P : (0 < F2Q (S754_finite sx mx ex))%Q).
    { destruct sx; [| apply F2Q_finite_pos].
      exfalso. apply (Qlt_irrefl 0%Q).
      eapply Qle_lt_trans; [exact Vx | apply F2Q_finite_neg]. }
    apply (Qlt_irrefl 0%Q). eapply Qlt_le_trans; [exact P | exact Vxx].
  - assert (H0 : (0 <= F2Q (S754_finite sx mx ex)
                        + F2Q (round (inject_Z 1)))%Q).
    { apply Qle_trans with (inject_Z 1); [discriminate | apply Hsum, Vx]. }
    split; [apply round_nonneg, H0 |].
    apply round_monotone; [exact H0 |]. apply Qplus_le_l. exact Vxx.
Qed.

Lemma ceil_monotone (x y : float) :
  is_finite x = true -> is_finite y = true -> leb x y = true ->
  Qceiling (F2Q x) <= Qceiling (F2Q y).
Proof.
  intros Fx Fy H. apply Qceiling_resp_le. apply leb_finite; assumption.
Qed.

(** ** Fuel *)

(** C6.  For a fuel rate that is not negative and a lap count that is not
    negative, raising either does not lower the fuel: whenever the fuel
    for the larger inputs is computed, so is the fuel for the smaller
    ones, and it is not more. *)
Theorem calculate_fuel_monotone
  (litres_per_lap litres_per_lap' : float) (laps laps' fuel' : Z) :
  leb (S754_zero false) litres_per_lap = true ->
  leb litres_per_lap litres_per_lap' = true ->
  0 <= laps -> laps <= laps' ->
  calculate_fuel litres_per_lap' laps' = Ok fuel' ->
  exists fuel, calculate_fuel litres_per_lap laps = Ok fuel /\ fuel <= fuel'.
Proof.
  intros Hl Hll Hn Hnn H. unfold calculate_fuel in *.
  rewrite of_int_buffer in *. cbn [bind] in *.
  bind_inv H. destruct (of_int_ok _ _ E) as [-> Fa'].
  apply ceil_ok in H. destruct H as [Fsum' ->].
  set (a' := round (inject_Z laps')) in *.
  set (a := round (inject_Z laps)).
  assert (Hn' : (0 <= inject_Z laps)%Q).
  { change 0%Q with (inject_Z 0). rewrite <- Zle_Qle. exact Hn. }
  assert (Ha0 : leb (S754_zero false) a = true)
    by (apply round_nonneg, Hn').
  assert (Haa : leb a a' = true).
  { apply round_monotone; [exact Hn' |].
    rewrite <- Zle_Qle. exact Hnn. }
  assert (Fa : is_finite a = true) by (apply (finite_between a a'); assumption).
  assert (Hof : of_int laps = Ok a) by (apply of_int_finite, Fa).
  clearbody a a'.
  assert (Fl' : is_finite litres_per_lap' = true).
  { destruct litres_per_lap' as [| [|] | |]; try reflexivity.
    - destruct litres_per_lap as [| [|] | |];
        first [cbv in Hll; discriminate | cbv in Hl; discriminate].
    - rewrite round_one in Fsum'.
      destruct a'; first [cbv in Fsum'; discriminate | discriminate].
    - destruct litres_per_lap as [| [|] | |];
        first [cbv in Hll; discriminate | cbv in Hl; discriminate]. }
  assert (Fm' : is_finite (Float.mul litres_per_lap' a') = true).
  { rewrite round_one in Fsum'.
    destruct (Float.mul litres_per_lap' a'); try reflexivity;
      cbv in Fsum'; discriminate. }
  destruct (mul_monotone _ _ _ _ Hl Hll Ha0 Haa Fl' Fa') as [Hm0 Hmm].
  destruct (add_one_monotone _ _ Hm0 Hmm Fm') as [Hs0 Hss].
  pose proof (finite_between _ _ Hs0 Hss Fsum') as Fsum.
  rewrite Hof. cbn [bind].
  exists (Qceiling (F2Q (Float.add (Float.mul litres_per_lap a)
                           (round (inject_Z 1))))).
  split; [apply ceil_ok; split; [exact Fsum | reflexivity] |].
  apply ceil_monotone; assumption.
Qed.

Lemma calculate_fuel_monotone_witness :
  exists fuel,
    calculate_fuel (literal 29 10) 40 = Ok fuel /\ fuel <= 124.
Proof.
  apply (calculate_fuel_monotone (literal 29 10) (literal 3 1) 40 41 124);
    [reflexivity | reflexivity | lia | lia | reflexivity].
Defined.

(** ** Dictionaries *)

Lemma set_In {V : Type} (d : Dict.dict V) (k k' : string) (v v' : V) :
  In (k, v) (Dict.set d k' v') -> (k, v) = (k', v') \/ In (k, v) d.
Proof.
  induction d as [| [k0 v0] d IH]; simpl.
  - intros [H | []]. left. symmetry. exact H.
  - destruct (String.eqb k' k0).
    + intros [H | H]; [left; symmetry; exact H | right; right; exact H].
    + intros [H | H]; [right; left; exact H |].
      destruct (IH H) as [H' | H']; [left; exact H' | right; right; exact H'].
Qed.

Lemma set_fresh {V : Type} (d : Dict.dict V) (k : string) (v : V) :
  ~ In k (Dict.keys d) -> Dict.set d k v = (d ++ [(k, v)])%list.
Proof.
  induction d as [| [k0 v0] d IH]; simpl; intros H; [reflexivity |].
  destruct (String.eqb_spec k k0) as [-> | Hne].
  - exfalso. apply H. left. reflexivity.
  - rewrite IH; [reflexivity |]. intros Hin. apply H. right. exact Hin.
Qed.

Lemma lookup_In {V : Type} (d : Dict.dict V) (k : string) (v : V) :
  Dict.wf d -> (Dict.lookup d k = Some v <-> In (k, v) d).
Proof.
  unfold Dict.wf, Dict.keys.
  induction d as [| [k0 v0] d IH]; simpl; intros Hwf.
  - split; [discriminate | intros []].
  - inversion Hwf as [| ? ? Hnotin Hwf']; subst.
    destruct (String.eqb_spec k k0) as [-> | Hne].
    + split.
      * intros H. injection H as ->. left. reflexivity.
      * intros [H | H]; [injection H as ->; reflexivity |].
        exfalso. apply Hnotin. apply (in_map fst) in H. exact H.
    + rewrite (IH Hwf'). split.
      * intros H. right. exact H.
      * intros [H | H]; [| exact H]. injection H as -> _.
        exfalso. apply Hne. reflexivity.
Qed.

(** ** The loop of [get_strategies] *)

Section Loop.

Variables (race_time : timedelta) (litres_per_lap : float)
          (time_lost_driving_through_pits : timedelta).

Let evaluate := evaluate_strategy race_time litres_per_lap
                  time_lost_driving_through_pits.
Let loop := evaluate_all race_time litres_per_lap
              time_lost_driving_through_pits.

(** An item of the result is an item there was before or the result of
    the strategy of its key. *)
Lemma evaluate_all_In items :
  forall out0 out,
  loop items out0 = Ok out ->
  forall k r, In (k, r) out ->
  In (k, r) out0
  \/ exists lap_times, In (k, lap_times) items
                       /\ evaluate k lap_times = Ok r.
Proof.
  induction items as [| [strat lap_times] items IH];
    intros out0 out H k r Hin.
  - injection H as <-. left. exact Hin.
  - cbn [loop evaluate_all] in H. bind_inv H.
    destruct (IH _ _ H k r Hin) as [H0 | (lt & Hlt & Hev)].
    + destruct (set_In _ _ _ _ _ H0) as [Heq | Hold].
      * injection Heq as -> ->. right. exists lap_times.
        split; [left; reflexivity | exact E].
      * left. exact Hold.
    + right. exists lt. split; [right; exact Hlt | exact Hev].
Qed.

(** On a dictionary the loop gives the result of each strategy, in the
    order of the input. *)
Lemma evaluate_all_Forall2 items :
  forall out0 out,
  NoDup (Dict.keys items) ->
  (forall k, In k (Dict.keys items) -> ~ In k (Dict.keys out0)) ->
  loop items out0 = Ok out ->
  exists out',
    out = (out0 ++ out')%list
    /\ Forall2 (fun item res => fst item = fst res
                                /\ evaluate (fst item) (snd item)
                                   = Ok (snd res)) items out'.
Proof.
  induction items as [| [strat lap_times] items IH];
    intros out0 out Hnd Hfresh H.
  - injection H as <-. exists []. rewrite app_nil_r.
    split; [reflexivity | constructor].
  - cbn [loop evaluate_all] in H. bind_inv H.
    cbn [Dict.keys map fst] in Hnd, Hfresh.
    inversion Hnd as [| ? ? Hnotin Hnd']; subst.
    rewrite set_fresh in H by (apply Hfresh; left; reflexivity).
    assert (Hfresh' : forall k, In k (Dict.keys items) ->
                        ~ In k (Dict.keys (out0 ++ [(strat, v)])%list)).
    { intros k Hk Hin. unfold Dict.keys in Hin.
      rewrite map_app in Hin. apply in_app_or in Hin.
      destruct Hin as [Hin | [<- | []]].
      - apply (Hfresh k); [right; exact Hk | exact Hin].
      - apply Hnotin. exact Hk. }
    destruct (IH _ _ Hnd' Hfresh' H) as (out' & -> & Hall).
    exists ((strat, v) :: out'). rewrite <- app_assoc.
    split; [reflexivity |].
    constructor; [split; [reflexivity | exact E] | exact Hall].
Qed.

End Loop.

(** ** Sorting *)

Lemma ltb_true_leb (x y : float) : ltb x y = true -> leb x y = true.
Proof.
  unfold ltb, leb. destruct (Float.compare x y) as [[| |] |];
    try discriminate; reflexivity.
Qed.

Lemma StronglySorted_app {A : Type} (R : A -> A -> Prop) (l1 l2 : list A) :
  StronglySorted R l1 -> StronglySorted R l2 ->
  (forall x y, In x l1 -> In y l2 -> R x y) ->
  StronglySorted R (l1 ++ l2).
Proof.
  induction l1 as [| a l1 IH]; simpl; intros H1 H2 H12; [exact H2 |].
  inversion H1 as [| ? ? Hs Hall]; subst.
  constructor.
  - apply IH; [exact Hs | exact H2 |].
    intros x y Hx Hy. apply H12; [right; exact Hx | exact Hy].
  - apply Forall_app. split; [exact Hall |].
    apply Forall_forall. intros y Hy. apply H12; [left; reflexivity | exact Hy].
Qed.

Lemma StronglySorted_rev {A : Type} (R : A -> A -> Prop) (l : list A) :
  StronglySorted R l -> StronglySorted (fun a b => R b a) (rev l).
Proof.
  induction 1 as [| a l Hs IH Hall]; simpl; [constructor |].
  apply StronglySorted_app; [exact IH | repeat constructor |].
  intros x y Hx [<- | []]. apply in_rev in Hx.
  rewrite Forall_forall in Hall. apply Hall, Hx.
Qed.

Section SortedFacts.

Context {A : Type} (key : A -> float).

Let ascending (a b : A) : Prop := leb (key a) (key b) = true.

Lemma insert_sorted_perm (x : A) (l : list A) :
  Permutation (insert_sorted key x l) (x :: l).
Proof.
  induction l as [| y l IH]; simpl; [reflexivity |].
  destruct (ltb (key x) (key y)); [reflexivity |].
  rewrite IH. apply perm_swap.
Qed.

Lemma stable_sort_perm (l : list A) : Permutation (stable_sort key l) l.
Proof.
  unfold stable_sort.
  assert (H : forall acc,
             Permutation
               (fold_left (fun acc x => insert_sorted key x acc) l acc)
               (acc ++ l)).
  { induction l as [| x l IH]; intros acc; simpl.
    - rewrite app_nil_r. reflexivity.
    - rewrite IH, insert_sorted_perm.
      change (x :: acc ++ l) with ((x :: acc) ++ l).
      rewrite (Permutation_middle acc l x). reflexivity. }
  apply (H []).
Qed.

Lemma sorted_perm (l : list A) (reverse : bool) :
  Permutation (sorted key l reverse) l.
Proof.
  unfold sorted. destruct reverse; [| apply stable_sort_perm].
  rewrite <- Permutation_rev, stable_sort_perm, <- Permutation_rev.
  reflexivity.
Qed.

Lemma insert_sorted_ascending (x : A) (l : list A) :
  not_nan (key x) = true -> Forall (fun y => not_nan (key y) = true) l ->
  StronglySorted ascending l ->
  StronglySorted ascending (insert_sorted key x l).
Proof.
  intros Nx Nl Hs. induction Hs as [| y l Hs IH Hall]; simpl.
  - repeat constructor.
  - inversion Nl as [| ? ? Ny Nl']; subst.
    destruct (ltb (key x) (key y)) eqn:Hlt.
    + apply ltb_true_leb in Hlt.
      constructor; [constructor; assumption |].
      constructor; [exact Hlt |].
      rewrite Forall_forall in *. intros z Hz.
      apply leb_trans with (key y); [exact Hlt | apply Hall, Hz].
    + constructor; [apply IH, Nl' |].
      rewrite (insert_sorted_perm x l).
      constructor; [| exact Hall].
      apply ltb_leb; assumption.
Qed.

Lemma stable_sort_ascending (l : list A) :
  Forall (fun y => not_nan (key y) = true) l ->
  StronglySorted ascending (stable_sort key l).
Proof.
  unfold stable_sort. intros Nl.
  assert (H : forall acc,
             Forall (fun y => not_nan (key y) = true) acc ->
             StronglySorted ascending acc ->
             StronglySorted ascending
               (fold_left (fun acc x => insert_sorted key x acc) l acc)).
  { induction Nl as [| x l Nx Nl IH]; intros acc Nacc Hs; simpl;
      [exact Hs |].
    apply IH.
    - rewrite (insert_sorted_perm x acc). constructor; assumption.
    - apply insert_sorted_ascending; assumption. }
  apply H; constructor.
Qed.

(** With [reverse=True] and keys that are no NaN the result is in
    descending order of the key. *)
Lemma sorted_descending (l : list A) :
  Forall (fun y => not_nan (key y) = true) l ->
  StronglySorted (fun a b => leb (key b) (key a) = true)
    (sorted key l true).
Proof.
  intros Nl. unfold sorted.
  apply (StronglySorted_rev ascending).
  apply stable_sort_ascending.
  rewrite <- Permutation_rev. exact Nl.
Qed.

End SortedFacts.

(** ** One strategy *)

Lemma round_not_nan (q : Q) : not_nan (round q) = true.
Proof.
  unfold round. destruct (Qcompare q 0); try reflexivity;
    destruct (round_pos (Qabs q)) as [[| p | p] e]; try reflexivity;
    destruct (emax - prec <? e); reflexivity.
Qed.

Lemma int_truediv_ok (a b : Z) (x : float) :
  int_truediv a b = Ok x ->
  b <> 0 /\ is_finite x = true
  /\ (F2Q x == F2Q (round (inject_Z a / inject_Z b)))%Q
  /\ (a <> 0 -> x = round (inject_Z a / inject_Z b)).
Proof.
  unfold int_truediv.
  destruct (Z.eqb_spec b 0) as [| Hb]; [discriminate |].
  destruct (Z.eqb_spec a 0) as [-> | Ha].
  - intros H. injection H as <-.
    rewrite round_zero by (unfold Qdiv; apply Qmult_0_l).
    split; [exact Hb |]. split; [reflexivity |].
    split; [reflexivity | congruence].
  - pose proof (round_not_nan (inject_Z a / inject_Z b)) as Hnn.
    destruct (round (inject_Z a / inject_Z b)); try discriminate;
      intros H; injection H as <-;
      (split; [exact Hb |]); (split; [reflexivity |]);
      split; reflexivity.
Qed.

(** Everything [strategy_result] computes on the way to a result. *)
Lemma strategy_result_inv
  (race_time : timedelta) (litres_per_lap : float)
  (time_lost_driving_through_pits : timedelta) (strat : string)
  (raw_lap_time : timedelta) (naive_laps naive_fuel : Z)
  (r : StrategyResult) :
  strategy_result race_time litres_per_lap time_lost_driving_through_pits
    strat raw_lap_time naive_laps naive_fuel = Ok r ->
  exists stop lost amortised ceiling',
    get_pit_stop_time_for_strategy strat naive_fuel = Ok stop
    /\ calculate_lost_time stop time_lost_driving_through_pits = Ok lost
    /\ Timedelta.div_int lost naive_laps = Ok amortised
    /\ Timedelta.add raw_lap_time amortised = Ok (normalised_lap_time r)
    /\ Timedelta.truediv race_time (normalised_lap_time r)
       = Ok (laps_at_zero r)
    /\ Float.ceil (laps_at_zero r) = Ok (total_laps r)
    /\ Float.of_int (total_laps r) = Ok ceiling'
    /\ calculate_fuel litres_per_lap
         (if Float.leb (Float.sub ceiling' (laps_at_zero r))
               FUEL_SAFETY_EXTRA_LAP_THRESHOLD
          then total_laps r + 1 else total_laps r) = Ok (total_fuel r)
    /\ calculate_total_time (total_laps r) (normalised_lap_time r)
       = Ok (total_time r)
    /\ Timedelta.add stop time_lost_driving_through_pits
       = Ok (pit_stop_time r).
Proof.
  unfold strategy_result. intros H.
  bind_inv H. rename v into stop, E into Estop.
  bind_inv H. rename v into lost, E into Elost.
  bind_inv H. rename v into amortised, E into Eam.
  bind_inv H. rename v into lap_time, E into Elap.
  bind_inv H. rename v into laps, E into Elaps.
  bind_inv H. rename v into laz, E into Elaz.
  bind_inv H. rename v into ceiling, E into Eceil.
  bind_inv H. rename v into ceiling', E into Eof.
  bind_inv H. rename v into fuel, E into Efuel.
  bind_inv H. rename v into time, E into Etime.
  bind_inv H. rename v into shown, E into Eshown.
  injection H as <-. cbn [normalised_lap_time laps_at_zero total_laps
    total_fuel total_time pit_stop_time].
  cbn [calculate_laps] in Elaps, Elaz.
  bind_inv Elaz. injection Elaz as ->.
  bind_inv Elaps. rewrite E in E0. injection E0 as ->.
  assert (laps = ceiling) by congruence. subst ceiling.
  exists stop, lost, amortised, ceiling'.
  repeat split; assumption.
Qed.

Lemma evaluate_strategy_inv
  (race_time : timedelta) (litres_per_lap : float)
  (time_lost_driving_through_pits : timedelta) (strat : string)
  (lap_times : list timedelta) (r : StrategyResult) :
  evaluate_strategy race_time litres_per_lap time_lost_driving_through_pits
    strat lap_times = Ok r ->
  exists raw_lap_time naive_laps naive_fuel,
    deteriorated_lap_time strat lap_times = Ok raw_lap_time
    /\ naive_estimate race_time raw_lap_time litres_per_lap
       = Ok (naive_laps, naive_fuel)
    /\ strategy_result race_time litres_per_lap
         time_lost_driving_through_pits strat raw_lap_time naive_laps
         naive_fuel = Ok r.
Proof.
  unfold evaluate_strategy. intros H.
  bind_inv H. bind_inv H. destruct v0 as [naive_laps naive_fuel].
  exists v, naive_laps, naive_fuel. repeat split; assumption.
Qed.

(** An item of the output of [get_strategies] is the result of a strategy
    of the input. *)
Lemma get_strategies_In
  (race_time : timedelta) (strategies_to_times : Dict.dict (list timedelta))
  (litres_per_lap : float) (time_lost_driving_through_pits : timedelta)
  (out : Dict.dict StrategyResult) (k : string) (r : StrategyResult) :
  get_strategies race_time strategies_to_times litres_per_lap
    time_lost_driving_through_pits = Ok out ->
  In (k, r) out ->
  exists lap_times,
    In (k, lap_times) strategies_to_times
    /\ evaluate_strategy race_time litres_per_lap
         time_lost_driving_through_pits k lap_times = Ok r.
Proof.
  unfold get_strategies. intros H Hin. bind_inv H. injection H as <-.
  apply (Permutation_in _
           (sorted_perm (fun r => laps_at_zero (snd r)) v true)) in Hin.
  destruct (evaluate_all_In _ _ _ _ _ _ E k r Hin) as [[] | Hex].
  exact Hex.
Qed.

(** ** Laps *)

(** C4.  In every result [get_strategies] emits, the laps at zero are the
    race time divided by the normalised lap time, as a float that is not
    rounded to a whole number, and the total laps are the ceiling of that
    float: a whole number that is not below it. *)
Theorem total_laps_is_ceiling
  (race_time : timedelta) (strategies_to_times : Dict.dict (list timedelta))
  (litres_per_lap : float) (time_lost_driving_through_pits : timedelta)
  (out : Dict.dict StrategyResult) (k : string) (r : StrategyResult) :
  get_strategies race_time strategies_to_times litres_per_lap
    time_lost_driving_through_pits = Ok out ->
  In (k, r) out ->
  calculate_laps race_time (normalised_lap_time r) false
    = Ok (laps_at_zero r)
  /\ calculate_laps race_time (normalised_lap_time r) true
    = Ok (total_laps r)
  /\ is_finite (laps_at_zero r) = true
  /\ total_laps r = Qceiling (F2Q (laps_at_zero r))
  /\ (F2Q (laps_at_zero r) <= inject_Z (total_laps r))%Q.
Proof.
  intros H Hin.
  destruct (get_strategies_In _ _ _ _ _ _ _ H Hin) as (lap_times & _ & Hev).
  destruct (evaluate_strategy_inv _ _ _ _ _ _ Hev)
    as (raw & nl & nf & _ & _ & Hres).
  destruct (strategy_result_inv _ _ _ _ _ _ _ _ Hres)
    as (stop & lost & am & c' & _ & _ & _ & _ & Hdiv & Hceil & _).
  cbn [calculate_laps]. rewrite Hdiv. cbn [bind].
  apply ceil_ok in Hceil as Hc. destruct Hc as [Hfin Hval].
  repeat split; try assumption.
  rewrite Hval. apply Qle_ceiling.
Qed.

Lemma example_run :
  get_strategies 3600000000 example_times (literal 3 1) 10000000
  = Ok example_out.
Proof. vm_compute. reflexivity. Qed.

Lemma total_laps_is_ceiling_witness :
  total_laps example_med_50 = Qceiling (F2Q (laps_at_zero example_med_50))
  /\ (F2Q (laps_at_zero example_med_50)
      <= inject_Z (total_laps example_med_50))%Q.
Proof.
  destruct (total_laps_is_ceiling 3600000000 example_times (literal 3 1)
              10000000 example_out "med_50" example_med_50)
    as (_ & _ & _ & H1 & H2).
  - vm_compute. reflexivity.
  - simpl. auto.
  - split; [exact H1 | exact H2].
Defined.

(** ** Ranking *)

Lemma set_keys {V : Type} (d : Dict.dict V) (k k' : string) (v : V) :
  In k (Dict.keys (Dict.set d k' v)) <-> k = k' \/ In k (Dict.keys d).
Proof.
  unfold Dict.keys. induction d as [| [k0 v0] d IH]; simpl.
  - split; [intros [H | []]; left; symmetry; exact H
           | intros [H | []]; left; symmetry; exact H].
  - destruct (String.eqb_spec k' k0) as [-> | Hne]; simpl.
    + split; [intros [H | H]; [left; symmetry; exact H | right; right; exact H]
             | intros [H | [H | H]];
               [left; symmetry; exact H | left; exact H | right; exact H]].
    + rewrite IH. tauto.
Qed.

Lemma evaluate_all_keys
  (race_time : timedelta) (litres_per_lap : float)
  (time_lost_driving_through_pits : timedelta)
  (items : list (string * list timedelta)) :
  forall out0 out,
  evaluate_all race_time litres_per_lap time_lost_driving_through_pits
    items out0 = Ok out ->
  forall k, In k (Dict.keys out0) \/ In k (Dict.keys items) ->
            In k (Dict.keys out).
Proof.
  induction items as [| [strat lap_times] items IH]; intros out0 out H k Hk.
  - injection H as <-. destruct Hk as [Hk | []]. exact Hk.
  - cbn [evaluate_all] in H. bind_inv H.
    apply (IH _ _ H). cbn [Dict.keys map fst] in Hk.
    destruct Hk as [Hk | [<- | Hk]].
    + left. apply set_keys. right. exact Hk.
    + left. apply set_keys. left. reflexivity.
    + right. exact Hk.
Qed.

Lemma total_laps_ceiling_finite
  (race_time : timedelta) (strategies_to_times : Dict.dict (list timedelta))
  (litres_per_lap : float) (time_lost_driving_through_pits : timedelta)
  (out : Dict.dict StrategyResult) (k : string) (r : StrategyResult) :
  get_strategies race_time strategies_to_times litres_per_lap
    time_lost_driving_through_pits = Ok out ->
  In (k, r) out -> is_finite (laps_at_zero r) = true.
Proof.
  intros H Hin.
  destruct (get_strategies_In _ _ _ _ _ _ _ H Hin) as (lap_times & _ & Hev).
  destruct (evaluate_strategy_inv _ _ _ _ _ _ Hev)
    as (raw & nl & nf & _ & _ & Hres).
  destruct (strategy_result_inv _ _ _ _ _ _ _ _ Hres)
    as (stop & lost & am & c' & _ & _ & _ & _ & Hdiv & _).
  apply int_truediv_ok in Hdiv. tauto.
Qed.

(** C5.  The output of [get_strategies] holds a result for every strategy
    of the input, and from one item to every later one the laps at zero
    do not increase. *)
Theorem get_strategies_ranked
  (race_time : timedelta) (strategies_to_times : Dict.dict (list timedelta))
  (litres_per_lap : float) (time_lost_driving_through_pits : timedelta)
  (out : Dict.dict StrategyResult) :
  get_strategies race_time strategies_to_times litres_per_lap
    time_lost_driving_through_pits = Ok out ->
  StronglySorted
    (fun a b => leb (laps_at_zero (snd b)) (laps_at_zero (snd a)) = true)
    out
  /\ forall k, In k (Dict.keys strategies_to_times) -> In k (Dict.keys out).
Proof.
  intros H. pose proof H as H'. unfold get_strategies in H'.
  bind_inv H'. injection H' as Hout. split.
  - rewrite <- Hout.
    apply (sorted_descending (fun r => laps_at_zero (snd r))).
    apply Forall_forall. intros [k r] Hin.
    assert (Hin' : In (k, r) out).
    { rewrite <- Hout.
      apply (Permutation_in _
               (Permutation_sym
                  (sorted_perm (fun r => laps_at_zero (snd r)) v true))).
      exact Hin. }
    pose proof (total_laps_ceiling_finite _ _ _ _ _ _ _ H Hin') as Hfin.
    cbn [snd]. destruct (laps_at_zero r); try discriminate; reflexivity.
  - intros k Hk.
    pose proof (evaluate_all_keys _ _ _ _ _ _ E k (or_intror Hk)) as Hkey.
    rewrite <- Hout. unfold Dict.keys in *.
    apply (Permutation_in _
             (Permutation_map fst
                (Permutation_sym
                   (sorted_perm (fun r => laps_at_zero (snd r)) v true)))).
    exact Hkey.
Qed.

Lemma get_strategies_ranked_witness :
  StronglySorted
    (fun a b => leb (laps_at_zero (snd b)) (laps_at_zero (snd a)) = true)
    example_out.
Proof.
  apply (get_strategies_ranked 3600000000 example_times (literal 3 1)
           10000000 example_out).
  vm_compute. reflexivity.
Defined.

(** ** Each strategy on its own *)

(** On a dictionary, the output of [get_strategies] is a dictionary that
    maps exactly the strategies of the input, each to its own result. *)
Lemma get_strategies_lookup
  (race_time : timedelta) (strategies_to_times : Dict.dict (list timedelta))
  (litres_per_lap : float) (time_lost_driving_through_pits : timedelta)
  (out : Dict.dict StrategyResult) :
  Dict.wf strategies_to_times ->
  get_strategies race_time strategies_to_times litres_per_lap
    time_lost_driving_through_pits = Ok out ->
  Dict.wf out
  /\ forall k lap_times,
       Dict.lookup strategies_to_times k = Some lap_times ->
       exists r,
         Dict.lookup out k = Some r
         /\ evaluate_strategy race_time litres_per_lap
              time_lost_driving_through_pits k lap_times = Ok r.
Proof.
  intros Hwf H. unfold get_strategies in H. bind_inv H. injection H as <-.
  destruct (evaluate_all_Forall2 _ _ _ _ [] v Hwf (fun _ _ H => H) E)
    as (out' & -> & Hall).
  cbn [app] in *.
  pose proof (sorted_perm (fun r => laps_at_zero (snd r)) out' true) as Hperm.
  assert (Hkeys : Dict.keys out' = Dict.keys strategies_to_times).
  { clear -Hall. unfold Dict.keys.
    induction Hall as [| a b l l' [Hk _] _ IH]; simpl; [reflexivity |].
    rewrite IH, Hk. reflexivity. }
  assert (Hwf' : Dict.wf out') by (unfold Dict.wf; rewrite Hkeys; exact Hwf).
  assert (Hwfs : Dict.wf
                   (sorted (fun r => laps_at_zero (snd r)) out' true)).
  { unfold Dict.wf, Dict.keys in *.
    apply (Permutation_NoDup (Permutation_map fst (Permutation_sym Hperm))).
    exact Hwf'. }
  split; [exact Hwfs |].
  intros k lap_times Hlook.
  apply (lookup_In _ _ _ Hwf) in Hlook.
  assert (Hex : exists r, In (k, r) out'
                          /\ evaluate_strategy race_time litres_per_lap
                               time_lost_driving_through_pits k lap_times
                             = Ok r).
  { clear -Hall Hlook.
    induction Hall as [| [k0 l0] [k1 r1] l l' [Hk Hev] _ IH];
      [destruct Hlook |].
    cbn [fst snd] in *. subst k1.
    destruct Hlook as [Heq | Hin].
    - injection Heq as -> ->. exists r1. split; [left; reflexivity | exact Hev].
    - destruct (IH Hin) as (r & Hr & Hev'). exists r.
      split; [right; exact Hr | exact Hev']. }
  destruct Hex as (r & Hin & Hev). exists r. split; [| exact Hev].
  apply (lookup_In _ _ _ Hwfs).
  apply (Permutation_in _ (Permutation_sym Hperm)). exact Hin.
Qed.

(** C10.  The result of a strategy is a function of its own lap times, the
    race time, the fuel rate and the time lost in the pit lane: two
    evaluations that agree on these give the strategy the same result,
    whatever other strategies either of them holds. *)
Theorem strategy_result_noninterference
  (race_time : timedelta) (litres_per_lap : float)
  (time_lost_driving_through_pits : timedelta)
  (times1 times2 : Dict.dict (list timedelta))
  (out1 out2 : Dict.dict StrategyResult)
  (strat : string) (lap_times : list timedelta) :
  Dict.wf times1 -> Dict.wf times2 ->
  Dict.lookup times1 strat = Some lap_times ->
  Dict.lookup times2 strat = Some lap_times ->
  get_strategies race_time times1 litres_per_lap
    time_lost_driving_through_pits = Ok out1 ->
  get_strategies race_time times2 litres_per_lap
    time_lost_driving_through_pits = Ok out2 ->
  exists r,
    Dict.lookup out1 strat = Some r
    /\ Dict.lookup out2 strat = Some r
    /\ evaluate_strategy race_time litres_per_lap
         time_lost_driving_through_pits strat lap_times = Ok r.
Proof.
  intros Hwf1 Hwf2 Hl1 Hl2 H1 H2.
  destruct (get_strategies_lookup _ _ _ _ _ Hwf1 H1) as [_ Hout1].
  destruct (get_strategies_lookup _ _ _ _ _ Hwf2 H2) as [_ Hout2].
  destruct (Hout1 _ _ Hl1) as (r1 & Hr1 & Hev1).
  destruct (Hout2 _ _ Hl2) as (r2 & Hr2 & Hev2).
  assert (r1 = r2) by congruence. subst r2.
  exists r1. repeat split; assumption.
Qed.

Lemma strategy_result_noninterference_witness :
  exists r,
    Dict.lookup example_out "med_99" = Some r
    /\ Dict.lookup [("med_99", example_med_99)] "med_99" = Some r
    /\ evaluate_strategy 3600000000 (literal 3 1) 10000000 "med_99"
         [90000000] = Ok r.
Proof.
  apply (strategy_result_noninterference 3600000000 (literal 3 1) 10000000
           example_times [("med_99", [90000000])]).
  - repeat constructor; simpl; intuition discriminate.
  - repeat constructor; simpl; intuition discriminate.
  - reflexivity.
  - reflexivity.
  - vm_compute. reflexivity.
  - vm_compute. reflexivity.
Defined.

(** ** Rounding is exact on binary64 values *)

Lemma Qlog2_unique (q : Q) (k : Z) :
  (pow2 k <= q)%Q -> (q < pow2 (k + 1))%Q -> Qlog2 q = k.
Proof.
  intros Hlo Hhi.
  assert (Hq : (0 < q)%Q) by (eapply Qlt_le_trans; [apply pow2_pos | exact Hlo]).
  destruct (Qlog2_spec q Hq) as [Hlo' Hhi'].
  assert (H1 : k < Qlog2 q + 1).
  { apply pow2_lt_inv. eapply Qle_lt_trans; [exact Hlo | exact Hhi']. }
  assert (H2 : Qlog2 q < k + 1).
  { apply pow2_lt_inv. eapply Qle_lt_trans; [exact Hlo' | exact Hhi]. }
  lia.
Qed.

Lemma Qlog2_comp (p q : Q) : (0 < p)%Q -> (p == q)%Q -> Qlog2 p = Qlog2 q.
Proof.
  intros Hp Heq. destruct (Qlog2_spec p Hp) as [Hlo Hhi].
  symmetry. apply Qlog2_unique; rewrite <- Heq; assumption.
Qed.

Lemma round_pos_comp (p q : Q) :
  (0 < p)%Q -> (p == q)%Q -> round_pos p = round_pos q.
Proof.
  intros Hp Heq. unfold round_pos.
  rewrite (Qlog2_comp p q Hp Heq).
  set (e := Z.max (Qlog2 q - (prec - 1)) emin).
  assert (Hm : Qround_half_even (p / pow2 e) = Qround_half_even (q / pow2 e)).
  { apply Qround_half_even_comp. rewrite Heq. reflexivity. }
  rewrite Hm. reflexivity.
Qed.

Lemma Qabs_pos_eq (q : Q) : (0 < q)%Q -> Qabs q = q.
Proof. destruct q as [[| n | n] d]; try reflexivity; discriminate. Qed.

Lemma Qabs_neg_eq (q : Q) : (q < 0)%Q -> Qabs q = (- q)%Q.
Proof. destruct q as [[| n | n] d]; try reflexivity; discriminate. Qed.

Lemma round_comp (p q : Q) : (p == q)%Q -> round p = round q.
Proof.
  intros Heq. unfold round.
  assert (Hc : Qcompare p 0 = Qcompare q 0) by (rewrite Heq; reflexivity).
  rewrite <- Hc.
  destruct (Qcompare p 0) eqn:Hp; [reflexivity | |].
  - apply Qlt_alt in Hp.
    assert (Hq : (q < 0)%Q) by (rewrite <- Heq; exact Hp).
    rewrite (Qabs_neg_eq p Hp), (Qabs_neg_eq q Hq).
    rewrite (round_pos_comp (- p) (- q)); [reflexivity | | rewrite Heq; reflexivity].
    apply (Qopp_lt_compat p 0). exact Hp.
  - apply Qgt_alt in Hp.
    assert (Hq : (0 < q)%Q) by (rewrite <- Heq; exact Hp).
    rewrite (Qabs_pos_eq p Hp), (Qabs_pos_eq q Hq).
    rewrite (round_pos_comp p q Hp Heq). reflexivity.
Qed.

(** A value [j * 2^e] with less than [prec] digits and an exponent that is
    not too small is rounded to itself. *)
Lemma round_pos_exact (j e : Z) :
  0 < j < 2 ^ prec -> emin <= e ->
  (pair_value (round_pos (inject_Z j * pow2 e))
   == inject_Z j * pow2 e)%Q.
Proof.
  intros [Hj0 Hj1] He.
  set (q := (inject_Z j * pow2 e)%Q).
  assert (Hq : (0 < q)%Q).
  { apply Qmult_lt_0_compat; [| apply pow2_pos].
    change 0%Q with (inject_Z 0). rewrite <- Zlt_Qlt. exact Hj0. }
  rewrite round_pos_value.
  destruct (Qlog2_spec q Hq) as [Hlo _].
  assert (Hk : Qlog2 q < prec + e).
  { apply pow2_lt_inv. eapply Qle_lt_trans; [exact Hlo |].
    unfold q. rewrite pow2_add.
    apply Qmult_lt_compat_r; [apply pow2_pos |].
    rewrite pow2_Z by (unfold prec; lia). rewrite <- Zlt_Qlt. exact Hj1. }
  assert (HE : round_exp q <= e) by (unfold round_exp, prec in *; lia).
  assert (Hint : (q / pow2 (round_exp q)
                  == inject_Z (j * 2 ^ (e - round_exp q)))%Q).
  { assert (Hsplit : (pow2 e
                      == pow2 (e - round_exp q) * pow2 (round_exp q))%Q).
    { rewrite <- pow2_add. replace (e - round_exp q + round_exp q) with e
        by lia. reflexivity. }
    rewrite inject_Z_mult, <- (pow2_Z (e - round_exp q)) by lia.
    unfold q at 1. rewrite Hsplit. field.
    intros H. pose proof (pow2_pos (round_exp q)) as Hp.
    rewrite H in Hp. discriminate. }
  unfold round_mant. rewrite (Qround_half_even_comp _ _ Hint).
  rewrite Qround_half_even_Z. rewrite <- Hint.
  apply Qdiv_pow2_cancel.
Qed.

Lemma F2Q_neg (x : float) : (F2Q (neg x) == - F2Q x)%Q.
Proof.
  destruct x as [s | s | | [|] m e]; try reflexivity; unfold neg, F2Q, negb.
  - change (inject_Z (Z.pos m)) with (- inject_Z (Z.neg m))%Q. ring.
  - change (inject_Z (Z.neg m)) with (- inject_Z (Z.pos m))%Q. ring.
Qed.

Lemma round_opp (q : Q) : ~ (q == 0)%Q -> round (- q) = neg (round q).
Proof.
  intros Hnz. unfold round.
  destruct (Qcompare q 0) eqn:Hc.
  - exfalso. apply Hnz. apply Qeq_alt. exact Hc.
  - apply Qlt_alt in Hc.
    assert (Hc' : Qcompare (- q) 0 = Gt).
    { apply Qgt_alt. apply (Qopp_lt_compat q 0). exact Hc. }
    rewrite Hc'. rewrite (Qabs_neg_eq q Hc).
    rewrite Qabs_pos_eq by (apply (Qopp_lt_compat q 0); exact Hc).
    destruct (round_pos (- q)) as [[| m | m] e]; try reflexivity.
    destruct (emax - prec <? e); reflexivity.
  - apply Qgt_alt in Hc.
    assert (Hc' : Qcompare (- q) 0 = Lt).
    { apply Qlt_alt. apply (Qopp_lt_compat 0 q). exact Hc. }
    rewrite Hc'. rewrite (Qabs_pos_eq q Hc).
    assert (Habs : Qabs (- q) = q).
    { destruct q as [[| n | n] d]; try reflexivity; discriminate. }
    rewrite Habs.
    destruct (round_pos q) as [[| m | m] e]; try reflexivity.
    destruct (emax - prec <? e); reflexivity.
Qed.

(** A positive value [j * 2^e] of the format is rounded to a finite float
    of that value. *)
Lemma round_exact_pos (j e : Z) :
  0 < j < 2 ^ prec -> emin <= e ->
  (inject_Z j * pow2 e < pow2 emax)%Q ->
  is_finite (round (inject_Z j * pow2 e)) = true
  /\ (F2Q (round (inject_Z j * pow2 e)) == inject_Z j * pow2 e)%Q.
Proof.
  intros Hj He Hmax.
  set (q := (inject_Z j * pow2 e)%Q) in *.
  assert (Hq : (0 < q)%Q).
  { apply Qmult_lt_0_compat; [| apply pow2_pos].
    change 0%Q with (inject_Z 0). rewrite <- Zlt_Qlt. lia. }
  pose proof (round_pos_exact j e Hj He) as Hex. fold q in Hex.
  destruct (round_pos_cases q Hq)
    as [[E V] | [[E V] | (m & e' & E & F & V)]].
  - exfalso. rewrite Hex in V. rewrite V in Hq. discriminate.
  - exfalso. rewrite Hex in V. apply (Qlt_irrefl q).
    eapply Qlt_le_trans; [exact Hmax | exact V].
  - split; [rewrite E; reflexivity |]. rewrite F. exact Hex.
Qed.

Lemma round_exact (z e : Z) :
  Z.abs z < 2 ^ prec -> emin <= e <= emax - prec ->
  is_finite (round (inject_Z z * pow2 e)) = true
  /\ (F2Q (round (inject_Z z * pow2 e)) == inject_Z z * pow2 e)%Q.
Proof.
  intros Hz He.
  assert (Hmax : forall j, 0 < j < 2 ^ prec ->
                   (inject_Z j * pow2 e < pow2 emax)%Q).
  { intros j Hj.
    apply Qlt_le_trans with (inject_Z (2 ^ prec) * pow2 e)%Q.
    - apply Qmult_lt_compat_r; [apply pow2_pos |].
      rewrite <- Zlt_Qlt. lia.
    - rewrite <- pow2_Z by (unfold prec; lia). rewrite <- pow2_add.
      apply pow2_le. lia. }
  destruct (Z.lt_trichotomy z 0) as [Hneg | [-> | Hpos]].
  - assert (Hj : 0 < - z < 2 ^ prec) by lia.
    destruct (round_exact_pos (- z) e Hj ltac:(lia) (Hmax _ Hj)) as [F V].
    assert (Heq : (inject_Z z * pow2 e == - (inject_Z (- z) * pow2 e))%Q).
    { rewrite inject_Z_opp. ring. }
    rewrite (round_comp _ _ Heq).
    rewrite round_opp.
    + split.
      * destruct (round (inject_Z (- z) * pow2 e)); try discriminate;
          reflexivity.
      * rewrite F2Q_neg, V, Heq. reflexivity.
    + intros H0.
      assert (Hp : (0 < inject_Z (- z) * pow2 e)%Q).
      { apply Qmult_lt_0_compat; [| apply pow2_pos].
        change 0%Q with (inject_Z 0). rewrite <- Zlt_Qlt. lia. }
      rewrite H0 in Hp. discriminate.
  - rewrite round_zero by apply Qmult_0_l.
    split; [reflexivity |]. rewrite Qmult_0_l. reflexivity.
  - assert (Hj : 0 < z < 2 ^ prec) by lia.
    apply (round_exact_pos z e Hj ltac:(lia) (Hmax _ Hj)).
Qed.

Lemma round_exact_int (n : Z) :
  Z.abs n < 2 ^ prec ->
  is_finite (round (inject_Z n)) = true
  /\ (F2Q (round (inject_Z n)) == inject_Z n)%Q.
Proof.
  intros Hn.
  assert (Heq : (inject_Z n == inject_Z n * pow2 0)%Q)
    by (unfold pow2; simpl; ring).
  rewrite (round_comp _ _ Heq).
  destruct (round_exact n 0 Hn) as [F V].
  - unfold emin, emax, prec. lia.
  - split; [exact F |]. rewrite V, <- Heq. reflexivity.
Qed.

Lemma F2Q_finite_signed (s : bool) (m : positive) (e : Z) :
  (F2Q (S754_finite s m e)
   == inject_Z (if s then Zneg m else Zpos m) * pow2 e)%Q.
Proof. destruct s; reflexivity. Qed.

(** A float of the format is what its own value rounds to. *)
Lemma round_canonical_value (x : float) :
  canonical x ->
  is_finite (round (F2Q x)) = true /\ (F2Q (round (F2Q x)) == F2Q x)%Q.
Proof.
  destruct x as [s | s | | s m e]; intros H; cbn [canonical] in H;
    try contradiction.
  - split; reflexivity.
  - destruct H as [Hm He].
    rewrite (round_comp _ _ (F2Q_finite_signed s m e)).
    destruct (round_exact (if s then Zneg m else Zpos m) e) as [F V].
    + destruct s; cbn [Z.abs]; exact Hm.
    + exact He.
    + split; [exact F |]. rewrite V. symmetry. apply F2Q_finite_signed.
Qed.

Lemma round_canonical (q : Q) :
  is_finite (round q) = true -> canonical (round q).
Proof.
  unfold round. destruct (Qcompare q 0) eqn:Hc; [intros _; exact I | |].
  - apply Qlt_alt in Hc.
    assert (Hq : (0 < Qabs q)%Q).
    { rewrite Qabs_neg_eq by exact Hc. apply (Qopp_lt_compat q 0). exact Hc. }
    destruct (round_pos_canonical _ Hq) as ([_ Hm] & He & _).
    destruct (round_pos (Qabs q)) as [[| m | m] e]; try (intros _; exact I).
    cbn [fst snd] in *.
    destruct (Z.ltb_spec (emax - prec) e); [discriminate |].
    intros _. cbn [canonical]. lia.
  - apply Qgt_alt in Hc.
    assert (Hq : (0 < Qabs q)%Q) by (rewrite Qabs_pos_eq by exact Hc; exact Hc).
    destruct (round_pos_canonical _ Hq) as ([_ Hm] & He & _).
    destruct (round_pos (Qabs q)) as [[| m | m] e]; try (intros _; exact I).
    cbn [fst snd] in *.
    destruct (Z.ltb_spec (emax - prec) e); [discriminate |].
    intros _. cbn [canonical]. lia.
Qed.

Lemma int_truediv_canonical (a b : Z) (x : float) :
  int_truediv a b = Ok x -> canonical x.
Proof.
  intros H. destruct (int_truediv_ok a b x H) as (_ & F & _ & Hr).
  destruct (Z.eq_dec a 0) as [-> | Ha].
  - unfold int_truediv in H. destruct (b =? 0); [discriminate |].
    injection H as <-. exact I.
  - rewrite (Hr Ha) in *. apply round_canonical. exact F.
Qed.

(** ** The distance of a float to its ceiling *)

Lemma F2Q_integer (s : bool) (m : positive) (e : Z) :
  0 <= e ->
  (F2Q (S754_finite s m e)
   == inject_Z ((if s then Zneg m else Zpos m) * 2 ^ e))%Q.
Proof.
  intros He. rewrite F2Q_finite_signed, inject_Z_mult, pow2_Z by exact He.
  reflexivity.
Qed.

(** Below exponent zero a float of the format is less than [2^(prec-1)]
    in magnitude. *)
Lemma F2Q_fraction_bound (s : bool) (m : positive) (e : Z) :
  Zpos m < 2 ^ prec -> e < 0 ->
  (inject_Z (- 2 ^ (prec - 1)) < F2Q (S754_finite s m e))%Q
  /\ (F2Q (S754_finite s m e) < inject_Z (2 ^ (prec - 1)))%Q.
Proof.
  intros Hm He.
  assert (Hb : (inject_Z (Zpos m) * pow2 e < inject_Z (2 ^ (prec - 1)))%Q).
  { apply Qlt_le_trans with (inject_Z (2 ^ prec) * pow2 e)%Q.
    - apply Qmult_lt_compat_r; [apply pow2_pos |].
      rewrite <- Zlt_Qlt. exact Hm.
    - rewrite <- !pow2_Z by (unfold prec; lia). rewrite <- pow2_add.
      apply pow2_le. lia. }
  assert (Hp : (0 < inject_Z (Zpos m) * pow2 e)%Q).
  { apply Qmult_lt_0_compat; [reflexivity | apply pow2_pos]. }
  rewrite F2Q_finite_signed. rewrite inject_Z_opp.
  destruct s.
  - change (inject_Z (Zneg m)) with (- inject_Z (Zpos m))%Q.
    split; lra.
  - split; lra.
Qed.

Lemma ceiling_bounds (q : Q) :
  (0 <= inject_Z (Qceiling q) - q)%Q /\ (inject_Z (Qceiling q) - q < 1)%Q.
Proof.
  pose proof (Qle_ceiling q) as H1. pose proof (Qceiling_lt q) as H2.
  unfold Z.sub in H2. rewrite inject_Z_plus, inject_Z_opp in H2.
  change (inject_Z 1) with 1%Q in H2.
  split; lra.
Qed.

(** The ceiling of a float of the format is a value of the format. *)
Lemma ceiling_representable (x : float) :
  canonical x ->
  is_finite (round (inject_Z (Qceiling (F2Q x)))) = true
  /\ (F2Q (round (inject_Z (Qceiling (F2Q x))))
      == inject_Z (Qceiling (F2Q x)))%Q.
Proof.
  destruct x as [s | s | | s m e]; intros H; cbn [canonical] in H;
    try contradiction.
  - split; reflexivity.
  - destruct H as [Hm He].
    destruct (Z_lt_le_dec e 0) as [Hneg | Hnn].
    + apply round_exact_int.
      destruct (F2Q_fraction_bound s m e Hm Hneg) as [Hlo Hhi].
      pose proof (Qle_ceiling (F2Q (S754_finite s m e))) as H1.
      pose proof (Qceiling_lt (F2Q (S754_finite s m e))) as H2.
      assert (Hc1 : - 2 ^ (prec - 1) < Qceiling (F2Q (S754_finite s m e))).
      { rewrite Zlt_Qlt. eapply Qlt_le_trans; [exact Hlo | exact H1]. }
      assert (Hc2 : Qceiling (F2Q (S754_finite s m e)) - 1 < 2 ^ (prec - 1)).
      { rewrite Zlt_Qlt. eapply Qlt_trans; [exact H2 | exact Hhi]. }
      unfold prec in *. simpl in Hc1, Hc2 |- *. lia.
    + pose proof (F2Q_integer s m e Hnn) as Hv.
      rewrite (Qceiling_comp _ _ Hv), Qceiling_Z.
      assert (Heq : (inject_Z ((if s then Zneg m else Zpos m) * 2 ^ e)
                     == inject_Z (if s then Zneg m else Zpos m) * pow2 e)%Q).
      { rewrite inject_Z_mult, pow2_Z by exact Hnn. reflexivity. }
      rewrite (round_comp _ _ Heq).
      destruct (round_exact (if s then Zneg m else Zpos m) e) as [F V].
      * destruct s; cbn [Z.abs]; exact Hm.
      * exact He.
      * split; [exact F |]. rewrite V, Heq. reflexivity.
Qed.

Lemma pow2_opp_cancel (e : Z) : (pow2 (- e) * pow2 e == 1)%Q.
Proof.
  rewrite <- pow2_add. replace (- e + e) with 0 by lia. reflexivity.
Qed.

Lemma round_below_one (f : Q) :
  (0 <= f)%Q -> (f < 1)%Q -> is_finite (round f) = true.
Proof.
  intros H0 H1.
  apply (finite_between (round f) (round (inject_Z 1))).
  - apply round_nonneg, H0.
  - apply round_monotone; [exact H0 |]. apply Qlt_le_weak. exact H1.
  - rewrite round_one. reflexivity.
Qed.

(** The distance of a float [x] of the format to its ceiling [c] is a
    value of the format when it is at most one half, and when [c] is 0. *)
Lemma gap_representable (x : float) :
  canonical x ->
  let c := Qceiling (F2Q x) in
  let f := (inject_Z c - F2Q x)%Q in
  (f <= 1 # 2)%Q \/ c = 0 ->
  (F2Q (round f) == f)%Q.
Proof.
  intros Hx c f Hcase.
  destruct (ceiling_bounds (F2Q x)) as [Hf0 Hf1]. fold c in Hf0, Hf1.
  fold f in Hf0, Hf1.
  destruct x as [s | s | | s m e]; cbn [canonical] in Hx; try contradiction.
  - assert (Hz : (f == 0)%Q) by reflexivity.
    rewrite (round_comp _ _ Hz). rewrite Hz. reflexivity.
  - destruct Hx as [Hm He].
    set (n := if s then Zneg m else Zpos m).
    assert (Hn : Z.abs n = Zpos m) by (unfold n; destruct s; reflexivity).
    destruct (Z_lt_le_dec e 0) as [Hneg | Hnn].
    + (* a fraction: f = z * 2^e for an integer z *)
      set (z := c * 2 ^ (- e) - n).
      assert (Hfz : (f == inject_Z z * pow2 e)%Q).
      { unfold f, z. rewrite F2Q_finite_signed. fold n.
        unfold Z.sub at 1. rewrite inject_Z_plus, inject_Z_opp, inject_Z_mult.
        rewrite <- (pow2_Z (- e)) by lia.
        pose proof (pow2_opp_cancel e) as Hc.
        set (a := pow2 (- e)) in *. set (b := pow2 e) in *.
        transitivity (inject_Z c * (a * b) - inject_Z n * b)%Q;
          [rewrite Hc; ring | ring]. }
      assert (Hz0 : 0 <= z).
      { destruct (Z_lt_le_dec z 0) as [Hlt | Hge]; [exfalso | exact Hge].
        assert (Hlt' : (inject_Z z < 0)%Q)
          by (change 0%Q with (inject_Z 0); rewrite <- Zlt_Qlt; exact Hlt).
        pose proof (pow2_pos e) as Hp.
        assert (Hprod : (inject_Z z * pow2 e < 0)%Q).
        { setoid_replace 0%Q with (0 * pow2 e)%Q by ring.
          apply Qmult_lt_compat_r; assumption. }
        rewrite <- Hfz in Hprod. lra. }
      assert (Hz1 : z < 2 ^ prec).
      { assert (Hc0 : c = 0 -> z < 2 ^ prec).
        { intros Hc. unfold z in *. rewrite Hc in *.
          unfold n in *. destruct s; lia. }
        destruct Hcase as [Hhalf | Hc]; [| exact (Hc0 Hc)].
        destruct (Z_lt_le_dec e (- prec)) as [Htiny | Hbig].
        - (* |x| < 1/2, so that c is 0 or 1 *)
          assert (Hv : (- (1 # 2) < F2Q (S754_finite s m e))%Q
                       /\ (F2Q (S754_finite s m e) < 1 # 2)%Q).
          { assert (Hb : (inject_Z (Zpos m) * pow2 e < 1 # 2)%Q).
            { apply Qlt_le_trans with (inject_Z (2 ^ prec) * pow2 e)%Q.
              - apply Qmult_lt_compat_r; [apply pow2_pos |].
                rewrite <- Zlt_Qlt. exact Hm.
              - rewrite <- pow2_Z by (unfold prec; lia).
                rewrite <- pow2_add.
                apply Qle_trans with (pow2 (-1)); [| discriminate].
                apply pow2_le. lia. }
            assert (Hp : (0 < inject_Z (Zpos m) * pow2 e)%Q).
            { apply Qmult_lt_0_compat; [reflexivity | apply pow2_pos]. }
            rewrite F2Q_finite_signed. destruct s.
            - change (inject_Z (Zneg m)) with (- inject_Z (Zpos m))%Q.
              split; lra.
            - split; lra. }
          destruct Hv as [Hv0 Hv1].
          unfold f in Hhalf, Hf0, Hf1.
          assert (Hcz : (inject_Z c < inject_Z 1)%Q).
          { change (inject_Z 1) with 1%Q. lra. }
          assert (Hcz' : (inject_Z (-1) < inject_Z c)%Q).
          { change (inject_Z (-1)) with (- (1))%Q. lra. }
          rewrite <- Zlt_Qlt in Hcz, Hcz'. apply Hc0. lia.
        - (* 2^e >= 2^-53 *)
          rewrite Hfz in Hhalf.
          assert (Hle : (inject_Z z <= inject_Z (2 ^ (- e - 1)))%Q).
          { rewrite <- pow2_Z by lia.
            replace (- e - 1) with (- e + -1) by lia. rewrite pow2_add.
            pose proof (pow2_opp_cancel e) as Hc.
            pose proof (pow2_pos (- e)) as Hp.
            assert (Hmul : (inject_Z z * pow2 e * pow2 (- e)
                            <= (1 # 2) * pow2 (- e))%Q).
            { apply Qmult_le_compat_r; [exact Hhalf |].
              apply Qlt_le_weak. exact Hp. }
            setoid_replace (inject_Z z * pow2 e * pow2 (- e))%Q
              with (inject_Z z * (pow2 (- e) * pow2 e))%Q in Hmul by ring.
            rewrite Hc in Hmul. rewrite Qmult_1_r in Hmul.
            assert (Hh : (pow2 (-1) == 1 # 2)%Q) by reflexivity.
            rewrite Hh, (Qmult_comm (pow2 (- e))). exact Hmul. }
          rewrite <- Zle_Qle in Hle.
          assert (Hpow : 2 ^ (- e - 1) <= 2 ^ (prec - 1))
            by (apply Z.pow_le_mono_r; lia).
          assert (Hpp : 2 ^ (prec - 1) < 2 ^ prec)
            by (apply Z.pow_lt_mono_r; unfold prec; lia).
          lia. }
      rewrite (round_comp _ _ Hfz).
      destruct (round_exact z e) as [_ V]; [lia | exact He |].
      rewrite V, Hfz. reflexivity.
    + (* a whole number: f = 0 *)
      assert (Hz : (f == 0)%Q).
      { unfold f, c. pose proof (F2Q_integer s m e Hnn) as Hv.
        rewrite (Qceiling_comp _ _ Hv), Qceiling_Z, Hv. ring. }
      rewrite (round_comp _ _ Hz). rewrite Hz. reflexivity.
Qed.

(** ** The test for the extra lap *)

Lemma threshold_value :
  is_finite FUEL_SAFETY_EXTRA_LAP_THRESHOLD = true
  /\ (F2Q FUEL_SAFETY_EXTRA_LAP_THRESHOLD <= 15 # 100)%Q
  /\ leb (round (1 # 2)) FUEL_SAFETY_EXTRA_LAP_THRESHOLD = false.
Proof.
  split; [reflexivity |]. split; [| vm_compute; reflexivity].
  vm_compute. discriminate.
Qed.

Lemma leb_value (x y t : float) :
  is_finite x = true -> is_finite y = true -> is_finite t = true ->
  (F2Q x == F2Q y)%Q -> leb x t = leb y t.
Proof.
  intros Fx Fy Ft Heq.
  destruct (leb x t) eqn:Hx, (leb y t) eqn:Hy; try reflexivity.
  - apply leb_finite in Hx; try assumption.
    rewrite Heq in Hx. apply leb_finite in Hx; try assumption. congruence.
  - apply leb_finite in Hy; try assumption.
    rewrite <- Heq in Hy. apply leb_finite in Hy; try assumption. congruence.
Qed.

(** On a distance [f] below one that is exact when at most one half, the
    test on floats is the test on the numbers. *)
Lemma threshold_test (f : Q) :
  (0 <= f)%Q -> (f < 1)%Q ->
  ((f <= 1 # 2)%Q -> (F2Q (round f) == f)%Q) ->
  leb (round f) FUEL_SAFETY_EXTRA_LAP_THRESHOLD = Qle_bool f (15 # 100).
Proof.
  intros H0 H1 Hexact.
  destruct threshold_value as (Ft & Vt & Hhalf).
  pose proof (round_below_one f H0 H1) as Ff.
  destruct (Qle_bool f (15 # 100)) eqn:Hle.
  - apply Qle_bool_iff in Hle.
    apply (round_monotone f (15 # 100) H0 Hle).
  - assert (Hgt : (15 # 100 < f)%Q).
    { apply Qnot_le_lt. intros H. apply Qle_bool_iff in H. congruence. }
    destruct (leb (round f) FUEL_SAFETY_EXTRA_LAP_THRESHOLD) eqn:Hleb;
      [exfalso | reflexivity].
    destruct (Qlt_le_dec (1 # 2) f) as [Hbig | Hsmall].
    + assert (Hm : leb (round (1 # 2)) (round f) = true).
      { apply round_monotone; [discriminate | apply Qlt_le_weak, Hbig]. }
      pose proof (leb_trans _ _ _ Hm Hleb). congruence.
    + apply leb_finite in Hleb; try assumption.
      rewrite (Hexact Hsmall) in Hleb. lra.
Qed.

(** The code subtracts the lap count from its ceiling in floating point
    and compares with the float [0.15]; that is the comparison of the
    exact distance with the number 0.15. *)
Lemma extra_lap_test_exact (x c' : float) :
  canonical x ->
  of_int (Qceiling (F2Q x)) = Ok c' ->
  leb (Float.sub c' x) FUEL_SAFETY_EXTRA_LAP_THRESHOLD
  = Qle_bool (inject_Z (Qceiling (F2Q x)) - F2Q x) (15 # 100).
Proof.
  intros Hx Hc'.
  destruct (of_int_ok _ _ Hc') as [-> Fc].
  destruct (ceiling_representable x Hx) as [_ Vc].
  destruct (ceiling_bounds (F2Q x)) as [Hf0 Hf1].
  pose proof (gap_representable x Hx) as Hgap. cbv zeta in Hgap.
  set (c := Qceiling (F2Q x)) in *.
  set (f := (inject_Z c - F2Q x)%Q) in *.
  destruct threshold_value as (Ft & _ & _).
  rewrite <- (threshold_test f Hf0 Hf1 (fun H => Hgap (or_introl H))).
  pose proof (round_below_one f Hf0 Hf1) as Ff.
  destruct x as [s | s | | s m e]; cbn [canonical] in Hx; try contradiction.
  - reflexivity.
  - destruct (round (inject_Z c)) as [s' | s' | | s' m' e'] eqn:Ec;
      [| discriminate Fc | discriminate Fc |].
    + (* the ceiling is zero, and the difference is the float negated *)
      assert (Hc0 : c = 0).
      { apply inject_Z_injective. rewrite <- Vc. reflexivity. }
      cbn [Float.sub neg Float.add].
      apply leb_value; try assumption.
      rewrite (Hgap (or_intror Hc0)). unfold f. rewrite Hc0.
      change (S754_finite (negb s) m e) with (neg (S754_finite s m e)).
      rewrite F2Q_neg. ring.
    + (* both are finite, and the difference is rounded *)
      cbn [Float.sub neg Float.add].
      assert (Heq : (F2Q (S754_finite s' m' e')
                     + F2Q (S754_finite (negb s) m e) == f)%Q).
      { rewrite Vc. unfold f.
        change (S754_finite (negb s) m e) with (neg (S754_finite s m e)).
        rewrite F2Q_neg. ring. }
      rewrite (round_comp _ _ Heq). reflexivity.
Qed.

Lemma calculate_fuel_value (litres_per_lap : float) (laps fuel : Z) :
  calculate_fuel litres_per_lap laps = Ok fuel ->
  fuel = Qceiling (F2Q (Float.add
                          (Float.mul litres_per_lap (round (inject_Z laps)))
                          (round (inject_Z FUEL_SAFETY_BUFFER_LITRES)))).
Proof.
  unfold calculate_fuel. rewrite of_int_buffer. intros H.
  bind_inv H. destruct (of_int_ok _ _ E) as [-> _].
  cbn [bind] in H. apply ceil_ok in H. apply H.
Qed.

(** C2.  In every result [get_strategies] emits, the fuel is the ceiling
    of the fuel rate times the fuel laps plus the buffer of one litre,
    computed on floats, and the fuel laps are one more than the total laps
    exactly when the ceiling of the laps at zero exceeds the laps at zero
    by at most 0.15, the total laps otherwise.  The laps at zero being a
    whole number is a case of the former. *)
Theorem final_fuel_rule
  (race_time : timedelta) (strategies_to_times : Dict.dict (list timedelta))
  (litres_per_lap : float) (time_lost_driving_through_pits : timedelta)
  (out : Dict.dict StrategyResult) (k : string) (r : StrategyResult) :
  get_strategies race_time strategies_to_times litres_per_lap
    time_lost_driving_through_pits = Ok out ->
  In (k, r) out ->
  let gap := (inject_Z (Qceiling (F2Q (laps_at_zero r)))
              - F2Q (laps_at_zero r))%Q in
  exists fuel_laps,
    calculate_fuel litres_per_lap fuel_laps = Ok (total_fuel r)
    /\ total_fuel r
       = Qceiling (F2Q (Float.add
                          (Float.mul litres_per_lap
                             (round (inject_Z fuel_laps)))
                          (round (inject_Z 1))))
    /\ (fuel_laps = total_laps r + 1 <-> (gap <= 15 # 100)%Q)
    /\ (fuel_laps = total_laps r <-> ~ (gap <= 15 # 100)%Q)
    /\ ((gap == 0)%Q -> fuel_laps = total_laps r + 1).
Proof.
  intros H Hin gap.
  destruct (get_strategies_In _ _ _ _ _ _ _ H Hin) as (lap_times & _ & Hev).
  destruct (evaluate_strategy_inv _ _ _ _ _ _ Hev)
    as (raw & nl & nf & _ & _ & Hres).
  destruct (strategy_result_inv _ _ _ _ _ _ _ _ Hres)
    as (stop & lost & am & c' & _ & _ & _ & _ & Hdiv & Hceil & Hof & Hfuel & _).
  apply ceil_ok in Hceil. destruct Hceil as [_ Hlaps].
  pose proof (int_truediv_canonical _ _ _ Hdiv) as Hcan.
  rewrite Hlaps in Hof at 1.
  rewrite (extra_lap_test_exact _ _ Hcan Hof) in Hfuel. fold gap in Hfuel.
  exists (if Qle_bool gap (15 # 100) then total_laps r + 1 else total_laps r).
  split; [exact Hfuel |].
  split; [exact (calculate_fuel_value _ _ _ Hfuel) |].
  destruct (Qle_bool gap (15 # 100)) eqn:Hle.
  - apply Qle_bool_iff in Hle.
    split; [tauto |]. split; [| reflexivity].
    split; [lia | tauto].
  - assert (Hn : ~ (gap <= 15 # 100)%Q).
    { intros Hq. apply Qle_bool_iff in Hq. congruence. }
    split; [split; [lia | tauto] |].
    split; [tauto |].
    intros Hz. exfalso. apply Hn. rewrite Hz. discriminate.
Qed.

Lemma final_fuel_rule_witness :
  exists fuel_laps,
    calculate_fuel (literal 3 1) fuel_laps = Ok (total_fuel example_med_99)
    /\ (fuel_laps = total_laps example_med_99 <->
        ~ (inject_Z (Qceiling (F2Q (laps_at_zero example_med_99)))
           - F2Q (laps_at_zero example_med_99) <= 15 # 100)%Q).
Proof.
  destruct (final_fuel_rule 3600000000 example_times (literal 3 1) 10000000
              example_out "med_99" example_med_99)
    as (fuel_laps & H1 & _ & _ & H2 & _).
  - vm_compute. reflexivity.
  - simpl. auto.
  - exists fuel_laps. split; [exact H1 | exact H2].
Defined.

(** ** The normalised lap time *)

(** C3, as stated, fails.  With one soft-50 lap of 1:30.000250, a race of
    one hour, 3 l per lap and 10.000019 s lost in the pit lane, the
    normalised lap time is 91455251 microseconds, more than a microsecond
    below the 91455252.225 of the formula. *)
Lemma normalised_lap_time_not_exact :
  exists r,
    get_strategies 3600000000 [("soft_50", [90000250])] (literal 3 1)
      10000019 = Ok [("soft_50", r)]
    /\ normalised_lap_time r = 91455251
    /\ Qeq (spec_normalised_lap_time 3600000000 10000019 "soft_50"
              [90000250] (pit_stop_time r - 10000019))
           (91455252225 # 1000)%Q
    /\ ~ Qeq (inject_Z (normalised_lap_time r))
             (spec_normalised_lap_time 3600000000 10000019 "soft_50"
                [90000250] (pit_stop_time r - 10000019)).
Proof.
  eexists. split; [vm_compute; reflexivity |].
  split; [reflexivity |]. split; [vm_compute; reflexivity |].
  vm_compute. discriminate.
Qed.

Lemma deteriorated_lap_time_inv (strat : string) (lap_times : list timedelta)
  (adjusted : timedelta) :
  deteriorated_lap_time strat lap_times = Ok adjusted ->
  exists seconds mean raw deterioration half n d,
    mapM Timedelta.total_seconds lap_times = Ok seconds
    /\ Statistics.mean seconds = Ok mean
    /\ Timedelta.of_seconds mean = Ok raw
    /\ Dict.get TYRE_DETERIORATION strat = Ok deterioration
    /\ Float.div deterioration (round (inject_Z 2)) = Ok half
    /\ as_integer_ratio half = Ok (n, d)
    /\ adjusted
       = raw + divide_and_round (divide_and_round raw 100 * n) d.
Proof.
  unfold deteriorated_lap_time. intros H.
  bind_inv H. rename v into seconds, E into Esec.
  bind_inv H. rename v into mean, E into Emean.
  bind_inv H. rename v into raw, E into Eraw.
  bind_inv H. rename v into hundredth, E into Ehun.
  bind_inv H. rename v into det, E into Edet.
  bind_inv H. rename v into two, E into Etwo.
  bind_inv H. rename v into half, E into Ehalf.
  bind_inv H. rename v into add_time, E into Eadd.
  destruct (of_int_ok _ _ Etwo) as [-> _].
  unfold Timedelta.div_int in Ehun. cbn [Z.eqb] in Ehun.
  unfold Timedelta.make in Ehun.
  destruct (Timedelta.in_range (divide_and_round raw 100)); [| discriminate].
  injection Ehun as <-.
  unfold Timedelta.mul_float in Eadd. bind_inv Eadd. destruct v as [n d].
  unfold Timedelta.make in Eadd.
  destruct (Timedelta.in_range (divide_and_round (divide_and_round raw 100 * n) d));
    [| discriminate].
  injection Eadd as <-.
  unfold Timedelta.add, Timedelta.make in H.
  destruct (Timedelta.in_range _); [| discriminate]. injection H as <-.
  exists seconds, mean, raw, det, half, n, d. repeat split; assumption.
Qed.

Lemma make_ok (us : Z) (td : timedelta) :
  Timedelta.make us = Ok td -> td = us /\ Timedelta.in_range us = true.
Proof.
  unfold Timedelta.make. destruct (Timedelta.in_range us); [| discriminate].
  intros H. injection H as <-. split; reflexivity.
Qed.

Lemma add_ok (a b td : timedelta) :
  Timedelta.add a b = Ok td -> td = a + b.
Proof. intros H. apply make_ok in H. apply H. Qed.

Lemma div_int_ok (a td : timedelta) (n : Z) :
  Timedelta.div_int a n = Ok td -> n <> 0 /\ td = divide_and_round a n.
Proof.
  unfold Timedelta.div_int. destruct (Z.eqb_spec n 0); [discriminate |].
  intros H. apply make_ok in H. split; [assumption | apply H].
Qed.

Lemma calculate_lost_time_ok (stop pit lost : timedelta) :
  calculate_lost_time stop pit = Ok lost ->
  lost = TIME_LOST_AT_RACE_START + pit + stop.
Proof.
  unfold calculate_lost_time. intros H. bind_inv H.
  apply add_ok in E. apply add_ok in H. subst. reflexivity.
Qed.

(** C3, amended.  In every result [get_strategies] emits, the normalised
    lap time is the adjusted lap time plus the time lost, which is 3 s,
    the time lost in the pit lane and the pit-stop time, divided by the
    naive laps and rounded to a whole microsecond.  The adjusted lap time
    is the mean lap time plus a hundredth of it, rounded to a whole
    microsecond, times half the deterioration percentage, rounded again,
    and the naive laps are the ceiling of the race time divided by the
    adjusted lap time. *)
Theorem normalised_lap_time_rounded
  (race_time : timedelta) (strategies_to_times : Dict.dict (list timedelta))
  (litres_per_lap : float) (time_lost_driving_through_pits : timedelta)
  (out : Dict.dict StrategyResult) (k : string) (r : StrategyResult) :
  get_strategies race_time strategies_to_times litres_per_lap
    time_lost_driving_through_pits = Ok out ->
  In (k, r) out ->
  exists lap_times seconds mean raw deterioration half n d adjusted
         naive_laps naive_fuel stop,
    In (k, lap_times) strategies_to_times
    /\ mapM Timedelta.total_seconds lap_times = Ok seconds
    /\ Statistics.mean seconds = Ok mean
    /\ Timedelta.of_seconds mean = Ok raw
    /\ Dict.get TYRE_DETERIORATION k = Ok deterioration
    /\ Float.div deterioration (round (inject_Z 2)) = Ok half
    /\ as_integer_ratio half = Ok (n, d)
    /\ adjusted = raw + divide_and_round (divide_and_round raw 100 * n) d
    /\ calculate_laps race_time adjusted true = Ok naive_laps
    /\ calculate_fuel litres_per_lap naive_laps = Ok naive_fuel
    /\ get_pit_stop_time_for_strategy k naive_fuel = Ok stop
    /\ naive_laps <> 0
    /\ normalised_lap_time r
       = adjusted
         + divide_and_round
             (TIME_LOST_AT_RACE_START + time_lost_driving_through_pits + stop)
             naive_laps.
Proof.
  intros H Hin.
  destruct (get_strategies_In _ _ _ _ _ _ _ H Hin) as (lap_times & Hl & Hev).
  destruct (evaluate_strategy_inv _ _ _ _ _ _ Hev)
    as (adjusted & nl & nf & Hadj & Hnaive & Hres).
  destruct (deteriorated_lap_time_inv _ _ _ Hadj)
    as (seconds & mean & raw & det & half & n & d
        & H1 & H2 & H3 & H4 & H5 & H6 & H7).
  unfold naive_estimate in Hnaive. bind_inv Hnaive. bind_inv Hnaive.
  injection Hnaive as -> ->.
  destruct (strategy_result_inv _ _ _ _ _ _ _ _ Hres)
    as (stop & lost & am & c' & Hstop & Hlost & Ham & Hlap & _).
  apply calculate_lost_time_ok in Hlost. apply div_int_ok in Ham.
  destruct Ham as [Hnz ->]. apply add_ok in Hlap. subst lost.
  exists lap_times, seconds, mean, raw, det, half, n, d, adjusted,
    nl, nf, stop.
  repeat split; assumption.
Qed.

Lemma normalised_lap_time_rounded_witness :
  exists adjusted naive_laps stop,
    adjusted = 90000000
               + divide_and_round
                   (divide_and_round 90000000 100 * 3602879701896397)
                   18014398509481984
    /\ calculate_laps 3600000000 adjusted true = Ok naive_laps
    /\ get_pit_stop_time_for_strategy "med_50" 121 = Ok stop
    /\ normalised_lap_time example_med_50
       = adjusted + divide_and_round (3000000 + 10000000 + stop) naive_laps.
Proof.
  destruct (normalised_lap_time_rounded 3600000000 example_times
              (literal 3 1) 10000000 example_out "med_50" example_med_50)
    as (lap_times & seconds & mean & raw & det & half & n & d & adjusted
        & nl & nf & stop & Hl & H1 & H2 & H3 & H4 & H5 & H6 & H7 & H8 & H9
        & H10 & H11 & H12).
  - vm_compute. reflexivity.
  - simpl. auto.
  - assert (lap_times = [90000000]).
    { destruct Hl as [Hl | [Hl | [Hl | []]]];
        [discriminate Hl | | discriminate Hl].
      injection Hl as <-. reflexivity. }
    subst lap_times.
    vm_compute in H1. injection H1 as <-.
    vm_compute in H2. injection H2 as <-.
    vm_compute in H3. injection H3 as <-.
    vm_compute in H4. injection H4 as <-.
    vm_compute in H5. injection H5 as <-.
    vm_compute in H6. injection H6 as <- <-.
    assert (Hnf : nf = 121).
    { rewrite H7 in H8. vm_compute in H8. injection H8 as <-.
      vm_compute in H9. injection H9 as <-. reflexivity. }
    subst nf.
    exists adjusted, nl, stop.
    split; [exact H7 |]. split; [exact H8 |]. split; [exact H10 |].
    exact H12.
Defined.

(** ** Positive lap times *)

(** The float of one microsecond in seconds. *)
Lemma microsecond_value :
  is_finite (round (1 # 1000000)) = true
  /\ canonical (round (1 # 1000000))
  /\ (0 < F2Q (round (1 # 1000000)))%Q
  /\ leb (round (inject_Z 1))
       (round (inject_Z 1000000 * F2Q (round (1 # 1000000)))) = true.
Proof.
  split; [reflexivity |]. split; [apply round_canonical; reflexivity |].
  split; vm_compute; reflexivity.
Qed.

Lemma total_seconds_pos (t : timedelta) (x : float) :
  0 < t -> Timedelta.total_seconds t = Ok x ->
  is_finite x = true /\ (F2Q (round (1 # 1000000)) <= F2Q x)%Q.
Proof.
  intros Ht H. unfold Timedelta.total_seconds in H.
  destruct (int_truediv_ok _ _ _ H) as (_ & F & _ & Hr).
  split; [exact F |].
  rewrite (Hr ltac:(lia)) in *.
  apply leb_finite; [reflexivity | exact F |].
  apply round_monotone; [discriminate |].
  rewrite (Qmake_Qdiv 1 1000000).
  unfold Timedelta.us_per_second.
  apply Qmult_le_compat_r; [| discriminate].
  rewrite <- Zle_Qle. lia.
Qed.

Lemma mapM_Forall2 {A B : Type} (f : A -> result B) (l : list A)
  (l' : list B) :
  mapM f l = Ok l' -> Forall2 (fun a b => f a = Ok b) l l'.
Proof.
  revert l'. induction l as [| a l IH]; simpl; intros l' H.
  - injection H as <-. constructor.
  - bind_inv H. bind_inv H. injection H as <-.
    constructor; [exact E | apply IH, E0].
Qed.

Lemma Qsum_lower_bound (c : Q) (data : list float) :
  Forall (fun x => (c <= F2Q x)%Q) data ->
  (inject_Z (Z.of_nat (List.length data)) * c
   <= Statistics.Qsum (map F2Q data))%Q.
Proof.
  induction 1 as [| x data Hx _ IH].
  - simpl. rewrite Qmult_0_l. apply Qle_refl.
  - cbn [List.length map Statistics.Qsum].
    rewrite Nat2Z.inj_succ. unfold Z.succ. rewrite inject_Z_plus.
    change (inject_Z 1) with 1%Q. lra.
Qed.

Lemma filter_all_false {A : Type} (p : A -> bool) (l : list A) :
  Forall (fun x => p x = false) l -> filter p l = [].
Proof.
  induction 1 as [| x l Hx _ IH]; simpl; [reflexivity |].
  rewrite Hx. exact IH.
Qed.

(** The mean of finite floats that are at least [c > 0] is a finite float
    that is at least what [c] rounds to. *)
Lemma mean_lower_bound (c : Q) (data : list float) (m : float) :
  (0 < c)%Q ->
  Forall (fun x => is_finite x = true /\ (c <= F2Q x)%Q) data ->
  Statistics.mean data = Ok m ->
  is_finite m = true /\ leb (round c) m = true.
Proof.
  intros Hc Hall H. unfold Statistics.mean in H.
  destruct data as [| x0 data0] eqn:Edata; [discriminate |].
  rewrite <- Edata in *.
  assert (Hlen : 1 <= Z.of_nat (List.length data))
    by (rewrite Edata; cbn [List.length]; lia).
  clear Edata x0 data0.
  rewrite filter_all_false in H.
  2:{ eapply Forall_impl; [| exact Hall]. intros x [Fx _].
      rewrite Fx. reflexivity. }
  set (n := Z.of_nat (List.length data)) in *.
  set (total := Qred (Statistics.Qsum (map F2Q data))) in *.
  set (avg := Qred (total / inject_Z n)) in *.
  assert (Hsum : (inject_Z n * c <= Statistics.Qsum (map F2Q data))%Q).
  { apply Qsum_lower_bound. eapply Forall_impl; [| exact Hall].
    intros x [_ Hx]. exact Hx. }
  assert (Hn : (0 < inject_Z n)%Q).
  { change 0%Q with (inject_Z 0). rewrite <- Zlt_Qlt. lia. }
  assert (Havg : (c <= avg)%Q).
  { unfold avg, total. rewrite !Qred_correct.
    apply Qle_shift_div_l; [exact Hn |].
    rewrite Qmult_comm. exact Hsum. }
  assert (Hval : (inject_Z (Qnum avg) / inject_Z (Zpos (Qden avg)) == avg)%Q).
  { rewrite <- Qmake_Qdiv. destruct avg; reflexivity. }
  assert (Hnum : Qnum avg <> 0).
  { intros H0. assert (Hz : (avg == 0)%Q).
    { rewrite <- Hval, H0. reflexivity. }
    rewrite Hz in Havg. lra. }
  destruct (int_truediv_ok _ _ _ H) as (_ & F & _ & Hr).
  specialize (Hr Hnum). split; [exact F |].
  rewrite Hr, (round_comp _ _ Hval).
  apply round_monotone; [apply Qlt_le_weak, Hc | exact Havg].
Qed.

Lemma modf_nonneg (x : float) :
  (0 <= F2Q x)%Q ->
  0 <= fst (modf x)
  /\ (0 <= snd (modf x))%Q /\ (snd (modf x) < 1)%Q
  /\ (F2Q x == inject_Z (fst (modf x)) + snd (modf x))%Q.
Proof.
  intros Hx. unfold modf, Qtrunc. cbn [fst snd].
  rewrite (proj2 (Qle_bool_iff 0 (F2Q x)) Hx).
  pose proof (Qfloor_le (F2Q x)) as H1.
  pose proof (Qlt_floor (F2Q x)) as H2.
  rewrite inject_Z_plus in H2. change (inject_Z 1) with 1%Q in H2.
  split.
  - rewrite <- (Qfloor_Z 0). apply Qfloor_resp_le. exact Hx.
  - repeat split; first [lra | ring].
Qed.

Lemma c_round_nonneg (q : Q) : (0 <= q)%Q -> 0 <= Timedelta.c_round q.
Proof.
  intros Hq. unfold Timedelta.c_round.
  rewrite (proj2 (Qle_bool_iff 0 q) Hq).
  rewrite <- (Qfloor_Z 0). apply Qfloor_resp_le.
  change (inject_Z 0) with 0%Q. lra.
Qed.

(** What is added for the part of a microsecond is not negative. *)
Lemma leftover_round_nonneg (y : Z) (leftover : Q) :
  (0 <= leftover)%Q -> (leftover < 1)%Q ->
  0 <= (if Qeq_bool (Qabs (inject_Z (Timedelta.c_round leftover) - leftover))
             (1 # 2)
        then 2 * Timedelta.c_round
                   ((leftover + inject_Z (Z.land y 1)) * (1 # 2))
             - Z.land y 1
        else Timedelta.c_round leftover).
Proof.
  intros H0 H1.
  destruct (Qeq_bool _ _); [| apply c_round_nonneg, H0].
  assert (Hodd : Z.land y 1 = 0 \/ Z.land y 1 = 1).
  { assert (Hl : Z.land y 1 = y mod 2).
    { change 1 with (Z.ones 1). rewrite Z.land_ones by lia. reflexivity. }
    rewrite Hl. pose proof (Z.mod_pos_bound y 2). lia. }
  destruct Hodd as [-> | ->].
  - assert (0 <= Timedelta.c_round ((leftover + inject_Z 0) * (1 # 2))).
    { apply c_round_nonneg. change (inject_Z 0) with 0%Q. lra. }
    lia.
  - change (inject_Z 1) with 1%Q.
    assert (1 <= Timedelta.c_round ((leftover + 1) * (1 # 2))).
    { unfold Timedelta.c_round.
      assert (Hnn : (0 <= (leftover + 1) * (1 # 2))%Q) by lra.
      rewrite (proj2 (Qle_bool_iff 0 _) Hnn).
      assert (Hfl : Qfloor (inject_Z 1)
                    <= Qfloor ((leftover + 1) * (1 # 2) + (1 # 2))).
      { apply Qfloor_resp_le. change (inject_Z 1) with 1%Q. lra. }
      rewrite Qfloor_Z in Hfl. exact Hfl. }
    lia.
Qed.

(** A float of at least a microsecond, in seconds, makes a positive
    duration. *)
Lemma of_seconds_pos (m : float) (raw : timedelta) :
  is_finite m = true ->
  (F2Q (round (1 # 1000000)) <= F2Q m)%Q ->
  Timedelta.of_seconds m = Ok raw -> 0 < raw.
Proof.
  intros Fm Hm H.
  destruct microsecond_value as (_ & _ & Hc0 & Hone).
  assert (Hv : (0 <= F2Q m)%Q) by lra.
  destruct (modf_nonneg m Hv) as (Hi & Hf0 & Hf1 & Hsplit).
  assert (Hbody :
    (let '(intpart, fracpart) := modf m in
     let sum := intpart * Timedelta.us_per_second in
     if Qeq_bool fracpart 0 then Timedelta.make sum
     else
       let dnum := round (inject_Z Timedelta.us_per_second * fracpart) in
       let '(intpart', leftover_us) := modf dnum in
       let y := sum + intpart' in
       if Qeq_bool leftover_us 0 then Timedelta.make y
       else
         let whole_us := Timedelta.c_round leftover_us in
         let whole_us :=
           if Qeq_bool (Qabs (inject_Z whole_us - leftover_us)) (1 # 2)
           then
             let x_is_odd := Z.land y 1 in
             2 * Timedelta.c_round
                   ((leftover_us + inject_Z x_is_odd) * (1 # 2))
             - x_is_odd
           else whole_us in
         Timedelta.make (y + whole_us)) = Ok raw).
  { destruct m as [s | s | | s m e];
      [exact H | discriminate Fm | discriminate Fm | exact H]. }
  clear H. destruct (modf m) as [intpart fracpart]. cbn [fst snd] in *.
  cbv zeta in Hbody. unfold Timedelta.us_per_second in Hbody.
  destruct (Qeq_bool fracpart 0) eqn:Hfz.
  - apply Qeq_bool_eq in Hfz. apply make_ok in Hbody.
    destruct Hbody as [-> _].
    assert (Hpos : (0 < inject_Z intpart)%Q) by (rewrite Hfz in Hsplit; lra).
    change 0%Q with (inject_Z 0) in Hpos. rewrite <- Zlt_Qlt in Hpos. lia.
  - set (dnum := round (inject_Z 1000000 * fracpart)) in *.
    assert (Hd0 : leb (S754_zero false) dnum = true).
    { apply round_nonneg. apply Qmult_le_0_compat; [discriminate | exact Hf0]. }
    assert (Fd : is_finite dnum = true).
    { apply (finite_between dnum (round (inject_Z 1000000))); [exact Hd0 | |
        reflexivity].
      apply round_monotone.
      - apply Qmult_le_0_compat; [discriminate | exact Hf0].
      - setoid_replace (inject_Z 1000000) with (inject_Z 1000000 * 1)%Q
          at 2 by ring.
        apply Qmult_le_l; [reflexivity | apply Qlt_le_weak, Hf1]. }
    assert (Vd : (0 <= F2Q dnum)%Q) by (apply leb_zero_nonneg; assumption).
    destruct (modf_nonneg dnum Vd) as (Hi' & Hl0 & Hl1 & Hsplit').
    assert (Hy : intpart = 0 -> 1 <= fst (modf dnum)).
    { intros ->. change (inject_Z 0) with 0%Q in Hsplit.
      assert (Hfr : (F2Q (round (1 # 1000000)) <= fracpart)%Q) by lra.
      assert (Hge : leb (round (inject_Z 1)) dnum = true).
      { eapply leb_trans; [exact Hone |].
        apply round_monotone.
        - apply Qmult_le_0_compat; [discriminate | apply Qlt_le_weak, Hc0].
        - apply Qmult_le_l; [reflexivity | exact Hfr]. }
      apply leb_finite in Hge; [| reflexivity | exact Fd].
      rewrite F2Q_one in Hge.
      unfold modf, Qtrunc. cbn [fst].
      rewrite (proj2 (Qle_bool_iff 0 (F2Q dnum)) Vd).
      rewrite <- (Qfloor_Z 1). apply Qfloor_resp_le. exact Hge. }
    destruct (modf dnum) as [intpart' leftover_us]. cbn [fst snd] in *.
    assert (Hsum : 0 < intpart * 1000000 + intpart').
    { destruct (Z.eq_dec intpart 0) as [Hz | Hnz]; [specialize (Hy Hz) |];
        lia. }
    destruct (Qeq_bool leftover_us 0).
    + apply make_ok in Hbody. destruct Hbody as [-> _]. exact Hsum.
    + apply make_ok in Hbody. destruct Hbody as [-> _].
      pose proof (leftover_round_nonneg (intpart * 1000000 + intpart')
                    leftover_us Hl0 Hl1).
      lia.
Qed.

Lemma tyre_deterioration_cases (strat : string) (det : float) :
  Dict.get TYRE_DETERIORATION strat = Ok det ->
  (strat = "soft_50" /\ det = literal 14 10)
  \/ ((strat = "med_50" \/ strat = "med_99") /\ det = literal 4 10).
Proof.
  unfold Dict.get, TYRE_DETERIORATION. cbn [Dict.lookup].
  remember (literal 14 10) as soft eqn:Es.
  remember (literal 4 10) as med eqn:Em.
  destruct (String.eqb_spec strat "soft_50") as [-> | _].
  { intros H. injection H as <-. left. split; reflexivity. }
  destruct (String.eqb_spec strat "med_50") as [-> | _].
  { intros H. injection H as <-. right. split; [left |]; reflexivity. }
  destruct (String.eqb_spec strat "med_99") as [-> | _].
  { intros H. injection H as <-. right. split; [right |]; reflexivity. }
  intros H. discriminate H.
Qed.

Lemma half_deterioration_ratio (strat : string) (det half : float)
  (n d : Z) :
  Dict.get TYRE_DETERIORATION strat = Ok det ->
  Float.div det (round (inject_Z 2)) = Ok half ->
  as_integer_ratio half = Ok (n, d) ->
  0 < n /\ 0 < d.
Proof.
  intros Hdet Hhalf Hratio.
  assert (Hs : Float.div (literal 14 10) (round (inject_Z 2))
               = Ok (S754_finite false 6305039478318694 (-53)))
    by (vm_compute; reflexivity).
  assert (Hm : Float.div (literal 4 10) (round (inject_Z 2))
               = Ok (S754_finite false 7205759403792794 (-55)))
    by (vm_compute; reflexivity).
  destruct (tyre_deterioration_cases _ _ Hdet) as [[_ ->] | [_ ->]].
  - rewrite Hs in Hhalf.
    assert (half = S754_finite false 6305039478318694 (-53)) by congruence.
    subst half. vm_compute in Hratio.
    assert (Hn : n = 3152519739159347) by congruence.
    assert (Hd : d = 4503599627370496) by congruence.
    subst. split; reflexivity.
  - rewrite Hm in Hhalf.
    assert (half = S754_finite false 7205759403792794 (-55)) by congruence.
    subst half. vm_compute in Hratio.
    assert (Hn : n = 3602879701896397) by congruence.
    assert (Hd : d = 18014398509481984) by congruence.
    subst. split; reflexivity.
Qed.

(** Positive sample lap times give a positive adjusted lap time. *)
Lemma deteriorated_lap_time_pos (strat : string) (lap_times : list timedelta)
  (adjusted : timedelta) :
  Forall (fun t => 0 < t) lap_times ->
  deteriorated_lap_time strat lap_times = Ok adjusted ->
  0 < adjusted.
Proof.
  intros Hpos H.
  destruct (deteriorated_lap_time_inv _ _ _ H)
    as (seconds & mean & raw & det & half & n & d
        & H1 & H2 & H3 & H4 & H5 & H6 & ->).
  destruct microsecond_value as (_ & Hcan & Hc0 & _).
  assert (Hsec : Forall (fun x => is_finite x = true
                   /\ (F2Q (round (1 # 1000000)) <= F2Q x)%Q) seconds).
  { apply mapM_Forall2 in H1. clear -H1 Hpos.
    induction H1 as [| t x l l' Ht _ IH]; [constructor |].
    inversion Hpos as [| ? ? Hpt Hpos']; subst.
    constructor; [apply (total_seconds_pos t x Hpt Ht) | apply IH, Hpos']. }
  assert (Hraw : 0 < raw).
  { apply (of_seconds_pos mean raw); [| | exact H3].
    - apply (mean_lower_bound _ _ _ Hc0 Hsec H2).
    - generalize dependent (round (1 # 1000000)). intros c0 Hcan Hc0 Hsec.
      destruct (mean_lower_bound _ _ _ Hc0 Hsec H2) as [Fm Hm].
      destruct (round_canonical_value c0 Hcan) as [Fc Vc].
      apply (proj1 (leb_finite _ _ Fc Fm)) in Hm.
      rewrite Vc in Hm. exact Hm. }
  destruct (half_deterioration_ratio _ _ _ _ _ H4 H5 H6) as [Hn Hd].
  assert (0 <= divide_and_round raw 100)
    by (apply divide_and_round_nonneg; lia).
  assert (0 <= divide_and_round (divide_and_round raw 100 * n) d)
    by (apply divide_and_round_nonneg; nia).
  lia.
Qed.

(** ** Fuel and pit stops of one strategy *)

Lemma get_pit_stop_time_inv (strat : string) (litres : Z) (stop : timedelta) :
  get_pit_stop_time_for_strategy strat litres = Ok stop ->
  (strat = "soft_50" /\ stop = Z.max (95000 * litres) TIME_TO_CHANGE_TYRES)
  \/ (strat = "med_50" /\ stop = 95000 * litres)
  \/ (strat = "med_99" /\ stop = TIME_TO_FILL_ONE_LITRE).
Proof.
  unfold get_pit_stop_time_for_strategy. intros H.
  bind_inv H. apply make_ok in E. destruct E as [-> _].
  bind_inv H. apply div_int_ok in E. destruct E as [_ ->].
  bind_inv H. apply div_int_ok in E. destruct E as [_ ->].
  rewrite half_refill_time in H.
  unfold Dict.get in H. cbn [Dict.lookup] in H.
  destruct (String.eqb_spec strat "soft_50") as [-> | _].
  { injection H as <-. left. split; reflexivity. }
  destruct (String.eqb_spec strat "med_50") as [-> | _].
  { injection H as <-. right. left. split; reflexivity. }
  destruct (String.eqb_spec strat "med_99") as [-> | _].
  { injection H as <-. right. right. split; reflexivity. }
  discriminate H.
Qed.

(** For a fuel rate and a lap count that are not negative the fuel holds
    the buffer of one litre. *)
Lemma calculate_fuel_buffer (litres_per_lap : float) (laps fuel : Z) :
  leb (S754_zero false) litres_per_lap = true -> 0 <= laps ->
  calculate_fuel litres_per_lap laps = Ok fuel ->
  FUEL_SAFETY_BUFFER_LITRES <= fuel.
Proof.
  intros Hl Hn H. unfold calculate_fuel in H.
  rewrite of_int_buffer in H. bind_inv H.
  destruct (of_int_ok _ _ E) as [-> Fa]. cbn [bind] in H.
  apply ceil_ok in H. destruct H as [Fsum ->].
  set (a := round (inject_Z laps)) in *.
  assert (Ha0 : leb (S754_zero false) a = true).
  { apply round_nonneg. change 0%Q with (inject_Z 0).
    rewrite <- Zle_Qle. exact Hn. }
  clearbody a.
  assert (Fl : is_finite litres_per_lap = true).
  { rewrite round_one in Fsum.
    destruct litres_per_lap as [| [|] | |]; try reflexivity.
    - discriminate Hl.
    - destruct a; first [discriminate Fa | discriminate Fsum].
    - discriminate Hl. }
  assert (Hll : leb litres_per_lap litres_per_lap = true).
  { apply leb_refl. destruct litres_per_lap; try reflexivity.
    discriminate Fl. }
  assert (Haa : leb a a = true).
  { apply leb_refl. destruct a; try reflexivity. discriminate Fa. }
  destruct (mul_monotone _ _ _ _ Hl Hll Ha0 Haa Fl Fa) as [Hm0 _].
  assert (Fm : is_finite (Float.mul litres_per_lap a) = true).
  { rewrite round_one in Fsum.
    destruct (Float.mul litres_per_lap a); try reflexivity;
      discriminate Fsum. }
  destruct (add_one_monotone (S754_zero false) _ eq_refl Hm0 Fm) as [_ Hle].
  change (Float.add (S754_zero false) (round (inject_Z 1)))
    with (round (inject_Z 1)) in Hle.
  apply leb_finite in Hle; [| rewrite round_one; reflexivity | exact Fsum].
  rewrite F2Q_one in Hle.
  unfold FUEL_SAFETY_BUFFER_LITRES.
  rewrite <- (Qceiling_Z 1). apply Qceiling_resp_le. exact Hle.
Qed.

(** ** Lap times and lap counts *)

Lemma inject_Z_pos (z : Z) : 0 < z -> (0 < inject_Z z)%Q.
Proof. intros H. change 0%Q with (inject_Z 0). rewrite <- Zlt_Qlt. exact H. Qed.

Lemma Qdiv_antitone (r a b : Z) :
  0 <= r -> 0 < a -> a <= b ->
  (0 <= inject_Z r / inject_Z b)%Q
  /\ (inject_Z r / inject_Z b <= inject_Z r / inject_Z a)%Q.
Proof.
  intros Hr Ha Hab.
  pose proof (inject_Z_pos a Ha) as Qa.
  pose proof (inject_Z_pos b ltac:(lia)) as Qb.
  assert (Qr : (0 <= inject_Z r)%Q)
    by (change 0%Q with (inject_Z 0); rewrite <- Zle_Qle; exact Hr).
  assert (Qab : (inject_Z a <= inject_Z b)%Q) by (rewrite <- Zle_Qle; exact Hab).
  split.
  - apply Qle_shift_div_l; [exact Qb |]. rewrite Qmult_0_l. exact Qr.
  - apply Qle_shift_div_l; [exact Qa |].
    setoid_replace (inject_Z r / inject_Z b * inject_Z a)%Q
      with (inject_Z r * inject_Z a / inject_Z b)%Q
      by (field; intros H0; rewrite H0 in Qb; discriminate Qb).
    apply Qle_shift_div_r; [exact Qb |].
    apply Qmult_le_compat_nonneg; split;
      first [exact Qr | apply Qle_refl | apply Qlt_le_weak, Qa | exact Qab].
Qed.

Lemma calculate_laps_full_ok (race_time lap_time : timedelta) (n : Z) :
  calculate_laps race_time lap_time true = Ok n ->
  exists x, Timedelta.truediv race_time lap_time = Ok x
            /\ is_finite x = true /\ n = Qceiling (F2Q x).
Proof.
  cbn [calculate_laps]. intros H. bind_inv H. apply ceil_ok in H.
  exists v. split; [exact E |]. exact H.
Qed.

(** Dividing a positive race time by a longer lap time gives a float that
    is not greater, and not negative. *)
Lemma truediv_antitone (race_time a b : timedelta) (x y : float) :
  0 < race_time -> 0 < a -> a <= b ->
  Timedelta.truediv race_time a = Ok x ->
  Timedelta.truediv race_time b = Ok y ->
  leb (S754_zero false) y = true /\ leb y x = true.
Proof.
  intros Hr Ha Hab Hx Hy. unfold Timedelta.truediv in *.
  destruct (int_truediv_ok _ _ _ Hx) as (_ & _ & _ & Ex).
  destruct (int_truediv_ok _ _ _ Hy) as (_ & _ & _ & Ey).
  rewrite (Ex ltac:(lia)), (Ey ltac:(lia)).
  destruct (Qdiv_antitone race_time a b ltac:(lia) Ha Hab) as [H0 H1].
  split; [apply round_nonneg, H0 | apply round_monotone; assumption].
Qed.

(** What the evaluation of one strategy goes through, for a positive race
    time, positive samples, a fuel rate that is not negative and a time
    lost in the pit lane that is not negative. *)
Lemma evaluate_strategy_bounds
  (race_time : timedelta) (litres_per_lap : float)
  (time_lost_driving_through_pits : timedelta) (strat : string)
  (lap_times : list timedelta) (r : StrategyResult) :
  0 < race_time -> 0 <= time_lost_driving_through_pits ->
  leb (S754_zero false) litres_per_lap = true ->
  Forall (fun t => 0 < t) lap_times ->
  evaluate_strategy race_time litres_per_lap time_lost_driving_through_pits
    strat lap_times = Ok r ->
  exists adjusted naive_laps naive_fuel stop,
    deteriorated_lap_time strat lap_times = Ok adjusted
    /\ calculate_laps race_time adjusted true = Ok naive_laps
    /\ calculate_fuel litres_per_lap naive_laps = Ok naive_fuel
    /\ get_pit_stop_time_for_strategy strat naive_fuel = Ok stop
    /\ 0 < adjusted /\ 0 < naive_laps /\ 1 <= naive_fuel /\ 0 <= stop
    /\ normalised_lap_time r
       = adjusted
         + divide_and_round
             (TIME_LOST_AT_RACE_START + time_lost_driving_through_pits + stop)
             naive_laps
    /\ pit_stop_time r = stop + time_lost_driving_through_pits
    /\ Timedelta.truediv race_time (normalised_lap_time r)
       = Ok (laps_at_zero r)
    /\ total_laps r = Qceiling (F2Q (laps_at_zero r)).
Proof.
  intros Hr Hp Hl Hpos Hev.
  destruct (evaluate_strategy_inv _ _ _ _ _ _ Hev)
    as (adjusted & nl & nf & Hadj & Hnaive & Hres).
  pose proof (deteriorated_lap_time_pos _ _ _ Hpos Hadj) as Hadj0.
  unfold naive_estimate in Hnaive. bind_inv Hnaive. bind_inv Hnaive.
  injection Hnaive as -> ->. rename E into Hnl, E0 into Hnf.
  destruct (strategy_result_inv _ _ _ _ _ _ _ _ Hres)
    as (stop & lost & am & c' & Hstop & Hlost & Ham & Hlap & Hdiv & Hceil
        & _ & _ & _ & Hshown).
  apply calculate_lost_time_ok in Hlost. apply div_int_ok in Ham.
  destruct Ham as [Hnz ->]. apply add_ok in Hlap. apply add_ok in Hshown.
  apply ceil_ok in Hceil. destruct Hceil as [_ Hlaps].
  destruct (calculate_laps_full_ok _ _ _ Hnl) as (x & Hx & Fx & Enl).
  assert (Hnl0 : 0 <= nl).
  { destruct (truediv_antitone race_time adjusted adjusted x x Hr Hadj0
                ltac:(lia) Hx Hx) as [Hx0 _].
    apply leb_zero_nonneg in Hx0; [| exact Fx].
    rewrite Enl, <- (Qceiling_Z 0). apply Qceiling_resp_le. exact Hx0. }
  pose proof (calculate_fuel_buffer _ _ _ Hl Hnl0 Hnf) as Hnf1.
  unfold FUEL_SAFETY_BUFFER_LITRES in Hnf1.
  assert (Hstop0 : 0 <= stop).
  { destruct (get_pit_stop_time_inv _ _ _ Hstop)
      as [[_ ->] | [[_ ->] | [_ ->]]];
      unfold TIME_TO_CHANGE_TYRES, TIME_TO_FILL_ONE_LITRE,
        Timedelta.us_per_second; lia. }
  exists adjusted, nl, nf, stop.
  repeat split; try assumption; try lia.
  subst lost. exact Hlap.
Qed.

(** ** Further properties of the evaluation *)

(** The comment on the naive lap count: with a positive race time,
    positive samples, a fuel rate and a time lost in the pit lane that are
    not negative, the normalised lap time of every result is at least the
    adjusted lap time, and its total laps are at most the naive laps, which
    the fuel for the pit stop is computed from. *)
Theorem naive_laps_pessimistic
  (race_time : timedelta) (strategies_to_times : Dict.dict (list timedelta))
  (litres_per_lap : float) (time_lost_driving_through_pits : timedelta)
  (out : Dict.dict StrategyResult) (k : string) (r : StrategyResult) :
  0 < race_time -> 0 <= time_lost_driving_through_pits ->
  leb (S754_zero false) litres_per_lap = true ->
  (forall k' l, In (k', l) strategies_to_times -> Forall (fun t => 0 < t) l) ->
  get_strategies race_time strategies_to_times litres_per_lap
    time_lost_driving_through_pits = Ok out ->
  In (k, r) out ->
  exists lap_times adjusted naive_laps,
    In (k, lap_times) strategies_to_times
    /\ deteriorated_lap_time k lap_times = Ok adjusted
    /\ calculate_laps race_time adjusted true = Ok naive_laps
    /\ 0 < adjusted <= normalised_lap_time r
    /\ 0 <= total_laps r <= naive_laps.
Proof.
  intros Hr Hp Hl Hpos H Hin.
  destruct (get_strategies_In _ _ _ _ _ _ _ H Hin) as (lap_times & Hlt & Hev).
  destruct (evaluate_strategy_bounds _ _ _ _ _ _ Hr Hp Hl (Hpos _ _ Hlt) Hev)
    as (adjusted & nl & nf & stop & Hadj & Hnl & Hnf & Hstop & Hadj0 & Hnl0
        & Hnf1 & Hstop0 & Hlap & _ & Hdiv & Hlaps).
  exists lap_times, adjusted, nl.
  split; [exact Hlt |]. split; [exact Hadj |]. split; [exact Hnl |].
  assert (Ham : 0 <= divide_and_round
                       (TIME_LOST_AT_RACE_START
                        + time_lost_driving_through_pits + stop) nl).
  { apply divide_and_round_nonneg; [exact Hnl0 |].
    unfold TIME_LOST_AT_RACE_START, Timedelta.us_per_second. lia. }
  split; [lia |].
  destruct (calculate_laps_full_ok _ _ _ Hnl) as (x & Hx & Fx & ->).
  destruct (truediv_antitone race_time adjusted (normalised_lap_time r)
              x (laps_at_zero r) Hr Hadj0 ltac:(lia) Hx Hdiv) as [H0 Hle].
  assert (Fz : is_finite (laps_at_zero r) = true).
  { apply int_truediv_ok in Hdiv. apply Hdiv. }
  rewrite Hlaps. split.
  - apply leb_zero_nonneg in H0; [| exact Fz].
    rewrite <- (Qceiling_Z 0). apply Qceiling_resp_le. exact H0.
  - apply ceil_monotone; assumption.
Qed.

Lemma example_times_positive :
  forall k l, In (k, l) example_times -> Forall (fun t => 0 < t) l.
Proof.
  intros k l [H | [H | [H | []]]]; injection H as _ <-;
    repeat constructor.
Qed.

Lemma naive_laps_pessimistic_witness :
  exists lap_times adjusted naive_laps,
    In ("soft_50", lap_times) example_times
    /\ deteriorated_lap_time "soft_50" lap_times = Ok adjusted
    /\ calculate_laps 3600000000 adjusted true = Ok naive_laps
    /\ 0 < adjusted <= normalised_lap_time example_soft_50
    /\ 0 <= total_laps example_soft_50 <= naive_laps.
Proof.
  apply (naive_laps_pessimistic 3600000000 example_times (literal 3 1)
           10000000 example_out "soft_50" example_soft_50).
  - reflexivity.
  - discriminate.
  - reflexivity.
  - exact example_times_positive.
  - vm_compute. reflexivity.
  - simpl. auto.
Defined.

Lemma deteriorated_lap_time_med (lap_times : list timedelta) :
  deteriorated_lap_time "med_50" lap_times
  = deteriorated_lap_time "med_99" lap_times.
Proof. reflexivity. Qed.

(** With the same positive samples, med-50 and med-99 differ in the pit
    stop only: med-50 refills half the naive fuel at 95 ms a litre and
    med-99 one litre in 190 ms.  From a naive fuel of two litres on med-99
    has at least the laps at zero of med-50, and up to two litres it is
    the other way round. *)
Theorem med_99_against_med_50
  (race_time : timedelta) (strategies_to_times : Dict.dict (list timedelta))
  (litres_per_lap : float) (time_lost_driving_through_pits : timedelta)
  (out : Dict.dict StrategyResult) (lap_times : list timedelta) :
  0 < race_time -> 0 <= time_lost_driving_through_pits ->
  leb (S754_zero false) litres_per_lap = true ->
  Forall (fun t => 0 < t) lap_times ->
  Dict.wf strategies_to_times ->
  Dict.lookup strategies_to_times "med_50" = Some lap_times ->
  Dict.lookup strategies_to_times "med_99" = Some lap_times ->
  get_strategies race_time strategies_to_times litres_per_lap
    time_lost_driving_through_pits = Ok out ->
  exists r50 r99 naive_fuel,
    Dict.lookup out "med_50" = Some r50
    /\ Dict.lookup out "med_99" = Some r99
    /\ 1 <= naive_fuel
    /\ pit_stop_time r50
       = 95000 * naive_fuel + time_lost_driving_through_pits
    /\ pit_stop_time r99 = 190000 + time_lost_driving_through_pits
    /\ (2 <= naive_fuel ->
        leb (laps_at_zero r50) (laps_at_zero r99) = true)
    /\ (naive_fuel <= 2 ->
        leb (laps_at_zero r99) (laps_at_zero r50) = true).
Proof.
  intros Hr Hp Hl Hpos Hwf H50 H99 H.
  destruct (get_strategies_lookup _ _ _ _ _ Hwf H) as [_ Hout].
  destruct (Hout _ _ H50) as (r50 & L50 & E50).
  destruct (Hout _ _ H99) as (r99 & L99 & E99).
  destruct (evaluate_strategy_bounds _ _ _ _ _ _ Hr Hp Hl Hpos E50)
    as (adj & nl & nf & stop & Hadj & Hnl & Hnf & Hstop & Hadj0 & Hnl0
        & Hnf1 & _ & Hlap & Hshown & Hdiv & _).
  destruct (evaluate_strategy_bounds _ _ _ _ _ _ Hr Hp Hl Hpos E99)
    as (adj' & nl' & nf' & stop' & Hadj' & Hnl' & Hnf' & Hstop' & _ & _
        & _ & _ & Hlap' & Hshown' & Hdiv' & _).
  rewrite <- deteriorated_lap_time_med in Hadj'.
  assert (adj' = adj) by congruence. subst adj'.
  assert (nl' = nl) by congruence. subst nl'.
  assert (nf' = nf) by congruence. subst nf'.
  assert (Es : stop = 95000 * nf).
  { destruct (get_pit_stop_time_inv _ _ _ Hstop)
      as [[Hk _] | [[_ Hs] | [Hk _]]];
      [discriminate Hk | exact Hs | discriminate Hk]. }
  assert (Es' : stop' = 190000).
  { destruct (get_pit_stop_time_inv _ _ _ Hstop')
      as [[Hk _] | [[Hk _] | [_ Hs]]];
      [discriminate Hk | discriminate Hk | exact Hs]. }
  subst stop stop'.
  exists r50, r99, nf.
  split; [exact L50 |]. split; [exact L99 |]. split; [exact Hnf1 |].
  split; [exact Hshown |]. split; [exact Hshown' |].
  assert (Hlost : 0 <= TIME_LOST_AT_RACE_START
                       + time_lost_driving_through_pits)
    by (unfold TIME_LOST_AT_RACE_START, Timedelta.us_per_second; lia).
  assert (H99pos : 0 < normalised_lap_time r99).
  { rewrite Hlap'.
    assert (0 <= divide_and_round
                   (TIME_LOST_AT_RACE_START
                    + time_lost_driving_through_pits + 190000) nl)
      by (apply divide_and_round_nonneg; lia).
    lia. }
  assert (H50pos : 0 < normalised_lap_time r50).
  { rewrite Hlap.
    assert (0 <= divide_and_round
                   (TIME_LOST_AT_RACE_START
                    + time_lost_driving_through_pits + 95000 * nf) nl)
      by (apply divide_and_round_nonneg; lia).
    lia. }
  split.
  - intros Hge.
    assert (Hle : normalised_lap_time r99 <= normalised_lap_time r50).
    { rewrite Hlap, Hlap'. apply Z.add_le_mono_l.
      apply divide_and_round_monotone; lia. }
    apply (truediv_antitone race_time _ _ _ _ Hr H99pos Hle Hdiv' Hdiv).
  - intros Hle2.
    assert (Hle : normalised_lap_time r50 <= normalised_lap_time r99).
    { rewrite Hlap, Hlap'. apply Z.add_le_mono_l.
      apply divide_and_round_monotone; lia. }
    apply (truediv_antitone race_time _ _ _ _ Hr H50pos Hle Hdiv Hdiv').
Qed.

Lemma med_99_against_med_50_witness :
  exists r50 r99 naive_fuel,
    Dict.lookup example_out "med_50" = Some r50
    /\ Dict.lookup example_out "med_99" = Some r99
    /\ 1 <= naive_fuel
    /\ pit_stop_time r50 = 95000 * naive_fuel + 10000000
    /\ pit_stop_time r99 = 190000 + 10000000
    /\ (2 <= naive_fuel ->
        leb (laps_at_zero r50) (laps_at_zero r99) = true)
    /\ (naive_fuel <= 2 ->
        leb (laps_at_zero r99) (laps_at_zero r50) = true).
Proof.
  apply (med_99_against_med_50 3600000000 example_times (literal 3 1)
           10000000 example_out [90000000]).
  - reflexivity.
  - discriminate.
  - reflexivity.
  - repeat constructor.
  - repeat constructor; simpl; intuition discriminate.
  - reflexivity.
  - reflexivity.
  - vm_compute. reflexivity.
Defined.

(** ** What [get_strategies] accepts and what it returns *)

Lemma evaluate_all_each
  (race_time : timedelta) (litres_per_lap : float)
  (time_lost_driving_through_pits : timedelta)
  (items : list (string * list timedelta)) :
  forall out0 out,
  evaluate_all race_time litres_per_lap time_lost_driving_through_pits
    items out0 = Ok out ->
  forall k l, In (k, l) items ->
  exists r, evaluate_strategy race_time litres_per_lap
              time_lost_driving_through_pits k l = Ok r.
Proof.
  induction items as [| [strat lap_times] items IH]; intros out0 out H k l Hin.
  - destruct Hin.
  - cbn [evaluate_all] in H. bind_inv H. destruct Hin as [Heq | Hin].
    + injection Heq as <- <-. exists v. exact E.
    + apply (IH _ _ H k l Hin).
Qed.

Lemma mapM_nil_inv {A B : Type} (f : A -> result B) (l : list A) :
  mapM f l = Ok [] -> l = [].
Proof.
  destruct l as [| a l]; [reflexivity |]. simpl. intros H.
  bind_inv H. bind_inv H. discriminate H.
Qed.

(** [get_strategies] returns only when every strategy of the input is one
    of the three it knows and has at least one sample: it does not skip a
    strategy without samples, and any other key is an error. *)
Theorem get_strategies_input_valid
  (race_time : timedelta) (strategies_to_times : Dict.dict (list timedelta))
  (litres_per_lap : float) (time_lost_driving_through_pits : timedelta)
  (out : Dict.dict StrategyResult) (k : string) (lap_times : list timedelta) :
  get_strategies race_time strategies_to_times litres_per_lap
    time_lost_driving_through_pits = Ok out ->
  In (k, lap_times) strategies_to_times ->
  lap_times <> [] /\ (k = "soft_50" \/ k = "med_50" \/ k = "med_99").
Proof.
  intros H Hin. unfold get_strategies in H. bind_inv H.
  destruct (evaluate_all_each _ _ _ _ _ _ E k lap_times Hin) as (r & Hev).
  destruct (evaluate_strategy_inv _ _ _ _ _ _ Hev)
    as (adjusted & nl & nf & Hadj & _).
  destruct (deteriorated_lap_time_inv _ _ _ Hadj)
    as (seconds & mean & raw & det & half & n & d
        & H1 & H2 & _ & H4 & _).
  split.
  - intros ->. cbn [mapM] in H1. injection H1 as <-.
    discriminate H2.
  - destruct (tyre_deterioration_cases _ _ H4) as [[Hk _] | [Hk _]]; tauto.
Qed.

Lemma get_strategies_input_valid_witness :
  [90000000] <> []
  /\ ("med_50" = "soft_50" \/ "med_50" = "med_50" \/ "med_50" = "med_99").
Proof.
  apply (get_strategies_input_valid 3600000000 example_times (literal 3 1)
           10000000 example_out "med_50" [90000000]).
  - vm_compute. reflexivity.
  - simpl. auto.
Defined.

Lemma get_strategies_keys_inv
  (race_time : timedelta) (strategies_to_times : Dict.dict (list timedelta))
  (litres_per_lap : float) (time_lost_driving_through_pits : timedelta)
  (out : Dict.dict StrategyResult) :
  Dict.wf strategies_to_times ->
  get_strategies race_time strategies_to_times litres_per_lap
    time_lost_driving_through_pits = Ok out ->
  Permutation (Dict.keys out) (Dict.keys strategies_to_times)
  /\ Dict.wf out
  /\ List.length out = List.length strategies_to_times.
Proof.
  intros Hwf H. pose proof H as H'. unfold get_strategies in H'.
  bind_inv H'. injection H' as Hout.
  destruct (evaluate_all_Forall2 _ _ _ _ [] v Hwf (fun _ _ H => H) E)
    as (out' & -> & Hall).
  cbn [app] in *.
  assert (Hperm : Permutation out out').
  { rewrite <- Hout.
    exact (sorted_perm (fun r => laps_at_zero (snd r)) out' true). }
  assert (Hkeys : Dict.keys out' = Dict.keys strategies_to_times).
  { clear -Hall. unfold Dict.keys.
    induction Hall as [| a b l l' [Hk _] _ IH]; simpl; [reflexivity |].
    rewrite IH, Hk. reflexivity. }
  rewrite <- Hkeys.
  split; [apply (Permutation_map fst Hperm) |].
  split.
  - apply (get_strategies_lookup _ _ _ _ _ Hwf H).
  - rewrite (Permutation_length Hperm).
    unfold Dict.keys in Hkeys.
    rewrite <- (length_map fst out'), Hkeys, length_map. reflexivity.
Qed.

(** The strategies of the output are those of the input, each once: the
    ranking neither drops nor adds a strategy. *)
Theorem get_strategies_keys
  (race_time : timedelta) (strategies_to_times : Dict.dict (list timedelta))
  (litres_per_lap : float) (time_lost_driving_through_pits : timedelta)
  (out : Dict.dict StrategyResult) :
  Dict.wf strategies_to_times ->
  get_strategies race_time strategies_to_times litres_per_lap
    time_lost_driving_through_pits = Ok out ->
  Permutation (Dict.keys out) (Dict.keys strategies_to_times)
  /\ Dict.wf out
  /\ List.length out = List.length strategies_to_times.
Proof. apply get_strategies_keys_inv. Qed.

Lemma get_strategies_keys_witness :
  Permutation (Dict.keys example_out) (Dict.keys example_times)
  /\ Dict.wf example_out
  /\ List.length example_out = List.length example_times.
Proof.
  apply (get_strategies_keys 3600000000 example_times (literal 3 1)
           10000000 example_out).
  - repeat constructor; simpl; intuition discriminate.
  - vm_compute. reflexivity.
Defined.

(** ** The text of durations *)

Import DurationText.

Lemma sound_weaken (r : Regex.matcher) (P Q : string -> Prop) :
  sound r P -> (forall m, P m -> Q m) -> sound r Q.
Proof.
  intros Hs Hw s m rest Hin. destruct (Hs s m rest Hin) as [E H].
  split; [exact E | apply Hw, H].
Qed.

Lemma set_sound (p : ascii -> bool) :
  sound (Regex.set p) (fun m => exists c, m = String c "" /\ p c = true).
Proof.
  intros [| c s] m rest; simpl; [intros [] |].
  destruct (p c) eqn:Hp; [| intros []].
  intros [H | []]. injection H as <- <-.
  split; [reflexivity |]. exists c. split; [reflexivity | exact Hp].
Qed.

Lemma append_assoc (a b c : string) :
  ((a ++ b) ++ c = a ++ (b ++ c))%string.
Proof. induction a as [| x a IH]; simpl; [reflexivity |]. rewrite IH. reflexivity. Qed.

Lemma seq_sound (r1 r2 : Regex.matcher) (P1 P2 : string -> Prop) :
  sound r1 P1 -> sound r2 P2 ->
  sound (Regex.seq r1 r2)
    (fun m => exists m1 m2, m = (m1 ++ m2)%string /\ P1 m1 /\ P2 m2).
Proof.
  intros H1 H2 s m rest Hin. unfold Regex.seq in Hin.
  apply in_flat_map in Hin. destruct Hin as ([m1 s1] & Hin1 & Hin).
  apply in_map_iff in Hin. destruct Hin as ([m2 s2] & Heq & Hin2).
  cbn [fst snd] in *. injection Heq as <- <-.
  destruct (H1 _ _ _ Hin1) as [-> Hp1].
  destruct (H2 _ _ _ Hin2) as [-> Hp2].
  split; [symmetry; apply append_assoc |].
  exists m1, m2. repeat split; assumption.
Qed.

Lemma alt_sound (r1 r2 : Regex.matcher) (P1 P2 : string -> Prop) :
  sound r1 P1 -> sound r2 P2 ->
  sound (Regex.alt r1 r2) (fun m => P1 m \/ P2 m).
Proof.
  intros H1 H2 s m rest Hin. unfold Regex.alt in Hin.
  apply in_app_or in Hin. destruct Hin as [Hin | Hin].
  - destruct (H1 _ _ _ Hin) as [E H]. split; [exact E | left; exact H].
  - destruct (H2 _ _ _ Hin) as [E H]. split; [exact E | right; exact H].
Qed.

Lemma empty_sound : sound Regex.empty (fun m => m = ""%string).
Proof.
  intros s m rest [H | []]. injection H as <- <-. split; reflexivity.
Qed.

Lemma all_digits_app (a b : string) :
  all_digits (a ++ b) = all_digits a && all_digits b.
Proof.
  induction a as [| c a IH]; simpl; [reflexivity |].
  rewrite IH, andb_assoc. reflexivity.
Qed.

Lemma string_length_app (a b : string) :
  String.length (a ++ b) = (String.length a + String.length b)%nat.
Proof. induction a as [| c a IH]; simpl; [reflexivity |]. rewrite IH. reflexivity. Qed.

(** Up to [n] digits. *)
Lemma upto_digits_sound (n : nat) :
  sound (Regex.upto n (Regex.set (Regex.in_range "0" "9")))
    (fun m => all_digits m = true /\ (String.length m <= n)%nat).
Proof.
  induction n as [| n IH]; cbn [Regex.upto].
  - eapply sound_weaken; [apply empty_sound |].
    intros m ->. split; [reflexivity | apply Nat.le_refl].
  - eapply sound_weaken.
    + apply alt_sound; [apply seq_sound; [apply set_sound | exact IH]
                       | apply empty_sound].
    + intros m [(m1 & m2 & -> & (c & -> & Hc) & Hd & Hl) | ->].
      * split; [| simpl; lia].
        simpl. unfold is_digit. rewrite Hc, Hd. reflexivity.
      * split; [reflexivity | simpl; lia].
Qed.

Lemma digit_bounds (c : ascii) :
  is_digit c = true -> 0 <= Z.of_nat (nat_of_ascii c) - 48 <= 9.
Proof.
  unfold is_digit, Regex.in_range. intros H.
  apply andb_true_iff in H. destruct H as [H1 H2].
  apply Nat.leb_le in H1. apply Nat.leb_le in H2.
  change (nat_of_ascii "0") with 48%nat in H1.
  change (nat_of_ascii "9") with 57%nat in H2. lia.
Qed.

Lemma range_is_digit (hi c : ascii) :
  (nat_of_ascii hi <= 57)%nat ->
  Regex.in_range "0" hi c = true ->
  is_digit c = true
  /\ Z.of_nat (nat_of_ascii c) - 48 <= Z.of_nat (nat_of_ascii hi) - 48.
Proof.
  unfold is_digit, Regex.in_range. intros Hhi H.
  apply andb_true_iff in H. destruct H as [H1 H2].
  apply Nat.leb_le in H2. rewrite H1. split; [| lia].
  apply Nat.leb_le. change (nat_of_ascii "9") with 57%nat. lia.
Qed.

Lemma value_from_app (acc : Z) (a b : string) :
  value_from acc (a ++ b) = value_from (value_from acc a) b.
Proof.
  revert acc. induction a as [| c a IH]; intros acc; simpl; [reflexivity |].
  apply IH.
Qed.

Lemma value_from_bounds (s : string) :
  all_digits s = true ->
  forall acc, 0 <= acc ->
  acc * 10 ^ Z.of_nat (String.length s) <= value_from acc s
  /\ value_from acc s < (acc + 1) * 10 ^ Z.of_nat (String.length s).
Proof.
  induction s as [| c s IH]; intros Hd acc Hacc.
  - simpl. lia.
  - cbn [all_digits] in Hd. apply andb_true_iff in Hd. destruct Hd as [Hc Hs].
    pose proof (digit_bounds c Hc) as Hb.
    cbn [value_from String.length]. rewrite Nat2Z.inj_succ, Z.pow_succ_r by lia.
    destruct (IH Hs (10 * acc + (Z.of_nat (nat_of_ascii c) - 48))
                ltac:(lia)) as [H1 H2].
    pose proof (Z.pow_pos_nonneg 10 (Z.of_nat (String.length s))
                  ltac:(lia) ltac:(lia)) as Hp.
    split; nia.
Qed.

Lemma int_from_digits (s : string) :
  all_digits s = true ->
  forall acc, Strptime.int_from acc s = Ok (value_from acc s).
Proof.
  induction s as [| c s IH]; intros Hd acc; [reflexivity |].
  cbn [all_digits] in Hd. apply andb_true_iff in Hd. destruct Hd as [Hc Hs].
  cbn [Strptime.int_from value_from]. unfold Strptime.digit_value.
  unfold is_digit in Hc. rewrite Hc. apply IH, Hs.
Qed.

Lemma int_digits (s : string) :
  all_digits s = true -> (1 <= String.length s)%nat ->
  Strptime.int s = Ok (value s).
Proof.
  intros Hd Hl. unfold Strptime.int, value.
  destruct s; [simpl in Hl; lia |]. apply int_from_digits, Hd.
Qed.

Lemma zeros_digits (n : nat) :
  all_digits (Strptime.zeros n) = true
  /\ String.length (Strptime.zeros n) = n
  /\ forall acc, value_from acc (Strptime.zeros n) = acc * 10 ^ Z.of_nat n.
Proof.
  induction n as [| n (IH1 & IH2 & IH3)].
  - repeat split. intros acc. simpl. lia.
  - cbn [Strptime.zeros all_digits String.length value_from].
    rewrite IH1, IH2. repeat split. intros acc. rewrite IH3.
    change (Z.of_nat (nat_of_ascii "0") - 48) with 0.
    rewrite Nat2Z.inj_succ, Z.pow_succ_r by lia. lia.
Qed.

Lemma chr_sound (c : ascii) :
  sound (Regex.chr c) (fun m => m = String c ""%string).
Proof.
  eapply sound_weaken; [apply set_sound |].
  intros m (c' & -> & Hc). apply Ascii.eqb_eq in Hc. subst. reflexivity.
Qed.

Lemma digit_sound :
  sound Regex.digit
    (fun m => all_digits m = true /\ String.length m = 1%nat
              /\ value m <= 9).
Proof.
  eapply sound_weaken; [apply set_sound |].
  intros m (c & -> & Hc). fold (is_digit c) in Hc.
  pose proof (digit_bounds c Hc). unfold value.
  cbn [all_digits String.length value_from].
  rewrite Hc. repeat split. lia.
Qed.

Lemma two_digits_sound (hi : ascii) :
  (nat_of_ascii hi <= 57)%nat ->
  sound (Regex.seq (Regex.set (Regex.in_range "0" hi)) Regex.digit)
    (fun m => all_digits m = true /\ String.length m = 2%nat
              /\ value m <= 10 * (Z.of_nat (nat_of_ascii hi) - 48) + 9).
Proof.
  intros Hhi. eapply sound_weaken;
    [apply seq_sound; [apply set_sound | apply digit_sound] |].
  intros m (m1 & m2 & -> & (c & -> & Hc) & Hd & Hl & Hv).
  destruct (range_is_digit hi c Hhi Hc) as [Hc' Hcv].
  pose proof (digit_bounds c Hc') as Hcb.
  destruct m2 as [| c2 [| ? ?]]; try discriminate Hl.
  unfold value in *.
  cbn [append all_digits String.length value_from] in Hd, Hv |- *.
  rewrite Hc'. split; [exact Hd |]. split; [reflexivity |]. lia.
Qed.

Lemma directive_M_sound :
  sound Strptime.directive_M
    (fun m => all_digits m = true /\ (1 <= String.length m <= 2)%nat
              /\ value m <= 59).
Proof.
  eapply sound_weaken;
    [apply alt_sound; [apply (two_digits_sound "5"); cbn; lia
                      | apply digit_sound] |].
  cbv beta. intros m [(Hd & Hl & Hv) | (Hd & Hl & Hv)];
    [change (Z.of_nat (nat_of_ascii "5") - 48) with 5 in Hv |];
    (split; [exact Hd |]); split; lia.
Qed.

Lemma directive_S_sound :
  sound Strptime.directive_S
    (fun m => all_digits m = true /\ (1 <= String.length m <= 2)%nat).
Proof.
  eapply sound_weaken;
    [apply alt_sound;
       [apply seq_sound; [apply chr_sound | apply set_sound]
       | apply alt_sound; [apply (two_digits_sound "5"); cbn; lia
                          | apply digit_sound]] |].
  cbv beta. intros m [(m1 & m2 & -> & -> & (c & -> & Hc))
                | [(Hd & Hl & _) | (Hd & Hl & _)]].
  - destruct (range_is_digit "1" c ltac:(cbn; lia) Hc) as [Hc' _].
    cbn [append all_digits String.length]. rewrite Hc'.
    split; [reflexivity | lia].
  - split; [exact Hd | lia].
  - split; [exact Hd | lia].
Qed.

Lemma directive_f_sound :
  sound Strptime.directive_f
    (fun m => all_digits m = true /\ (1 <= String.length m <= 6)%nat).
Proof.
  eapply sound_weaken;
    [apply seq_sound; [apply set_sound | apply (upto_digits_sound 5)] |].
  cbv beta. intros m (m1 & m2 & -> & (c & -> & Hc) & Hd & Hl).
  cbn [append all_digits String.length]. unfold is_digit.
  rewrite Hc, Hd. split; [reflexivity | lia].
Qed.

(** What the expression of ["%M:%S.%f"] matches: three groups of digits
    with a colon and a point between them, at the start of the text. *)
Lemma format_regex_sound (s gM gS f rest : string) :
  In (gM, gS, f, rest) (Strptime.format_regex s) ->
  s = (text gM gS f ++ rest)%string
  /\ all_digits gM = true /\ (1 <= String.length gM <= 2)%nat
  /\ value gM <= 59
  /\ all_digits gS = true /\ (1 <= String.length gS <= 2)%nat
  /\ all_digits f = true /\ (1 <= String.length f <= 6)%nat.
Proof.
  unfold Strptime.format_regex. intros H.
  apply in_flat_map in H. destruct H as ([m s1] & HM & H).
  apply in_flat_map in H. destruct H as ([c1 s2] & Hc1 & H).
  apply in_flat_map in H. destruct H as ([sec s3] & HS & H).
  apply in_flat_map in H. destruct H as ([c2 s4] & Hc2 & H).
  apply in_map_iff in H. destruct H as ([fr s5] & Heq & Hf).
  cbn [fst snd] in *. injection Heq as <- <- <- <-.
  destruct (directive_M_sound _ _ _ HM) as [-> (M1 & M2 & M3)].
  destruct (chr_sound _ _ _ _ Hc1) as [-> ->].
  destruct (directive_S_sound _ _ _ HS) as [-> (S1 & S2)].
  destruct (chr_sound _ _ _ _ Hc2) as [-> ->].
  destruct (directive_f_sound _ _ _ Hf) as [-> (F1 & F2)].
  split; [| repeat split; assumption || lia].
  unfold text. rewrite !append_assoc. reflexivity.
Qed.

Lemma fraction_value (f : string) :
  all_digits f = true -> (1 <= String.length f <= 6)%nat ->
  Strptime.int (f ++ Strptime.zeros (6 - String.length f))
  = Ok (value f * 10 ^ (6 - Z.of_nat (String.length f)))
  /\ 0 <= value f * 10 ^ (6 - Z.of_nat (String.length f)) <= 999999.
Proof.
  intros Hd Hl.
  destruct (zeros_digits (6 - String.length f)) as (Z1 & Z2 & Z3).
  split.
  - rewrite int_digits.
    + unfold value. rewrite value_from_app, Z3.
      replace (Z.of_nat (6 - String.length f))
        with (6 - Z.of_nat (String.length f)) by lia.
      reflexivity.
    + rewrite all_digits_app, Hd, Z1. reflexivity.
    + rewrite string_length_app. lia.
  - destruct (value_from_bounds f Hd 0 ltac:(lia)) as [H1 H2].
    fold (value f) in H1, H2.
    set (n := Z.of_nat (String.length f)) in *.
    assert (Hn : 1 <= n <= 6) by (unfold n; lia).
    assert (Hp : 10 ^ n * 10 ^ (6 - n) = 10 ^ 6).
    { rewrite <- Z.pow_add_r by lia. f_equal. lia. }
    pose proof (Z.pow_pos_nonneg 10 (6 - n) ltac:(lia) ltac:(lia)).
    pose proof (Z.pow_pos_nonneg 10 n ltac:(lia) ltac:(lia)).
    change (10 ^ 6) with 1000000 in Hp. nia.
Qed.

Lemma of_fields_in_hour (m s u : Z) :
  0 <= m <= 59 -> 0 <= s <= 59 -> 0 <= u <= 999999 ->
  Timedelta.of_fields m s u = Ok (m * 60000000 + s * 1000000 + u).
Proof.
  intros Hm Hs Hu. unfold Timedelta.of_fields, Timedelta.us_per_second.
  replace (m * 60 * 1000000 + s * 1000000 + u)
    with (m * 60000000 + s * 1000000 + u) by lia.
  apply make_in_range. apply in_range_bounds.
  unfold Timedelta.min_us, Timedelta.max_us, Timedelta.us_per_day,
    Timedelta.us_per_second. lia.
Qed.

Lemma value_nonneg (s : string) : all_digits s = true -> 0 <= value s.
Proof.
  intros Hd. destruct (value_from_bounds s Hd 0 ltac:(lia)) as [H _].
  unfold value. lia.
Qed.

Lemma msm_to_tds_inv (td_str : string) :
  match msm_to_tds td_str with
  | Ok td =>
      exists m sec f,
        well_formed m sec f /\ td_str = text m sec f
        /\ td = duration m sec f
  | Raise e => e = ValueError
  end.
Proof.
  unfold msm_to_tds, Strptime.strptime.
  destruct (Strptime.format_regex td_str) as [| [[[gM gS] f] rest] l] eqn:E;
    [reflexivity |].
  assert (Hin : In (gM, gS, f, rest) (Strptime.format_regex td_str))
    by (rewrite E; left; reflexivity).
  destruct (format_regex_sound _ _ _ _ _ Hin)
    as (Hs & M1 & M2 & M3 & S1 & S2 & F1 & F2).
  destruct (String.eqb_spec rest "") as [-> | _]; [| reflexivity].
  cbn [negb]. rewrite (int_digits gM M1) by lia. cbn [bind].
  rewrite (int_digits gS S1) by lia. cbn [bind].
  destruct (fraction_value f F1 F2) as [Hf Hfb]. rewrite Hf. cbn [bind].
  pose proof (value_nonneg gM M1) as Hm0.
  pose proof (value_nonneg gS S1) as Hs0.
  set (u := value f * 10 ^ (6 - Z.of_nat (String.length f))) in *.
  replace (0 <=? value gM) with true by (symmetry; apply Z.leb_le; lia).
  replace (value gM <=? 59) with true by (symmetry; apply Z.leb_le; lia).
  replace (0 <=? value gS) with true by (symmetry; apply Z.leb_le; lia).
  replace (0 <=? u) with true by (symmetry; apply Z.leb_le; lia).
  replace (u <=? 999999) with true by (symmetry; apply Z.leb_le; lia).
  cbn [andb]. rewrite !andb_true_r.
  destruct (Z.leb_spec (value gS) 59) as [Hs59 | _]; [| reflexivity].
  cbn [bind]. rewrite of_fields_in_hour by lia.
  exists gM, gS, f. split; [| split].
  - unfold well_formed. repeat split; assumption || lia.
  - rewrite Hs. unfold text.
    rewrite !append_assoc.
    clear. induction gM as [| c gM IH]; cbn [append].
    + f_equal. induction gS as [| c gS IH]; cbn [append].
      * f_equal. induction f as [| c f IH]; cbn [append];
          [reflexivity | f_equal; exact IH].
      * f_equal. exact IH.
    + f_equal. exact IH.
  - reflexivity.
Qed.


(** *** The first match of the expression *)

Lemma digit_not_char (c x : ascii) :
  is_digit c = true -> is_digit x = false -> Ascii.eqb x c = false.
Proof.
  intros Hc Hx. destruct (Ascii.eqb_spec x c) as [-> | _];
    [congruence | reflexivity].
Qed.

Lemma digit_in_range (hi c : ascii) :
  is_digit c = true ->
  Z.of_nat (nat_of_ascii c) - 48 <= Z.of_nat (nat_of_ascii hi) - 48 ->
  Regex.in_range "0" hi c = true.
Proof.
  unfold is_digit, Regex.in_range. intros H Hle.
  apply andb_true_iff in H. destruct H as [H1 _]. rewrite H1.
  apply Nat.leb_le. lia.
Qed.

Lemma flat_map_singleton {A B : Type} (f : A -> list B) (a : A) :
  flat_map f [a] = f a.
Proof. simpl. apply app_nil_r. Qed.

(** After the minutes and the colon the match goes on with what follows,
    and in no other way. *)
Lemma directive_M_then_colon {X : Type} (B : string -> string -> list X)
  (m rest : string) :
  all_digits m = true -> (1 <= String.length m <= 2)%nat -> value m <= 59 ->
  flat_map
    (fun gM =>
       flat_map (fun c1 => B (fst gM) (snd c1)) (Regex.chr ":" (snd gM)))
    (Strptime.directive_M (m ++ String ":" rest))
  = B m rest.
Proof.
  intros Hd Hl Hv.
  destruct m as [| c1 [| c2 [| c3 m]]]; cbn [String.length] in Hl; try lia.
  - (* one digit *)
    cbn [all_digits] in Hd. rewrite andb_true_r in Hd.
    unfold Strptime.directive_M, Regex.alt, Regex.seq, Regex.digit,
      Regex.chr.
    cbn [append Regex.set flat_map map fst snd app].
    fold (is_digit c1). rewrite Hd.
    destruct (Regex.in_range "0" "5" c1);
      do 3 (cbn [append flat_map map app fst snd Regex.set];
            try change (Regex.in_range "0" "9" ":") with false;
            try change (":" =? ":")%char with true);
      rewrite ?app_nil_r; reflexivity.
  - (* two digits *)
    cbn [all_digits] in Hd. rewrite andb_true_r in Hd.
    apply andb_true_iff in Hd. destruct Hd as [H1 H2].
    pose proof (digit_bounds c1 H1) as B1.
    pose proof (digit_bounds c2 H2) as B2.
    unfold value in Hv. cbn [value_from] in Hv.
    assert (H5 : Regex.in_range "0" "5" c1 = true).
    { apply digit_in_range; [exact H1 |].
      change (Z.of_nat (nat_of_ascii "5") - 48) with 5. lia. }
    unfold Strptime.directive_M, Regex.alt, Regex.seq, Regex.digit,
      Regex.chr.
    cbn [append Regex.set flat_map map fst snd app].
    fold (is_digit c1). fold (is_digit c2). rewrite H5, H1.
    cbn [flat_map map app fst snd Regex.set].
    fold (is_digit c2). rewrite H2.
    cbn [flat_map map app fst snd Regex.set append].
    change (":" =? ":")%char with true.
    rewrite (digit_not_char c2 ":" H2 eq_refl).
    cbn [flat_map map app fst snd]. rewrite ?app_nil_r. reflexivity.
Qed.

Lemma directive_S_then_point {X : Type} (B : string -> string -> list X)
  (sec rest : string) :
  all_digits sec = true -> (1 <= String.length sec <= 2)%nat ->
  value sec <= 59 ->
  flat_map
    (fun gS =>
       flat_map (fun c2 => B (fst gS) (snd c2)) (Regex.chr "." (snd gS)))
    (Strptime.directive_S (sec ++ String "." rest))
  = B sec rest.
Proof.
  intros Hd Hl Hv.
  destruct sec as [| c1 [| c2 [| c3 m]]]; cbn [String.length] in Hl; try lia.
  - (* one digit *)
    cbn [all_digits] in Hd. rewrite andb_true_r in Hd.
    unfold Strptime.directive_S, Regex.alt, Regex.seq, Regex.digit,
      Regex.chr.
    cbn [append Regex.set flat_map map fst snd app].
    fold (is_digit c1). rewrite Hd.
    destruct (Regex.in_range "0" "5" c1), ("6" =? c1)%char;
      do 4 (cbn [append flat_map map app fst snd Regex.set];
            try change (Regex.in_range "0" "9" ".") with false;
            try change (Regex.in_range "0" "1" ".") with false;
            try change ("." =? ".")%char with true);
      rewrite ?app_nil_r; reflexivity.
  - (* two digits *)
    cbn [all_digits] in Hd. rewrite andb_true_r in Hd.
    apply andb_true_iff in Hd. destruct Hd as [H1 H2].
    pose proof (digit_bounds c1 H1) as B1.
    pose proof (digit_bounds c2 H2) as B2.
    unfold value in Hv. cbn [value_from] in Hv.
    assert (H5 : Regex.in_range "0" "5" c1 = true).
    { apply digit_in_range; [exact H1 |].
      change (Z.of_nat (nat_of_ascii "5") - 48) with 5. lia. }
    assert (H6 : ("6" =? c1)%char = false).
    { destruct (Ascii.eqb_spec "6" c1) as [<- | _]; [| reflexivity].
      change (Z.of_nat (nat_of_ascii "6") - 48) with 6 in *. lia. }
    unfold Strptime.directive_S, Regex.alt, Regex.seq, Regex.digit,
      Regex.chr.
    cbn [append Regex.set flat_map map fst snd app].
    fold (is_digit c1). rewrite H5, H1, H6.
    cbn [flat_map map app fst snd Regex.set].
    fold (is_digit c2). rewrite H2.
    cbn [flat_map map app fst snd Regex.set append].
    change ("." =? ".")%char with true.
    rewrite (digit_not_char c2 "." H2 eq_refl).
    cbn [flat_map map app fst snd]. rewrite ?app_nil_r. reflexivity.
Qed.

(** The digits of the fraction are matched as far as they go. *)
Lemma upto_digits_first (n : nat) (f : string) :
  all_digits f = true -> (String.length f <= n)%nat ->
  exists l,
    Regex.upto n (Regex.set (Regex.in_range "0" "9")) f = (f, ""%string) :: l.
Proof.
  revert f. induction n as [| n IH]; intros f Hd Hl.
  - destruct f; [| simpl in Hl; lia]. exists []. reflexivity.
  - destruct f as [| c f].
    + cbn [Regex.upto]. unfold Regex.alt, Regex.seq, Regex.empty.
      cbn [Regex.set flat_map app]. exists []. reflexivity.
    + cbn [all_digits] in Hd. apply andb_true_iff in Hd.
      destruct Hd as [Hc Hf]. cbn [String.length] in Hl.
      destruct (IH f Hf ltac:(lia)) as (l & Hl').
      cbn [Regex.upto]. unfold Regex.alt, Regex.seq.
      cbn [Regex.set]. fold (is_digit c). rewrite Hc.
      cbn [flat_map fst snd]. rewrite Hl'.
      cbn [map app fst snd append].
      eexists. reflexivity.
Qed.

Lemma directive_f_first (f : string) :
  all_digits f = true -> (1 <= String.length f <= 6)%nat ->
  exists l, Strptime.directive_f f = (f, ""%string) :: l.
Proof.
  intros Hd Hl. destruct f as [| c f]; [simpl in Hl; lia |].
  cbn [all_digits] in Hd. apply andb_true_iff in Hd. destruct Hd as [Hc Hf].
  cbn [String.length] in Hl.
  destruct (upto_digits_first 5 f Hf ltac:(lia)) as (l & Hl').
  unfold Strptime.directive_f, Regex.seq.
  cbn [Regex.set]. fold (is_digit c). rewrite Hc.
  cbn [flat_map fst snd]. rewrite Hl'.
  cbn [map app fst snd append]. eexists. reflexivity.
Qed.

(** On a well-formed text the first match of the expression is the whole
    text, split into its three fields. *)
Lemma format_regex_first (m sec f : string) :
  well_formed m sec f ->
  exists l, Strptime.format_regex (text m sec f) = (m, sec, f, ""%string) :: l.
Proof.
  intros (M1 & S1 & F1 & M2 & S2 & F2 & M3 & S3).
  unfold Strptime.format_regex, text.
  cbn [append].
  rewrite (directive_M_then_colon
             (fun a r =>
                flat_map
                  (fun gS =>
                     flat_map
                       (fun c2 =>
                          map (fun gf => (a, fst gS, fst gf, snd gf))
                            (Strptime.directive_f (snd c2)))
                       (Regex.chr "." (snd gS)))
                  (Strptime.directive_S r))
             m (sec ++ String "." f) M1 M2 M3).
  rewrite (directive_S_then_point
             (fun a r =>
                map (fun gf => (m, a, fst gf, snd gf))
                  (Strptime.directive_f r))
             sec f S1 S2 S3).
  destruct (directive_f_first f F1 F2) as (l & ->).
  cbn [map fst snd]. eexists. reflexivity.
Qed.

Lemma msm_to_tds_text (m sec f : string) :
  well_formed m sec f ->
  msm_to_tds (text m sec f) = Ok (duration m sec f).
Proof.
  intros Hwf. destruct (format_regex_first m sec f Hwf) as (l & Hfirst).
  destruct Hwf as (M1 & S1 & F1 & M2 & S2 & F2 & M3 & S3).
  unfold msm_to_tds, Strptime.strptime. rewrite Hfirst.
  cbn [String.eqb negb].
  rewrite (int_digits m M1) by lia. cbn [bind].
  rewrite (int_digits sec S1) by lia. cbn [bind].
  destruct (fraction_value f F1 F2) as [Hf Hfb]. rewrite Hf. cbn [bind].
  pose proof (value_nonneg m M1) as Hm0.
  pose proof (value_nonneg sec S1) as Hs0.
  set (u := value f * 10 ^ (6 - Z.of_nat (String.length f))) in *.
  replace (0 <=? value m) with true by (symmetry; apply Z.leb_le; lia).
  replace (value m <=? 59) with true by (symmetry; apply Z.leb_le; lia).
  replace (0 <=? value sec) with true by (symmetry; apply Z.leb_le; lia).
  replace (value sec <=? 59) with true by (symmetry; apply Z.leb_le; lia).
  replace (0 <=? u) with true by (symmetry; apply Z.leb_le; lia).
  replace (u <=? 999999) with true by (symmetry; apply Z.leb_le; lia).
  cbn [andb bind]. rewrite of_fields_in_hour by lia. reflexivity.
Qed.

(** [msm_to_tds] returns the duration of every well-formed text. *)
Theorem msm_to_tds_accepts (m sec f : string) :
  well_formed m sec f ->
  msm_to_tds (text m sec f) = Ok (duration m sec f).
Proof. exact (msm_to_tds_text m sec f). Qed.

Lemma msm_to_tds_accepts_witness :
  msm_to_tds "01:45.235" = Ok 105235000.
Proof.
  apply (msm_to_tds_accepts "01" "45" "235").
  unfold well_formed.
  repeat split; try reflexivity; try (cbn [String.length]; lia);
    vm_compute; discriminate.
Defined.

(** *** Printed numbers *)

Lemma digit_char_spec (d : Z) :
  0 <= d <= 9 ->
  is_digit (TimedeltaStr.digit_char d) = true
  /\ Z.of_nat (nat_of_ascii (TimedeltaStr.digit_char d)) - 48 = d.
Proof.
  intros Hd. unfold TimedeltaStr.digit_char.
  assert (Hn : nat_of_ascii (ascii_of_nat (Z.to_nat (48 + d)))
               = Z.to_nat (48 + d)).
  { apply nat_ascii_embedding. lia. }
  split; [| rewrite Hn; lia].
  unfold is_digit, Regex.in_range. rewrite Hn.
  change (nat_of_ascii "0") with 48%nat.
  change (nat_of_ascii "9") with 57%nat.
  apply andb_true_iff. split; apply Nat.leb_le; lia.
Qed.

(** With enough fuel the digits of [n] are digits, stand for [n], and are
    no more than [n] needs. *)
Lemma digits_spec (fuel : nat) :
  forall n, (1 <= fuel)%nat -> 0 <= n < 10 ^ Z.of_nat fuel ->
  all_digits (TimedeltaStr.digits fuel n) = true
  /\ value (TimedeltaStr.digits fuel n) = n
  /\ (1 <= String.length (TimedeltaStr.digits fuel n))%nat
  /\ forall w, (1 <= w)%nat -> n < 10 ^ Z.of_nat w ->
               (String.length (TimedeltaStr.digits fuel n) <= w)%nat.
Proof.
  induction fuel as [| k IH]; intros n Hfuel Hn.
  - lia.
  - cbn [TimedeltaStr.digits].
    pose proof (Z.mod_pos_bound n 10 ltac:(lia)) as Hmod.
    destruct (digit_char_spec (n mod 10) ltac:(lia)) as [Hc Hv].
    destruct (Z.ltb_spec n 10) as [Hsmall | Hbig].
    + cbn [append all_digits String.length]. unfold value.
      cbn [value_from]. rewrite Hc, Hv, Z.mod_small by lia.
      repeat split; try lia.
    + assert (Hq : 0 <= n / 10 < 10 ^ Z.of_nat k).
      { rewrite Nat2Z.inj_succ, Z.pow_succ_r in Hn by lia.
        split; [apply Z.div_pos; lia |].
        apply Z.div_lt_upper_bound; lia. }
      assert (Hk : (1 <= k)%nat).
      { destruct k; [| lia]. simpl in Hq.
        assert (1 <= n / 10) by (apply Z.div_le_lower_bound; lia). lia. }
      destruct (IH _ Hk Hq) as (D1 & D2 & D3 & D4).
      rewrite all_digits_app, string_length_app.
      cbn [all_digits String.length]. rewrite D1, Hc.
      unfold value in *. rewrite value_from_app, D2.
      cbn [value_from]. rewrite Hv.
      pose proof (Z.div_mod n 10 ltac:(lia)) as Hdm.
      repeat split; try lia.
      intros w Hw Hnw.
      destruct w as [| [| w]];
        [lia | change (10 ^ Z.of_nat 1) with 10 in Hnw; lia |].
      assert (Hq' : n / 10 < 10 ^ Z.of_nat (S w)).
      { rewrite (Nat2Z.inj_succ (S w)), Z.pow_succ_r in Hnw by lia.
        apply Z.div_lt_upper_bound; lia. }
      specialize (D4 (S w) ltac:(lia) Hq'). lia.
Qed.

Lemma decimal_spec (n : Z) :
  0 <= n ->
  all_digits (TimedeltaStr.decimal n) = true
  /\ value (TimedeltaStr.decimal n) = n
  /\ (1 <= String.length (TimedeltaStr.decimal n))%nat
  /\ forall w, (1 <= w)%nat -> n < 10 ^ Z.of_nat w ->
               (String.length (TimedeltaStr.decimal n) <= w)%nat.
Proof.
  intros Hn. unfold TimedeltaStr.decimal.
  destruct (Z.ltb_spec n 0) as [Hneg | _]; [lia |].
  apply digits_spec; [lia |]. split; [exact Hn |].
  rewrite Nat2Z.inj_succ, Z2Nat.id by apply Z.log2_nonneg.
  destruct (Z.eq_dec n 0) as [-> | Hnz]; [reflexivity |].
  pose proof (Z.log2_spec n ltac:(lia)) as [_ Hlog].
  eapply Z.lt_le_trans; [exact Hlog |].
  apply Z.pow_le_mono_l. lia.
Qed.

(** A number below [10^w] printed with [w] digits. *)
Lemma zero_padded_spec (w : nat) (n : Z) :
  (1 <= w)%nat -> 0 <= n < 10 ^ Z.of_nat w ->
  all_digits (TimedeltaStr.zero_padded w n) = true
  /\ value (TimedeltaStr.zero_padded w n) = n
  /\ String.length (TimedeltaStr.zero_padded w n) = w.
Proof.
  intros Hw [Hn0 Hn]. unfold TimedeltaStr.zero_padded.
  destruct (decimal_spec n Hn0) as (D1 & D2 & D3 & D4).
  specialize (D4 w Hw Hn).
  destruct (zeros_digits (w - String.length (TimedeltaStr.decimal n)))
    as (Z1 & Z2 & Z3).
  rewrite all_digits_app, string_length_app, Z1, Z2, D1.
  unfold value in *. rewrite value_from_app, Z3, Z.mul_0_l, D2.
  repeat split; lia.
Qed.

(** *** The durations that can be read *)

Lemma duration_bounds (m sec f : string) :
  well_formed m sec f -> 0 <= duration m sec f < 3600000000.
Proof.
  intros (M1 & S1 & F1 & M2 & S2 & F2 & M3 & S3).
  pose proof (value_nonneg m M1) as Hm0.
  pose proof (value_nonneg sec S1) as Hs0.
  destruct (fraction_value f F1 F2) as [_ Hfb].
  unfold duration. lia.
Qed.

(** The fields of a duration under one hour, printed with two, two and six
    digits, are a text of this duration. *)
Lemma padded_fields (d : Z) :
  0 <= d < 3600000000 ->
  well_formed (TimedeltaStr.zero_padded 2 (d / 60000000))
    (TimedeltaStr.zero_padded 2 (d / 1000000 mod 60))
    (TimedeltaStr.zero_padded 6 (d mod 1000000))
  /\ duration (TimedeltaStr.zero_padded 2 (d / 60000000))
       (TimedeltaStr.zero_padded 2 (d / 1000000 mod 60))
       (TimedeltaStr.zero_padded 6 (d mod 1000000)) = d.
Proof.
  intros Hd.
  assert (Hm : 0 <= d / 60000000 < 60).
  { split; [apply Z.div_pos; lia | apply Z.div_lt_upper_bound; lia]. }
  pose proof (Z.mod_pos_bound (d / 1000000) 60 ltac:(lia)) as Hs.
  pose proof (Z.mod_pos_bound d 1000000 ltac:(lia)) as Hu.
  destruct (zero_padded_spec 2 (d / 60000000) ltac:(lia))
    as (M1 & M2 & M3); [change (10 ^ Z.of_nat 2) with 100; lia |].
  destruct (zero_padded_spec 2 (d / 1000000 mod 60) ltac:(lia))
    as (S1 & S2 & S3); [change (10 ^ Z.of_nat 2) with 100; lia |].
  destruct (zero_padded_spec 6 (d mod 1000000) ltac:(lia))
    as (F1 & F2 & F3); [change (10 ^ Z.of_nat 6) with 1000000; lia |].
  split.
  - unfold well_formed. rewrite M1, M2, M3, S1, S2, S3, F1, F3.
    repeat split; lia.
  - unfold duration. rewrite M2, S2, F2, F3.
    change (10 ^ (6 - Z.of_nat 6)) with 1.
    pose proof (Z.div_mod d 1000000 ltac:(lia)) as E1.
    pose proof (Z.div_mod (d / 1000000) 60 ltac:(lia)) as E2.
    rewrite Z.div_div in E2 by lia.
    change (1000000 * 60) with 60000000 in E2. lia.
Qed.

(** The durations [msm_to_tds] can return are those from zero up to, and
    not including, one hour: every one of them has a text, and no text
    gives a negative duration or an hour or more. *)
Theorem msm_to_tds_image (d : timedelta) :
  (exists td_str, msm_to_tds td_str = Ok d) <-> 0 <= d < 3600000000.
Proof.
  split.
  - intros (td_str & H). pose proof (msm_to_tds_inv td_str) as Hinv.
    rewrite H in Hinv. destruct Hinv as (m & sec & f & Hwf & _ & ->).
    apply duration_bounds, Hwf.
  - intros Hd. destruct (padded_fields d Hd) as [Hwf Hdur].
    exists (text (TimedeltaStr.zero_padded 2 (d / 60000000))
              (TimedeltaStr.zero_padded 2 (d / 1000000 mod 60))
              (TimedeltaStr.zero_padded 6 (d mod 1000000))).
    rewrite (msm_to_tds_text _ _ _ Hwf), Hdur. reflexivity.
Qed.

(** *** Printed durations *)

Lemma occurrences_app (c : ascii) (a b : string) :
  occurrences c (a ++ b) = (occurrences c a + occurrences c b)%nat.
Proof.
  induction a as [| x a IH]; cbn [append occurrences]; [reflexivity |].
  rewrite IH. lia.
Qed.

Lemma occurrences_digits (c : ascii) (s : string) :
  is_digit c = false -> all_digits s = true -> occurrences c s = 0%nat.
Proof.
  intros Hc. induction s as [| x s IH]; intros Hd; [reflexivity |].
  cbn [all_digits] in Hd. apply andb_true_iff in Hd. destruct Hd as [Hx Hs].
  cbn [occurrences]. rewrite (digit_not_char x c Hx Hc), IH by exact Hs.
  reflexivity.
Qed.

(** A text that [msm_to_tds] reads has one colon and one point. *)
Lemma text_occurrences (m sec f : string) :
  well_formed m sec f ->
  occurrences ":" (text m sec f) = 1%nat
  /\ occurrences "." (text m sec f) = 1%nat.
Proof.
  intros (M1 & S1 & F1 & _). unfold text.
  rewrite !occurrences_app.
  rewrite (occurrences_digits ":" m), (occurrences_digits ":" sec),
    (occurrences_digits ":" f), (occurrences_digits "." m),
    (occurrences_digits "." sec), (occurrences_digits "." f)
    by (assumption || reflexivity).
  split; reflexivity.
Qed.

(** A printed duration has two colons at least. *)
Lemma str_colons (td : timedelta) :
  (2 <= occurrences ":" (TimedeltaStr.str td))%nat.
Proof.
  unfold TimedeltaStr.str. cbv zeta.
  destruct (td mod Timedelta.us_per_second =? 0),
    (td / Timedelta.us_per_day =? 0);
    rewrite !occurrences_app; cbn [occurrences Ascii.eqb Bool.eqb]; lia.
Qed.

(** [msm_to_tds] reads no duration as [main] prints it: the printed text
    starts with the hours, and [msm_to_tds] raises [ValueError] on it. *)
Theorem printed_duration_rejected (td : timedelta) :
  msm_to_tds (TimedeltaStr.str td) = Raise ValueError.
Proof.
  pose proof (msm_to_tds_inv (TimedeltaStr.str td)) as Hinv.
  destruct (msm_to_tds (TimedeltaStr.str td)) as [d | e];
    [| rewrite Hinv; reflexivity].
  destruct Hinv as (m & sec & f & Hwf & Htext & _).
  pose proof (str_colons td) as H2.
  destruct (text_occurrences m sec f Hwf) as [H1 _].
  rewrite Htext in H2. lia.
Qed.

Lemma append_empty_r (s : string) : s ++ "" = s.
Proof. induction s as [| c s IH]; cbn [append]; [| rewrite IH]; reflexivity. Qed.

(** The fields of a duration under one hour as [str] computes them. *)
Lemma str_under_one_hour (d : timedelta) :
  0 <= d < 3600000000 ->
  TimedeltaStr.str d
  = "0:" ++ TimedeltaStr.zero_padded 2 (d / 60000000) ++ ":"
    ++ TimedeltaStr.zero_padded 2 (d / 1000000 mod 60)
    ++ (if d mod 1000000 =? 0 then ""
        else "." ++ TimedeltaStr.zero_padded 6 (d mod 1000000)).
Proof.
  intros Hd. unfold TimedeltaStr.str. cbv zeta.
  change Timedelta.us_per_day with 86400000000.
  change Timedelta.us_per_second with 1000000.
  rewrite (Z.div_small d 86400000000), (Z.mod_small d 86400000000) by lia.
  rewrite (Z.div_div d 1000000 60) by lia.
  change (1000000 * 60) with 60000000.
  assert (Hm : 0 <= d / 60000000 < 60).
  { split; [apply Z.div_pos; lia | apply Z.div_lt_upper_bound; lia]. }
  rewrite (Z.div_small (d / 60000000) 60), (Z.mod_small (d / 60000000) 60)
    by lia.
  change (0 =? 0) with true. cbv iota.
  change (TimedeltaStr.decimal 0) with "0".
  destruct (d mod 1000000 =? 0).
  - rewrite append_empty_r. cbn [append]. reflexivity.
  - rewrite !append_assoc. cbn [append]. reflexivity.
Qed.

(** What is left of a printed duration under one hour when the hours in
    front are dropped: with a fraction of a second it is a text that
    [msm_to_tds] reads, and reads as the duration printed; a duration of
    whole seconds is printed without a fraction, which [msm_to_tds] does
    not read. *)
Theorem printed_duration_read_back (d : timedelta) :
  0 <= d < 3600000000 ->
  exists t,
    TimedeltaStr.str d = "0:" ++ t
    /\ msm_to_tds t
       = if d mod 1000000 =? 0 then Raise ValueError else Ok d.
Proof.
  intros Hd. rewrite (str_under_one_hour d Hd).
  destruct (padded_fields d Hd) as [Hwf Hdur].
  eexists. split; [reflexivity |].
  destruct (d mod 1000000 =? 0).
  - rewrite append_empty_r.
    set (t := TimedeltaStr.zero_padded 2 (d / 60000000) ++ ":"
              ++ TimedeltaStr.zero_padded 2 (d / 1000000 mod 60)).
    pose proof (msm_to_tds_inv t) as Hinv.
    destruct (msm_to_tds t) as [d' | e]; [| rewrite Hinv; reflexivity].
    destruct Hinv as (m & sec & f & Hwf' & Htext & _).
    destruct (text_occurrences m sec f Hwf') as [_ H1].
    rewrite <- Htext in H1. unfold t in H1.
    destruct Hwf as (M1 & S1 & _).
    rewrite !occurrences_app in H1.
    rewrite (occurrences_digits "." _ eq_refl M1),
      (occurrences_digits "." _ eq_refl S1) in H1.
    discriminate H1.
  - change (msm_to_tds
              (text (TimedeltaStr.zero_padded 2 (d / 60000000))
                 (TimedeltaStr.zero_padded 2 (d / 1000000 mod 60))
                 (TimedeltaStr.zero_padded 6 (d mod 1000000))) = Ok d).
    rewrite (msm_to_tds_text _ _ _ Hwf), Hdur. reflexivity.
Qed.

Lemma printed_duration_read_back_witness :
  exists t,
    TimedeltaStr.str 105235000 = "0:" ++ t
    /\ msm_to_tds t = Ok 105235000.
Proof.
  apply (printed_duration_read_back 105235000). lia.
Defined.

(** ** Where the exceptions come from *)

Lemma bind_raise {A B : Type} (c : result A) (k : A -> result B) (e : exn) :
  bind c k = Raise e ->
  c = Raise e \/ exists a, c = Ok a /\ k a = Raise e.
Proof.
  destruct c as [a | e']; cbn [bind]; intros H.
  - right. exists a. split; [reflexivity | exact H].
  - left. injection H as <-. reflexivity.
Qed.

(** Splits a hypothesis [x <- c ;; k = Raise e]: either [c] raises, or it
    returns and what follows raises. *)
Ltac bind_err H :=
  let a := fresh "v" in
  let Ha := fresh "E" in
  apply bind_raise in H; destruct H as [H | (a & Ha & H)].

Lemma make_raise (us : Z) (e : exn) :
  Timedelta.make us = Raise e -> arithmetic e = true.
Proof.
  unfold Timedelta.make. destruct (Timedelta.in_range us); intros H;
    [discriminate H | injection H as <-; reflexivity].
Qed.

Lemma div_int_raise (td n : Z) (e : exn) :
  Timedelta.div_int td n = Raise e -> arithmetic e = true.
Proof.
  unfold Timedelta.div_int. destruct (n =? 0); intros H;
    [injection H as <-; reflexivity | exact (make_raise _ _ H)].
Qed.

Lemma round_raise (q : Q) (e : exn) :
  match round q with
  | S754_infinity _ => Raise OverflowError
  | x => Ok x
  end = Raise e -> arithmetic e = true.
Proof.
  generalize (round q). intros x H.
  destruct x; [discriminate H | injection H as <-; reflexivity
               | discriminate H | discriminate H].
Qed.

Lemma of_int_raise (n : Z) (e : exn) :
  of_int n = Raise e -> arithmetic e = true.
Proof. apply round_raise. Qed.

Lemma int_truediv_raise (a b : Z) (e : exn) :
  int_truediv a b = Raise e -> arithmetic e = true.
Proof.
  unfold int_truediv. destruct (b =? 0); intros H;
    [injection H as <-; reflexivity |].
  destruct (a =? 0); [discriminate H | exact (round_raise _ _ H)].
Qed.

Lemma div_raise (x y : float) (e : exn) :
  Float.div x y = Raise e -> arithmetic e = true.
Proof.
  unfold Float.div. intros H.
  destruct x, y; try discriminate H; injection H as <-; reflexivity.
Qed.

Lemma ceil_raise (x : float) (e : exn) :
  ceil x = Raise e -> arithmetic e = true.
Proof.
  unfold ceil. intros H.
  destruct x; try discriminate H; injection H as <-; reflexivity.
Qed.

Lemma as_integer_ratio_raise (x : float) (e : exn) :
  as_integer_ratio x = Raise e -> arithmetic e = true.
Proof.
  unfold as_integer_ratio. intros H.
  destruct x; try discriminate H; injection H as <-; reflexivity.
Qed.

Lemma mul_float_raise (td : timedelta) (x : float) (e : exn) :
  Timedelta.mul_float td x = Raise e -> arithmetic e = true.
Proof.
  unfold Timedelta.mul_float. intros H. bind_err H.
  - exact (as_integer_ratio_raise _ _ H).
  - destruct v as [n d]. exact (make_raise _ _ H).
Qed.

Lemma of_seconds_raise (x : float) (e : exn) :
  Timedelta.of_seconds x = Raise e -> arithmetic e = true.
Proof.
  unfold Timedelta.of_seconds. intros H.
  destruct x as [s | s | | s m ex];
    [| injection H as <-; reflexivity | injection H as <-; reflexivity |].
  - destruct (modf (S754_zero s)) as [i fr].
    destruct (Qeq_bool fr 0); [exact (make_raise _ _ H) |].
    destruct (modf _) as [i' left].
    destruct (Qeq_bool left 0); exact (make_raise _ _ H).
  - destruct (modf (S754_finite s m ex)) as [i fr].
    destruct (Qeq_bool fr 0); [exact (make_raise _ _ H) |].
    destruct (modf _) as [i' left].
    destruct (Qeq_bool left 0); exact (make_raise _ _ H).
Qed.

Lemma mapM_raise {A B : Type} (f : A -> result B) (l : list A) (e : exn) :
  mapM f l = Raise e -> exists a, In a l /\ f a = Raise e.
Proof.
  induction l as [| a l IH]; cbn [mapM]; intros H; [discriminate H |].
  bind_err H.
  - exists a. split; [left; reflexivity | exact H].
  - bind_err H; [| discriminate H].
    destruct (IH H) as (a' & Hin & Ha').
    exists a'. split; [right; exact Hin | exact Ha'].
Qed.

(** [mean] raises [StatisticsError] on no data only. *)
Lemma mean_raise (data : list float) (e : exn) :
  Statistics.mean data = Raise e ->
  arithmetic e = true \/ (e = StatisticsError /\ data = []).
Proof.
  unfold Statistics.mean. intros H.
  destruct data as [| x data].
  - right. injection H as <-. split; reflexivity.
  - left. destruct (filter _ (x :: data)) as [| s ss].
    + exact (int_truediv_raise _ _ _ H).
    + bind_err H; [exact (of_int_raise _ _ H) | exact (div_raise _ _ _ H)].
Qed.

Lemma get_raise {V : Type} (d : Dict.dict V) (k : string) (e : exn) :
  Dict.get d k = Raise e -> e = KeyError /\ Dict.lookup d k = None.
Proof.
  unfold Dict.get. destruct (Dict.lookup d k); intros H;
    [discriminate H | injection H as <-; split; reflexivity].
Qed.

Lemma known_strategy_deterioration (k : string) :
  Dict.lookup TYRE_DETERIORATION k = None -> known_strategy k = false.
Proof.
  unfold TYRE_DETERIORATION, known_strategy. cbn [Dict.lookup].
  destruct (String.eqb k "soft_50"); [intros H; discriminate H |].
  destruct (String.eqb k "med_50"); [intros H; discriminate H |].
  destruct (String.eqb k "med_99"); [intros H; discriminate H |].
  reflexivity.
Qed.

(** What can go wrong with the lap time of a strategy. *)
Lemma deteriorated_lap_time_raise
  (strat : string) (lap_times : list timedelta) (e : exn) :
  deteriorated_lap_time strat lap_times = Raise e ->
  arithmetic e = true
  \/ (e = StatisticsError /\ lap_times = [])
  \/ (e = KeyError /\ known_strategy strat = false).
Proof.
  unfold deteriorated_lap_time. intros H.
  bind_err H.
  { left. destruct (mapM_raise _ _ _ H) as (a & _ & Ha).
    exact (int_truediv_raise _ _ _ Ha). }
  bind_err H.
  { destruct (mean_raise _ _ H) as [Ha | [He Hnil]]; [left; exact Ha |].
    right. left. split; [exact He |].
    subst v. destruct lap_times as [| t l]; [reflexivity |].
    cbn [mapM] in E. bind_inv E. bind_inv E. discriminate E. }
  bind_err H; [left; exact (of_seconds_raise _ _ H) |].
  bind_err H; [left; exact (div_int_raise _ _ _ H) |].
  bind_err H.
  { right. right. destruct (get_raise _ _ _ H) as [He Hk].
    split; [exact He | exact (known_strategy_deterioration _ Hk)]. }
  left.
  bind_err H; [exact (of_int_raise _ _ H) |].
  bind_err H; [exact (div_raise _ _ _ H) |].
  bind_err H; [exact (mul_float_raise _ _ _ H) |].
  exact (make_raise _ _ H).
Qed.

Lemma calculate_laps_full_raise (race_time lap_time : timedelta) (e : exn) :
  calculate_laps race_time lap_time true = Raise e -> arithmetic e = true.
Proof.
  cbn [calculate_laps]. intros H.
  bind_err H; [exact (int_truediv_raise _ _ _ H) | exact (ceil_raise _ _ H)].
Qed.

Lemma calculate_laps_float_raise (race_time lap_time : timedelta) (e : exn) :
  calculate_laps race_time lap_time false = Raise e -> arithmetic e = true.
Proof.
  cbn [calculate_laps]. intros H.
  bind_err H; [exact (int_truediv_raise _ _ _ H) | discriminate H].
Qed.

Lemma calculate_fuel_raise (litres_per_lap : float) (laps : Z) (e : exn) :
  calculate_fuel litres_per_lap laps = Raise e -> arithmetic e = true.
Proof.
  unfold calculate_fuel. intros H.
  bind_err H; [exact (of_int_raise _ _ H) |].
  bind_err H; [exact (of_int_raise _ _ H) | exact (ceil_raise _ _ H)].
Qed.

Lemma get_pit_stop_time_raise (strategy : string) (litres : Z) (e : exn) :
  get_pit_stop_time_for_strategy strategy litres = Raise e ->
  arithmetic e = true \/ (e = KeyError /\ known_strategy strategy = false).
Proof.
  unfold get_pit_stop_time_for_strategy. intros H.
  bind_err H; [left; exact (make_raise _ _ H) |].
  bind_err H; [left; exact (div_int_raise _ _ _ H) |].
  bind_err H; [left; exact (div_int_raise _ _ _ H) |].
  right. destruct (get_raise _ _ _ H) as [He Hk]. split; [exact He |].
  unfold known_strategy. cbn [Dict.lookup] in Hk.
  destruct (String.eqb strategy "soft_50"); [discriminate Hk |].
  destruct (String.eqb strategy "med_50"); [discriminate Hk |].
  destruct (String.eqb strategy "med_99"); [discriminate Hk |].
  reflexivity.
Qed.

Lemma calculate_lost_time_raise (stop transit : timedelta) (e : exn) :
  calculate_lost_time stop transit = Raise e -> arithmetic e = true.
Proof.
  unfold calculate_lost_time. intros H.
  bind_err H; exact (make_raise _ _ H).
Qed.

Lemma strategy_result_raise
  (race_time : timedelta) (litres_per_lap : float)
  (time_lost_driving_through_pits : timedelta) (strat : string)
  (raw_lap_time : timedelta) (naive_laps naive_fuel : Z) (e : exn) :
  strategy_result race_time litres_per_lap time_lost_driving_through_pits
    strat raw_lap_time naive_laps naive_fuel = Raise e ->
  arithmetic e = true \/ (e = KeyError /\ known_strategy strat = false).
Proof.
  unfold strategy_result. intros H.
  bind_err H; [exact (get_pit_stop_time_raise _ _ _ H) |].
  left.
  bind_err H; [exact (calculate_lost_time_raise _ _ _ H) |].
  bind_err H; [exact (div_int_raise _ _ _ H) |].
  bind_err H; [exact (make_raise _ _ H) |].
  bind_err H; [exact (calculate_laps_full_raise _ _ _ H) |].
  bind_err H; [exact (calculate_laps_float_raise _ _ _ H) |].
  bind_err H; [exact (ceil_raise _ _ H) |].
  bind_err H; [exact (of_int_raise _ _ H) |].
  bind_err H; [exact (calculate_fuel_raise _ _ _ H) |].
  bind_err H; [exact (make_raise _ _ H) |].
  bind_err H; [exact (make_raise _ _ H) | discriminate H].
Qed.

Lemma evaluate_strategy_raise
  (race_time : timedelta) (litres_per_lap : float)
  (time_lost_driving_through_pits : timedelta) (strat : string)
  (lap_times : list timedelta) (e : exn) :
  evaluate_strategy race_time litres_per_lap time_lost_driving_through_pits
    strat lap_times = Raise e ->
  arithmetic e = true
  \/ (e = StatisticsError /\ lap_times = [])
  \/ (e = KeyError /\ known_strategy strat = false).
Proof.
  unfold evaluate_strategy. intros H.
  bind_err H; [exact (deteriorated_lap_time_raise _ _ _ H) |].
  bind_err H.
  { left. unfold naive_estimate in H.
    bind_err H; [exact (calculate_laps_full_raise _ _ _ H) |].
    bind_err H; [exact (calculate_fuel_raise _ _ _ H) | discriminate H]. }
  destruct v0 as [naive_laps naive_fuel].
  destruct (strategy_result_raise _ _ _ _ _ _ _ _ H) as [Ha | Hk];
    [left; exact Ha | right; right; exact Hk].
Qed.

Lemma evaluate_all_raise
  (race_time : timedelta) (litres_per_lap : float)
  (time_lost_driving_through_pits : timedelta)
  (items : list (string * list timedelta)) (e : exn) :
  forall out0,
  evaluate_all race_time litres_per_lap time_lost_driving_through_pits
    items out0 = Raise e ->
  exists k l,
    In (k, l) items
    /\ evaluate_strategy race_time litres_per_lap
         time_lost_driving_through_pits k l = Raise e.
Proof.
  induction items as [| [strat lap_times] items IH]; intros out0 H.
  - discriminate H.
  - cbn [evaluate_all] in H. bind_err H.
    + exists strat, lap_times. split; [left; reflexivity | exact H].
    + destruct (IH _ H) as (k & l & Hin & Hk).
      exists k, l. split; [right; exact Hin | exact Hk].
Qed.

Lemma get_strategies_raise
  (race_time : timedelta) (strategies_to_times : Dict.dict (list timedelta))
  (litres_per_lap : float) (time_lost_driving_through_pits : timedelta)
  (e : exn) :
  get_strategies race_time strategies_to_times litres_per_lap
    time_lost_driving_through_pits = Raise e ->
  arithmetic e = true
  \/ (e = StatisticsError /\ exists k, In (k, []) strategies_to_times)
  \/ (e = KeyError
      /\ exists k l, In (k, l) strategies_to_times
                     /\ known_strategy k = false).
Proof.
  unfold get_strategies. intros H. bind_err H; [| discriminate H].
  destruct (evaluate_all_raise _ _ _ _ _ _ H) as (k & l & Hin & Hk).
  destruct (evaluate_strategy_raise _ _ _ _ _ _ Hk)
    as [Ha | [[He Hnil] | [He Hun]]].
  - left. exact Ha.
  - right. left. split; [exact He |]. exists k. rewrite <- Hnil. exact Hin.
  - right. right. split; [exact He |]. exists k, l. split; assumption.
Qed.

(** When [get_strategies] raises, it is an exception of arithmetic
    ([ZeroDivisionError], [OverflowError] or [ValueError]), or
    [StatisticsError] with a strategy of the input that has no lap time,
    or [KeyError] with a strategy of the input that is none of the
    three. *)
Theorem get_strategies_exceptions
  (race_time : timedelta) (strategies_to_times : Dict.dict (list timedelta))
  (litres_per_lap : float) (time_lost_driving_through_pits : timedelta)
  (e : exn) :
  get_strategies race_time strategies_to_times litres_per_lap
    time_lost_driving_through_pits = Raise e ->
  arithmetic e = true
  \/ (e = StatisticsError /\ exists k, In (k, []) strategies_to_times)
  \/ (e = KeyError
      /\ exists k l, In (k, l) strategies_to_times
                     /\ known_strategy k = false).
Proof. apply get_strategies_raise. Qed.

Lemma get_strategies_exceptions_witness :
  arithmetic StatisticsError = true
  \/ (StatisticsError = StatisticsError
      /\ exists k, In (k, []) [("soft_50", [] : list timedelta)])
  \/ (StatisticsError = KeyError
      /\ exists k l, In (k, l) [("soft_50", [] : list timedelta)]
                     /\ known_strategy k = false).
Proof.
  apply (get_strategies_exceptions 3600000000 [("soft_50", [])]
           (literal 3 1) 10000000 StatisticsError).
  vm_compute. reflexivity.
Defined.

(** ** The strategies [main] evaluates *)

(** The dictionary [main] builds holds the strategies that were given at
    least one lap time, with these lap times, in the order soft-50,
    med-50, med-99. *)
Lemma main_strategies_to_times_In (args : Namespace.t) :
  Dict.wf (main_strategies_to_times args)
  /\ Dict.keys (main_strategies_to_times args)
     = filter
         (fun k =>
            match Namespace.getattr args k with
            | Some (_ :: _) => true
            | _ => false
            end)
         ["soft_50"; "med_50"; "med_99"]
  /\ forall k l,
       In (k, l) (main_strategies_to_times args)
       <-> Namespace.getattr args k = Some l /\ l <> [].
Proof.
  destruct args as [lpl pits rt s50 m50 m99].
  unfold main_strategies_to_times, Namespace.getattr, STRATEGY_ARGS, Dict.wf.
  cbn [fold_left replace Ascii.eqb Bool.eqb String.eqb Namespace.soft_50
       Namespace.med_50 Namespace.med_99 filter].
  destruct s50 as [[| t1 l1] |], m50 as [[| t2 l2] |], m99 as [[| t3 l3] |];
    cbn [Dict.set String.eqb Ascii.eqb Bool.eqb Dict.keys map fst].
  all: split; [repeat constructor; cbn [In]; intuition discriminate |].
  all: split; [reflexivity |].
  all: intros k l; cbn [In]; split.
  all: try (intros [H Hl];
            destruct (String.eqb_spec k "soft_50") as [-> | _];
            [try discriminate H; injection H as <-; tauto |];
            destruct (String.eqb_spec k "med_50") as [-> | _];
            [try discriminate H; injection H as <-; tauto |];
            destruct (String.eqb_spec k "med_99") as [-> | _];
            [try discriminate H; injection H as <-; tauto |];
            discriminate H).
  all: intros H; repeat (destruct H as [H | H]); try contradiction.
  all: injection H as <- <-; cbn [String.eqb Ascii.eqb Bool.eqb];
    (split; [reflexivity | intros Hl; discriminate Hl]).
Qed.

(** Lines 199-205 of [main] leave out the strategies without a lap time
    and keep the others in the order of [STRATEGY_ARGS]. *)
Theorem main_strategies_to_times_given (args : Namespace.t) :
  Dict.wf (main_strategies_to_times args)
  /\ Dict.keys (main_strategies_to_times args)
     = filter
         (fun k =>
            match Namespace.getattr args k with
            | Some (_ :: _) => true
            | _ => false
            end)
         ["soft_50"; "med_50"; "med_99"]
  /\ forall k l,
       In (k, l) (main_strategies_to_times args)
       <-> Namespace.getattr args k = Some l /\ l <> [].
Proof. apply main_strategies_to_times_In. Qed.

Lemma getattr_known (args : Namespace.t) (k : string) (l : list timedelta) :
  Namespace.getattr args k = Some l -> known_strategy k = true.
Proof.
  unfold Namespace.getattr, known_strategy.
  destruct (String.eqb k "soft_50"); [reflexivity |].
  destruct (String.eqb k "med_50"); [reflexivity |].
  destruct (String.eqb k "med_99"); [reflexivity |].
  intros H. discriminate H.
Qed.

(** What [main] gets from [get_strategies]: results for the strategies
    that were given a lap time, for these only and for each of them once;
    or an exception of arithmetic, never a [KeyError] or a
    [StatisticsError]. *)
Theorem main_strategies_evaluated (args : Namespace.t) :
  match main_strategies args with
  | Ok out =>
      Dict.wf out
      /\ forall k,
           In k (Dict.keys out)
           <-> exists t times,
                 Namespace.getattr args k = Some (t :: times)
  | Raise e => arithmetic e = true
  end.
Proof.
  destruct (main_strategies_to_times_In args) as (Hwf & _ & Hin).
  unfold main_strategies.
  destruct (get_strategies _ _ _ _) as [out | e] eqn:H.
  - destruct (get_strategies_keys_inv _ _ _ _ _ Hwf H) as (Hperm & Hwf' & _).
    split; [exact Hwf' |]. intros k. split.
    + intros Hk. apply (Permutation_in _ Hperm) in Hk.
      unfold Dict.keys in Hk. apply in_map_iff in Hk.
      destruct Hk as ([k' l] & <- & Hkl). cbn [fst].
      apply Hin in Hkl. destruct Hkl as [Hg Hl].
      destruct l as [| t times]; [contradiction |].
      exists t, times. exact Hg.
    + intros (t & times & Hg).
      apply (Permutation_in _ (Permutation_sym Hperm)).
      unfold Dict.keys. apply in_map_iff.
      exists (k, t :: times). split; [reflexivity |].
      apply Hin. split; [exact Hg | intros Hl; discriminate Hl].
  - destruct (get_strategies_raise _ _ _ _ _ H)
      as [Ha | [[_ (k & Hk)] | [_ (k & l & Hk & Hun)]]].
    + exact Ha.
    + apply Hin in Hk. destruct Hk as [_ Hl]. contradiction.
    + apply Hin in Hk. destruct Hk as [Hg _].
      rewrite (getattr_known _ _ _ Hg) in Hun. discriminate Hun.
Qed.

(** ** When the evaluation returns *)

(** Rounding a rational between zero and an integer below [2^prec] gives
    a finite float in the same bounds. *)
Lemma round_bounded (q : Q) (N : Z) :
  (0 <= q)%Q -> (q <= inject_Z N)%Q -> N < 2 ^ prec ->
  is_finite (round q) = true
  /\ (0 <= F2Q (round q))%Q /\ (F2Q (round q) <= inject_Z N)%Q.
Proof.
  intros H0 HN Hp.
  assert (HN0 : 0 <= N).
  { rewrite Zle_Qle. change (inject_Z 0) with 0%Q. lra. }
  destruct (round_exact_int N) as [FN VN];
    [rewrite Z.abs_eq by exact HN0; exact Hp |].
  pose proof (round_nonneg q H0) as Hz.
  pose proof (round_monotone q (inject_Z N) H0 HN) as Hle.
  pose proof (finite_between _ _ Hz Hle FN) as F.
  split; [exact F |]. split.
  - apply leb_zero_nonneg; assumption.
  - apply (leb_finite _ _ F FN) in Hle. rewrite VN in Hle. exact Hle.
Qed.

(** A rational of at least a power of two of the format does not round
    below it. *)
Lemma round_above (q : Q) (e : Z) :
  emin <= e <= emax - prec -> (pow2 e <= q)%Q ->
  is_finite (round q) = true -> (pow2 e <= F2Q (round q))%Q.
Proof.
  intros He Hq F.
  destruct (round_exact 1 e) as [F1 V1]; [reflexivity | exact He |].
  pose proof (pow2_pos e) as Hp.
  assert (Hle : leb (round (inject_Z 1 * pow2 e)) (round q) = true).
  { apply round_monotone.
    - change (inject_Z 1) with 1%Q. lra.
    - change (inject_Z 1) with 1%Q. lra. }
  apply (leb_finite _ _ F1 F) in Hle. rewrite V1 in Hle.
  change (inject_Z 1) with 1%Q in Hle. lra.
Qed.

Lemma Qdiv_upper_bound (a b N : Z) :
  0 <= a -> 0 < b -> a <= N * b ->
  (0 <= inject_Z a / inject_Z b)%Q
  /\ (inject_Z a / inject_Z b <= inject_Z N)%Q.
Proof.
  intros Ha Hb HN.
  pose proof (inject_Z_pos b Hb) as Qb.
  split.
  - apply Qle_shift_div_l; [exact Qb |]. rewrite Qmult_0_l.
    change 0%Q with (inject_Z 0). rewrite <- Zle_Qle. exact Ha.
  - apply Qle_shift_div_r; [exact Qb |].
    rewrite <- inject_Z_mult, <- Zle_Qle. exact HN.
Qed.

(** The quotient of two integers, when it is bounded. *)
Lemma int_truediv_returns (a b N : Z) :
  0 <= a -> 0 < b -> a <= N * b -> N < 2 ^ prec ->
  exists x,
    int_truediv a b = Ok x /\ is_finite x = true
    /\ (0 <= F2Q x)%Q /\ (F2Q x <= inject_Z N)%Q
    /\ (a <> 0 -> x = round (inject_Z a / inject_Z b)).
Proof.
  intros Ha Hb HN Hp.
  destruct (Qdiv_upper_bound a b N Ha Hb HN) as [Q0 Q1].
  unfold int_truediv.
  destruct (Z.eqb_spec b 0) as [Hz | _]; [lia |].
  destruct (Z.eqb_spec a 0) as [-> | Hnz].
  - exists (S754_zero (b <? 0)). split; [reflexivity |].
    split; [reflexivity |]. cbn [F2Q].
    split; [lra |]. split; [lra | intros H; contradiction].
  - destruct (round_bounded _ N Q0 Q1 Hp) as (F & V0 & V1).
    exists (round (inject_Z a / inject_Z b)).
    split; [| split; [exact F | split; [exact V0 | split;
                                        [exact V1 | reflexivity]]]].
    generalize dependent (round (inject_Z a / inject_Z b)).
    intros x F _ _. destruct x; [reflexivity | discriminate F
                                 | discriminate F | reflexivity].
Qed.

Lemma divide_and_round_le (a b : Z) :
  0 <= a -> 1 <= b -> 0 <= divide_and_round a b <= a.
Proof.
  intros Ha Hb. split; [apply divide_and_round_nonneg; lia |].
  rewrite <- (divide_and_round_mul a b) at 2 by lia.
  apply divide_and_round_monotone; [lia | nia].
Qed.

Lemma mapM_returns {A B : Type} (f : A -> result B) (P : B -> Prop)
  (l : list A) :
  Forall (fun a => exists b, f a = Ok b /\ P b) l ->
  exists l',
    mapM f l = Ok l' /\ Forall P l' /\ List.length l' = List.length l.
Proof.
  induction 1 as [| a l (b & Hb & Pb) _ (l' & Hl' & Pl' & Hlen)].
  - exists []. split; [reflexivity |]. split; [constructor | reflexivity].
  - exists (b :: l'). cbn [mapM]. rewrite Hb, Hl'. cbn [bind].
    split; [reflexivity |]. split; [constructor; assumption |].
    cbn [List.length]. rewrite Hlen. reflexivity.
Qed.

(** A sample under an hour, in seconds. *)
Lemma total_seconds_returns (t : timedelta) :
  0 < t < 3600000000 ->
  exists x,
    Timedelta.total_seconds t = Ok x
    /\ is_finite x = true
    /\ (F2Q (round (1 # 1000000)) <= F2Q x)%Q
    /\ (F2Q x <= inject_Z 3600)%Q.
Proof.
  intros Ht. unfold Timedelta.total_seconds, Timedelta.us_per_second.
  destruct (int_truediv_returns t 1000000 3600) as (x & Hx & F & _ & V & _);
    [lia | lia | lia | reflexivity |].
  exists x. split; [exact Hx |]. split; [exact F |].
  split; [| exact V].
  apply (total_seconds_pos t x); [lia | exact Hx].
Qed.

Lemma Qsum_upper_bound (c : Q) (data : list float) :
  Forall (fun x => (F2Q x <= c)%Q) data ->
  (Statistics.Qsum (map F2Q data)
   <= inject_Z (Z.of_nat (List.length data)) * c)%Q.
Proof.
  induction 1 as [| x l Hx _ IH].
  - cbn [map Statistics.Qsum List.length].
    change (inject_Z (Z.of_nat 0)) with 0%Q. lra.
  - cbn [map Statistics.Qsum List.length].
    rewrite Nat2Z.inj_succ. unfold Z.succ. rewrite inject_Z_plus.
    change (inject_Z 1) with 1%Q. lra.
Qed.

(** The mean of finite data between a positive bound and an integer. *)
Lemma mean_returns (c : Q) (N : Z) (data : list float) :
  (0 < c)%Q -> N < 2 ^ prec -> data <> [] ->
  Forall (fun x => is_finite x = true
                   /\ (c <= F2Q x)%Q /\ (F2Q x <= inject_Z N)%Q) data ->
  exists m,
    Statistics.mean data = Ok m /\ is_finite m = true
    /\ leb (round c) m = true /\ (F2Q m <= inject_Z N)%Q.
Proof.
  intros Hc Hp Hne Hall.
  assert (Hlow : Forall (fun x => is_finite x = true /\ (c <= F2Q x)%Q) data).
  { eapply Forall_impl; [| exact Hall]. intros x (F & L & _). tauto. }
  assert (Hret : exists m, Statistics.mean data = Ok m
                           /\ (F2Q m <= inject_Z N)%Q).
  { unfold Statistics.mean.
    destruct data as [| x0 data0] eqn:Edata; [contradiction |].
    rewrite <- Edata in *.
    assert (Hlen : 1 <= Z.of_nat (List.length data))
      by (rewrite Edata; cbn [List.length]; lia).
    clear Edata x0 data0 Hne.
    rewrite filter_all_false.
    2:{ eapply Forall_impl; [| exact Hall]. intros x (Fx & _).
        rewrite Fx. reflexivity. }
    set (n := Z.of_nat (List.length data)) in *.
    set (total := Qred (Statistics.Qsum (map F2Q data))).
    set (avg := Qred (total / inject_Z n)).
    assert (Hn : (0 < inject_Z n)%Q) by (apply inject_Z_pos; lia).
    assert (Hlo : (inject_Z n * c <= Statistics.Qsum (map F2Q data))%Q).
    { apply Qsum_lower_bound. eapply Forall_impl; [| exact Hall].
      intros x (_ & Hx & _). exact Hx. }
    assert (Hup : (Statistics.Qsum (map F2Q data)
                   <= inject_Z n * inject_Z N)%Q).
    { apply Qsum_upper_bound. eapply Forall_impl; [| exact Hall].
      intros x (_ & _ & Hx). exact Hx. }
    assert (Havg : (c <= avg)%Q /\ (avg <= inject_Z N)%Q).
    { unfold avg, total. rewrite !Qred_correct. split.
      - apply Qle_shift_div_l; [exact Hn |]. rewrite Qmult_comm. exact Hlo.
      - apply Qle_shift_div_r; [exact Hn |]. rewrite Qmult_comm. exact Hup. }
    assert (Hval : (inject_Z (Qnum avg) / inject_Z (Zpos (Qden avg))
                    == avg)%Q).
    { rewrite <- Qmake_Qdiv. destruct avg; reflexivity. }
    clearbody avg. destruct Havg as [Ha0 Ha1].
    assert (Hnum : 0 < Qnum avg).
    { assert (H0 : (0 < avg)%Q) by lra.
      unfold Qlt in H0. cbn [Qnum Qden] in H0. lia. }
    assert (Hbound : Qnum avg <= N * Zpos (Qden avg)).
    { unfold Qle in Ha1. cbn [Qnum Qden inject_Z] in Ha1. lia. }
    destruct (int_truediv_returns (Qnum avg) (Zpos (Qden avg)) N)
      as (m & Hm & _ & _ & V & _);
      [lia | reflexivity | exact Hbound | exact Hp |].
    exists m. split; [exact Hm | exact V]. }
  destruct Hret as (m & Hm & V).
  destruct (mean_lower_bound c data m Hc Hlow Hm) as [F L].
  exists m. repeat split; assumption.
Qed.

Lemma c_round_le_one (q : Q) :
  (0 <= q)%Q -> (q < 1)%Q -> Timedelta.c_round q <= 1.
Proof.
  intros H0 H1. unfold Timedelta.c_round.
  rewrite (proj2 (Qle_bool_iff 0 q) H0).
  pose proof (Qfloor_le (q + (1 # 2))) as Hf.
  assert (Hlt : (inject_Z (Qfloor (q + (1 # 2))) < inject_Z 2)%Q).
  { change (inject_Z 2) with 2%Q. lra. }
  rewrite <- Zlt_Qlt in Hlt. lia.
Qed.

(** What is added for the part of a microsecond is two at most. *)
Lemma leftover_round_le (y : Z) (leftover : Q) :
  (0 <= leftover)%Q -> (leftover < 1)%Q ->
  (if Qeq_bool (Qabs (inject_Z (Timedelta.c_round leftover) - leftover))
        (1 # 2)
   then 2 * Timedelta.c_round
              ((leftover + inject_Z (Z.land y 1)) * (1 # 2))
        - Z.land y 1
   else Timedelta.c_round leftover) <= 2.
Proof.
  intros H0 H1.
  destruct (Qeq_bool _ _);
    [| pose proof (c_round_le_one leftover H0 H1); lia].
  assert (Hodd : Z.land y 1 = 0 \/ Z.land y 1 = 1).
  { assert (Hl : Z.land y 1 = y mod 2).
    { change 1 with (Z.ones 1). rewrite Z.land_ones by lia. reflexivity. }
    rewrite Hl. pose proof (Z.mod_pos_bound y 2). lia. }
  destruct Hodd as [-> | ->].
  - assert (Timedelta.c_round ((leftover + inject_Z 0) * (1 # 2)) <= 1).
    { apply c_round_le_one; change (inject_Z 0) with 0%Q; lra. }
    lia.
  - assert (Timedelta.c_round ((leftover + inject_Z 1) * (1 # 2)) <= 1).
    { apply c_round_le_one; change (inject_Z 1) with 1%Q; lra. }
    lia.
Qed.

Lemma small_in_range (us : Z) :
  -86399999913600000000 <= us <= 86399999913600000000 ->
  Timedelta.make us = Ok us.
Proof.
  intros H. apply make_in_range, in_range_bounds.
  unfold Timedelta.min_us, Timedelta.max_us, Timedelta.us_per_day,
    Timedelta.us_per_second. lia.
Qed.

(** A mean between a microsecond and an hour, in seconds, as a
    duration. *)
Lemma of_seconds_returns (m : float) :
  is_finite m = true ->
  (F2Q (round (1 # 1000000)) <= F2Q m)%Q -> (F2Q m <= inject_Z 3600)%Q ->
  exists raw, Timedelta.of_seconds m = Ok raw /\ 0 < raw <= 3601000002.
Proof.
  intros Fm Hm Hup.
  assert (Hret : exists raw,
             Timedelta.of_seconds m = Ok raw /\ raw <= 3601000002).
  { destruct microsecond_value as (_ & _ & Hc0 & _).
    assert (Hv : (0 <= F2Q m)%Q) by lra.
    destruct (modf_nonneg m Hv) as (Hi & Hf0 & Hf1 & Hsplit).
    assert (Hbody :
      Timedelta.of_seconds m =
      (let '(intpart, fracpart) := modf m in
       let sum := intpart * Timedelta.us_per_second in
       if Qeq_bool fracpart 0 then Timedelta.make sum
       else
         let dnum := round (inject_Z Timedelta.us_per_second * fracpart) in
         let '(intpart', leftover_us) := modf dnum in
         let y := sum + intpart' in
         if Qeq_bool leftover_us 0 then Timedelta.make y
         else
           let whole_us := Timedelta.c_round leftover_us in
           let whole_us :=
             if Qeq_bool (Qabs (inject_Z whole_us - leftover_us)) (1 # 2)
             then
               let x_is_odd := Z.land y 1 in
               2 * Timedelta.c_round
                     ((leftover_us + inject_Z x_is_odd) * (1 # 2))
               - x_is_odd
             else whole_us in
           Timedelta.make (y + whole_us))).
    { destruct m as [s | s | | s m e];
        [reflexivity | discriminate Fm | discriminate Fm | reflexivity]. }
    rewrite Hbody. clear Hbody.
    assert (Hi3600 : fst (modf m) <= 3600).
    { rewrite Zle_Qle. lra. }
    destruct (modf m) as [intpart fracpart]. cbn [fst snd] in *.
    cbv zeta. unfold Timedelta.us_per_second.
    destruct (Qeq_bool fracpart 0).
    - exists (intpart * 1000000). split; [apply small_in_range; lia | lia].
    - set (dnum := round (inject_Z 1000000 * fracpart)).
      destruct (round_bounded (inject_Z 1000000 * fracpart) 1000000)
        as (Fd & Vd0 & Vd1).
      { apply Qmult_le_0_compat; [discriminate | exact Hf0]. }
      { setoid_replace (inject_Z 1000000) with (inject_Z 1000000 * 1)%Q
          at 2 by ring.
        apply Qmult_le_l; [reflexivity | apply Qlt_le_weak, Hf1]. }
      { reflexivity. }
      fold dnum in Fd, Vd0, Vd1.
      destruct (modf_nonneg dnum Vd0) as (Hi' & Hl0 & Hl1 & Hsplit').
      assert (Hi1 : fst (modf dnum) <= 1000000).
      { rewrite Zle_Qle. lra. }
      destruct (modf dnum) as [intpart' leftover_us]. cbn [fst snd] in *.
      destruct (Qeq_bool leftover_us 0).
      + exists (intpart * 1000000 + intpart').
        split; [apply small_in_range; lia | lia].
      + pose proof (leftover_round_nonneg (intpart * 1000000 + intpart')
                      leftover_us Hl0 Hl1) as Hw0.
        pose proof (leftover_round_le (intpart * 1000000 + intpart')
                      leftover_us Hl0 Hl1) as Hw1.
        eexists. split; [apply small_in_range; lia | lia]. }
  destruct Hret as (raw & Hraw & Hle). exists raw.
  split; [exact Hraw |].
  split; [exact (of_seconds_pos m raw Fm Hm Hraw) | exact Hle].
Qed.

Lemma half_soft_ratio :
  of_int 2 = Ok (round (inject_Z 2))
  /\ Float.div (literal 14 10) (round (inject_Z 2))
     = Ok (S754_finite false 6305039478318694 (-53))
  /\ as_integer_ratio (S754_finite false 6305039478318694 (-53))
     = Ok (3152519739159347, 4503599627370496).
Proof. repeat split; vm_compute; reflexivity. Qed.

Lemma half_med_ratio :
  Float.div (literal 4 10) (round (inject_Z 2))
  = Ok (S754_finite false 7205759403792794 (-55))
  /\ as_integer_ratio (S754_finite false 7205759403792794 (-55))
     = Ok (3602879701896397, 18014398509481984).
Proof. repeat split; vm_compute; reflexivity. Qed.

(** The time added for the deterioration, for a ratio below one. *)
Lemma add_time_returns (raw n d : Z) :
  0 < raw <= 3601000002 -> 0 < n <= d ->
  exists adjusted,
    (hundredth <- Timedelta.div_int raw 100 ;;
     add_time <- Timedelta.make (divide_and_round (hundredth * n) d) ;;
     Timedelta.add raw add_time) = Ok adjusted
    /\ 0 < adjusted <= 7202000004.
Proof.
  intros Hraw Hnd.
  destruct (divide_and_round_le raw 100) as [H0 H1]; [lia | lia |].
  assert (Hadd : 0 <= divide_and_round (divide_and_round raw 100 * n) d
                 <= divide_and_round raw 100).
  { split; [apply divide_and_round_nonneg; nia |].
    rewrite <- (divide_and_round_mul (divide_and_round raw 100) d) at 2
      by lia.
    apply divide_and_round_monotone; [lia | nia]. }
  unfold Timedelta.div_int, Timedelta.add. cbn [Z.eqb].
  rewrite small_in_range by lia. cbn [bind].
  rewrite small_in_range by lia. cbn [bind].
  rewrite small_in_range by lia.
  eexists. split; [reflexivity | lia].
Qed.

Lemma leb_round_value (c m : float) :
  canonical c -> is_finite m = true ->
  leb (round (F2Q c)) m = true -> (F2Q c <= F2Q m)%Q.
Proof.
  intros Hcan Fm Lm.
  destruct (round_canonical_value c Hcan) as [Fc Vc].
  apply (proj1 (leb_finite _ _ Fc Fm)) in Lm.
  rewrite Vc in Lm. exact Lm.
Qed.

(** The adjusted lap time of a known strategy with samples, each positive
    and under an hour. *)
Lemma deteriorated_lap_time_returns
  (strat : string) (lap_times : list timedelta) :
  known_strategy strat = true -> lap_times <> [] ->
  Forall (fun t => 0 < t < 3600000000) lap_times ->
  exists adjusted,
    deteriorated_lap_time strat lap_times = Ok adjusted
    /\ 0 < adjusted <= 7202000004.
Proof.
  intros Hk Hne Hall.
  destruct microsecond_value as (_ & Hcan & Hc0 & _).
  destruct (mapM_returns Timedelta.total_seconds
              (fun x => is_finite x = true
                        /\ (F2Q (round (1 # 1000000)) <= F2Q x)%Q
                        /\ (F2Q x <= inject_Z 3600)%Q) lap_times)
    as (seconds & Hsec & Psec & Hlen).
  { eapply Forall_impl; [| exact Hall]. intros t Ht.
    destruct (total_seconds_returns t Ht) as (x & Hx & P).
    exists x. split; [exact Hx | exact P]. }
  assert (Hne' : seconds <> []).
  { intros ->. destruct lap_times; [contradiction | discriminate Hlen]. }
  destruct (mean_returns _ 3600 seconds Hc0 eq_refl Hne' Psec)
    as (m & Hm & Fm & Lm & Um).
  assert (Lm' : (F2Q (round (1 # 1000000)) <= F2Q m)%Q).
  { exact (leb_round_value (round (1 # 1000000)) m Hcan Fm Lm). }
  destruct (of_seconds_returns m Fm Lm' Um) as (raw & Hraw & Braw).
  destruct half_soft_ratio as (Htwo & Hs1 & Hs2).
  destruct half_med_ratio as (Hm1 & Hm2).
  unfold deteriorated_lap_time.
  rewrite Hsec. cbn [bind]. rewrite Hm. cbn [bind]. rewrite Hraw. cbn [bind].
  unfold known_strategy in Hk.
  unfold Dict.get, TYRE_DETERIORATION. cbn [Dict.lookup].
  destruct (String.eqb strat "soft_50").
  { destruct (add_time_returns raw 3152519739159347 4503599627370496 Braw)
      as (adj & Hadj & Badj); [lia |].
    exists adj. split; [| exact Badj]. rewrite <- Hadj.
    destruct (Timedelta.div_int raw 100) as [h | e]; [| reflexivity].
    cbn [bind]. rewrite Htwo. cbn [bind]. rewrite Hs1. cbn [bind].
    unfold Timedelta.mul_float. rewrite Hs2. reflexivity. }
  destruct (String.eqb strat "med_50").
  { destruct (add_time_returns raw 3602879701896397 18014398509481984 Braw)
      as (adj & Hadj & Badj); [lia |].
    exists adj. split; [| exact Badj]. rewrite <- Hadj.
    destruct (Timedelta.div_int raw 100) as [h | e]; [| reflexivity].
    cbn [bind]. rewrite Htwo. cbn [bind]. rewrite Hm1. cbn [bind].
    unfold Timedelta.mul_float. rewrite Hm2. reflexivity. }
  destruct (String.eqb strat "med_99"); [| discriminate Hk].
  destruct (add_time_returns raw 3602879701896397 18014398509481984 Braw)
    as (adj & Hadj & Badj); [lia |].
  exists adj. split; [| exact Badj]. rewrite <- Hadj.
  destruct (Timedelta.div_int raw 100) as [h | e]; [| reflexivity].
  cbn [bind]. rewrite Htwo. cbn [bind]. rewrite Hm1. cbn [bind].
  unfold Timedelta.mul_float. rewrite Hm2. reflexivity.
Qed.

(** The laps of a race of a day at most, at a lap time below [2^63]
    microseconds: the division and the ceiling return, there is a lap at
    least, and the laps but one fit in the race. *)
Lemma calculate_laps_returns (race_time lap_time : timedelta) :
  0 < race_time <= 86400000000 ->
  0 < lap_time <= 9223372036854775808 ->
  exists x n,
    Timedelta.truediv race_time lap_time = Ok x
    /\ is_finite x = true
    /\ calculate_laps race_time lap_time true = Ok n
    /\ calculate_laps race_time lap_time false = Ok x
    /\ Float.ceil x = Ok n
    /\ 1 <= n <= 86400000000
    /\ n * lap_time < race_time + lap_time.
Proof.
  intros Hr Hl.
  destruct (int_truediv_returns race_time lap_time 86400000000)
    as (x & Hx & F & V0 & V1 & Ex); [lia | lia | nia | reflexivity |].
  specialize (Ex ltac:(lia)).
  pose proof (inject_Z_pos lap_time ltac:(lia)) as Ql.
  set (q := (inject_Z race_time / inject_Z lap_time)%Q) in *.
  assert (Hq : (q * inject_Z lap_time == inject_Z race_time)%Q).
  { unfold q. field. intros H0. rewrite H0 in Ql. discriminate Ql. }
  (* at least one lap *)
  assert (Hlow : (pow2 (-63) <= q)%Q).
  { apply Qle_shift_div_l; [exact Ql |].
    assert (Hp : (pow2 (-63) == 1 # 9223372036854775808)%Q)
      by (vm_compute; reflexivity).
    rewrite Hp. unfold Qle, Qmult, inject_Z. cbn [Qnum Qden]. lia. }
  assert (Hpos : (0 < F2Q x)%Q).
  { pose proof (pow2_pos (-63)) as Hp.
    assert (Hab : (pow2 (-63) <= F2Q x)%Q).
    { rewrite Ex. apply round_above; [unfold emin, emax, prec; lia
                                      | exact Hlow | rewrite <- Ex; exact F]. }
    lra. }
  (* the ceiling of the float is at most that of the exact quotient *)
  pose proof (Qle_ceiling q) as Hc0.
  pose proof (Qceiling_lt q) as Hc1.
  assert (HN : Qceiling q <= 86400000000).
  { rewrite <- (Qceiling_Z 86400000000). apply Qceiling_resp_le.
    destruct (Qdiv_upper_bound race_time lap_time 86400000000)
      as [_ Hup]; [lia | lia | nia | exact Hup]. }
  assert (Hxq : (F2Q x <= inject_Z (Qceiling q))%Q).
  { rewrite Ex.
    destruct (round_bounded q (Qceiling q)) as (_ & _ & Hle);
      [| exact Hc0 | | exact Hle].
    - destruct (Qdiv_upper_bound race_time lap_time 86400000000)
        as [H0 _]; [lia | lia | nia | exact H0].
    - eapply Z.le_lt_trans; [exact HN | reflexivity]. }
  set (n := Qceiling (F2Q x)).
  assert (Hn1 : 1 <= n).
  { unfold n. pose proof (Qle_ceiling (F2Q x)) as H.
    assert (H' : (inject_Z 0 < inject_Z (Qceiling (F2Q x)))%Q)
      by (change (inject_Z 0) with 0%Q; lra).
    rewrite <- Zlt_Qlt in H'. lia. }
  assert (Hn2 : n <= Qceiling q).
  { unfold n. rewrite <- (Qceiling_Z (Qceiling q)).
    apply Qceiling_resp_le. exact Hxq. }
  assert (Hfit : Qceiling q * lap_time < race_time + lap_time).
  { unfold Z.sub in Hc1. rewrite inject_Z_plus, inject_Z_opp in Hc1.
    change (inject_Z 1) with 1%Q in Hc1.
    rewrite Zlt_Qlt, inject_Z_mult, inject_Z_plus, <- Hq.
    setoid_replace (q * inject_Z lap_time + inject_Z lap_time)%Q
      with ((q + 1) * inject_Z lap_time)%Q by ring.
    apply Qmult_lt_compat_r; [exact Ql |]. lra. }
  assert (Hceil : Float.ceil x = Ok n) by (apply ceil_ok; split; reflexivity || exact F).
  exists x, n. unfold Timedelta.truediv. cbn [calculate_laps].
  unfold Timedelta.truediv. rewrite Hx. cbn [bind].
  repeat split; try assumption; try reflexivity; try lia.
  nia.
Qed.

Lemma fuel_bound :
  is_finite (literal 1000 1) = true
  /\ is_finite (round (inject_Z 86400000001)) = true
  /\ is_finite (Float.mul (literal 1000 1) (round (inject_Z 86400000001)))
     = true
  /\ is_finite
       (Float.add
          (Float.mul (literal 1000 1) (round (inject_Z 86400000001)))
          (round (inject_Z 1))) = true
  /\ Qceiling
       (F2Q (Float.add
               (Float.mul (literal 1000 1) (round (inject_Z 86400000001)))
               (round (inject_Z 1)))) = 86400000001001.
Proof. repeat split; vm_compute; reflexivity. Qed.

(** The fuel for a rate of 1000 l a lap at most and the laps of a day. *)
Lemma calculate_fuel_returns (litres_per_lap : float) (laps : Z) :
  leb (S754_zero false) litres_per_lap = true ->
  leb litres_per_lap (literal 1000 1) = true ->
  0 <= laps <= 86400000001 ->
  exists fuel,
    calculate_fuel litres_per_lap laps = Ok fuel
    /\ 1 <= fuel <= 86400000001001.
Proof.
  intros Hl0 Hl1 Hlaps.
  destruct fuel_bound as (FL & FA & FM & FS & VS).
  destruct (round_exact_int laps) as [Fa Va].
  { rewrite Z.abs_eq by lia.
    apply (Z.le_lt_trans _ 86400000001); [lia | reflexivity]. }
  assert (Ha0 : leb (S754_zero false) (round (inject_Z laps)) = true).
  { apply round_nonneg. change 0%Q with (inject_Z 0).
    rewrite <- Zle_Qle. lia. }
  assert (Ha1 : leb (round (inject_Z laps)) (round (inject_Z 86400000001))
                = true).
  { apply round_monotone.
    - change 0%Q with (inject_Z 0). rewrite <- Zle_Qle. lia.
    - rewrite <- Zle_Qle. lia. }
  assert (Hret : exists fuel, calculate_fuel litres_per_lap laps = Ok fuel
                              /\ fuel <= 86400000001001).
  { unfold calculate_fuel. rewrite (of_int_finite laps Fa). cbn [bind].
    rewrite of_int_buffer. cbn [bind].
    generalize dependent (round (inject_Z 86400000001)).
    generalize dependent (literal 1000 1).
    generalize dependent (round (inject_Z laps)).
    intros a _ _ Ha0 L Hl1 FL A FA FM FS VS Ha1.
    destruct (mul_monotone _ _ _ _ Hl0 Hl1 Ha0 Ha1 FL FA) as [Hm0 Hm1].
    pose proof (finite_between _ _ Hm0 Hm1 FM) as Fm.
    destruct (add_one_monotone _ _ Hm0 Hm1 FM) as [Hs0 Hs1].
    pose proof (finite_between _ _ Hs0 Hs1 FS) as Fs.
    exists (Qceiling (F2Q (Float.add (Float.mul litres_per_lap a)
                             (round (inject_Z 1))))).
    split; [apply ceil_ok; split; [exact Fs | reflexivity] |].
    rewrite <- VS. apply ceil_monotone; assumption. }
  destruct Hret as (fuel & Hfuel & Hup). exists fuel.
  split; [exact Hfuel |]. split; [| exact Hup].
  apply (calculate_fuel_buffer litres_per_lap laps fuel Hl0); [lia | exact Hfuel].
Qed.

(** The pit stop of a known strategy for the fuel of a day. *)
Lemma get_pit_stop_time_returns (strategy : string) (litres : Z) :
  known_strategy strategy = true -> 1 <= litres <= 86400000001001 ->
  exists stop,
    get_pit_stop_time_for_strategy strategy litres = Ok stop
    /\ 0 <= stop <= 8208000000095095000.
Proof.
  intros Hk Hl.
  assert (Hret : exists stop,
             get_pit_stop_time_for_strategy strategy litres = Ok stop).
  { unfold get_pit_stop_time_for_strategy, Timedelta.mul_int,
      Timedelta.div_int, TIME_TO_FILL_ONE_LITRE.
    rewrite small_in_range by lia. cbn [bind Z.eqb].
    destruct (divide_and_round_le (190000 * litres) 2) as [H0 H1];
      [lia | lia |].
    rewrite small_in_range by lia. cbn [bind].
    unfold Dict.get. cbn [Dict.lookup]. unfold known_strategy in Hk.
    destruct (String.eqb strategy "soft_50"); [eexists; reflexivity |].
    destruct (String.eqb strategy "med_50"); [eexists; reflexivity |].
    destruct (String.eqb strategy "med_99"); [eexists; reflexivity |].
    discriminate Hk. }
  destruct Hret as (stop & Hstop). exists stop. split; [exact Hstop |].
  destruct (get_pit_stop_time_inv _ _ _ Hstop)
    as [[_ ->] | [[_ ->] | [_ ->]]];
    unfold TIME_TO_CHANGE_TYRES, TIME_TO_FILL_ONE_LITRE,
      Timedelta.us_per_second; lia.
Qed.

Section Returns.

Variables (race_time : timedelta) (litres_per_lap : float)
  (time_lost_driving_through_pits : timedelta).

Hypothesis race_time_bounds : 0 < race_time <= 86400000000.
Hypothesis pits_bounds : 0 <= time_lost_driving_through_pits < 3600000000.
Hypothesis litres_nonneg : leb (S754_zero false) litres_per_lap = true.
Hypothesis litres_bound : leb litres_per_lap (literal 1000 1) = true.

Lemma strategy_result_returns (strat : string) (raw_lap_time : timedelta)
  (naive_laps naive_fuel : Z) :
  known_strategy strat = true ->
  0 < raw_lap_time <= 7202000004 ->
  1 <= naive_laps -> 1 <= naive_fuel <= 86400000001001 ->
  exists r,
    strategy_result race_time litres_per_lap time_lost_driving_through_pits
      strat raw_lap_time naive_laps naive_fuel = Ok r.
Proof.
  intros Hk Hraw Hnl Hnf.
  destruct (get_pit_stop_time_returns strat naive_fuel Hk Hnf)
    as (stop & Hstop & Bstop).
  set (lost := TIME_LOST_AT_RACE_START + time_lost_driving_through_pits
               + stop).
  assert (Blost : 0 <= lost <= 8208000003698095000).
  { unfold lost, TIME_LOST_AT_RACE_START, Timedelta.us_per_second. lia. }
  destruct (divide_and_round_le lost naive_laps) as [Ha0 Ha1]; [lia | lia |].
  set (lap_time := raw_lap_time + divide_and_round lost naive_laps).
  assert (Blap : 0 < lap_time <= 9223372036854775808)
    by (unfold lap_time; lia).
  destruct (calculate_laps_returns race_time lap_time race_time_bounds Blap)
    as (x & laps & Hx & Fx & Hfull & Hfloat & Hceil & Blaps & Hfit).
  destruct (round_exact_int laps) as [Fc _].
  { rewrite Z.abs_eq by lia.
    apply (Z.le_lt_trans _ 86400000000); [lia | reflexivity]. }
  assert (Hfuel : forall b : bool,
             exists fuel,
               calculate_fuel litres_per_lap (if b then laps + 1 else laps)
               = Ok fuel).
  { intros b.
    destruct (calculate_fuel_returns litres_per_lap
                (if b then laps + 1 else laps) litres_nonneg litres_bound)
      as (fuel & Hfuel & _); [destruct b; lia |].
    exists fuel. exact Hfuel. }
  unfold strategy_result. rewrite Hstop. cbn [bind].
  unfold calculate_lost_time, Timedelta.add.
  unfold TIME_LOST_AT_RACE_START, Timedelta.us_per_second in *.
  rewrite small_in_range by lia. cbn [bind].
  fold lost. rewrite small_in_range by lia. cbn [bind].
  unfold Timedelta.div_int.
  destruct (Z.eqb_spec naive_laps 0) as [Hz | _]; [lia |].
  rewrite small_in_range by lia. cbn [bind].
  fold lap_time. rewrite small_in_range by lia. cbn [bind].
  rewrite Hfull. cbn [bind]. rewrite Hfloat. cbn [bind].
  rewrite Hceil. cbn [bind]. rewrite (of_int_finite laps Fc). cbn [bind].
  destruct (Hfuel (Float.leb (Float.sub (round (inject_Z laps)) x)
                     FUEL_SAFETY_EXTRA_LAP_THRESHOLD)) as (fuel & ->).
  cbn [bind]. unfold calculate_total_time, Timedelta.mul_int.
  rewrite small_in_range by nia. cbn [bind].
  rewrite small_in_range by lia. cbn [bind].
  eexists. reflexivity.
Qed.

Lemma evaluate_strategy_returns (strat : string)
  (lap_times : list timedelta) :
  known_strategy strat = true -> lap_times <> [] ->
  Forall (fun t => 0 < t < 3600000000) lap_times ->
  exists r,
    evaluate_strategy race_time litres_per_lap
      time_lost_driving_through_pits strat lap_times = Ok r.
Proof.
  intros Hk Hne Hall.
  destruct (deteriorated_lap_time_returns strat lap_times Hk Hne Hall)
    as (adjusted & Hadj & Badj).
  destruct (calculate_laps_returns race_time adjusted race_time_bounds)
    as (x & nl & _ & _ & Hnl & _ & _ & Bnl & _); [lia |].
  destruct (calculate_fuel_returns litres_per_lap nl litres_nonneg
              litres_bound) as (nf & Hnf & Bnf); [lia |].
  destruct (strategy_result_returns strat adjusted nl nf Hk Badj)
    as (r & Hr); [lia | exact Bnf |].
  exists r. unfold evaluate_strategy, naive_estimate.
  rewrite Hadj. cbn [bind]. rewrite Hnl. cbn [bind].
  rewrite Hnf. cbn [bind]. exact Hr.
Qed.

Lemma evaluate_all_returns (items : list (string * list timedelta)) :
  (forall k l, In (k, l) items ->
     known_strategy k = true /\ l <> []
     /\ Forall (fun t => 0 < t < 3600000000) l) ->
  forall out0,
  exists out,
    evaluate_all race_time litres_per_lap time_lost_driving_through_pits
      items out0 = Ok out.
Proof.
  induction items as [| [strat lap_times] items IH]; intros Hall out0.
  - exists out0. reflexivity.
  - destruct (Hall strat lap_times (or_introl eq_refl)) as (Hk & Hne & Hl).
    destruct (evaluate_strategy_returns strat lap_times Hk Hne Hl)
      as (r & Hr).
    destruct (IH (fun k l H => Hall k l (or_intror H))
                (Dict.set out0 strat r)) as (out & Hout).
    exists out. cbn [evaluate_all]. rewrite Hr. cbn [bind]. exact Hout.
Qed.

End Returns.

(** [get_strategies] returns a ranking for every sensible input: a race
    of a day at most, a time lost in the pit lane under an hour, a fuel
    rate from 0 to 1000 l a lap, and for each strategy, which is one of
    the three, at least one lap time, each positive and under an hour.
    It raises nothing then. *)
Theorem get_strategies_returns
  (race_time : timedelta) (strategies_to_times : Dict.dict (list timedelta))
  (litres_per_lap : float) (time_lost_driving_through_pits : timedelta) :
  0 < race_time <= 86400000000 ->
  0 <= time_lost_driving_through_pits < 3600000000 ->
  leb (S754_zero false) litres_per_lap = true ->
  leb litres_per_lap (literal 1000 1) = true ->
  (forall k l, In (k, l) strategies_to_times ->
     known_strategy k = true /\ l <> []
     /\ Forall (fun t => 0 < t < 3600000000) l) ->
  exists out,
    get_strategies race_time strategies_to_times litres_per_lap
      time_lost_driving_through_pits = Ok out.
Proof.
  intros Hr Hp Hl0 Hl1 Hall.
  destruct (evaluate_all_returns race_time litres_per_lap
              time_lost_driving_through_pits Hr Hp Hl0 Hl1
              strategies_to_times Hall []) as (out & Hout).
  unfold get_strategies. rewrite Hout. cbn [bind].
  eexists. reflexivity.
Qed.

Lemma example_times_sensible :
  forall k l, In (k, l) example_times ->
    known_strategy k = true /\ l <> []
    /\ Forall (fun t => 0 < t < 3600000000) l.
Proof.
  intros k l [H | [H | [H | []]]]; injection H as <- <-;
    (split; [reflexivity |]); (split; [intros H; discriminate H |]);
    repeat constructor.
Qed.

Lemma get_strategies_returns_witness :
  exists out,
    get_strategies 3600000000 example_times (literal 3 1) 10000000 = Ok out.
Proof.
  apply (get_strategies_returns 3600000000 example_times (literal 3 1)
           10000000).
  - split; [reflexivity | discriminate].
  - split; [discriminate | reflexivity].
  - reflexivity.
  - reflexivity.
  - exact example_times_sensible.
Defined.

(** ** The laps are the exact ceiling *)

Lemma pow2_inv (k : Z) : 0 <= k -> (pow2 (- k) == / inject_Z (2 ^ k))%Q.
Proof.
  intros Hk. rewrite <- (pow2_Z k Hk).
  pose proof (pow2_pos k) as Hp.
  assert (Hne : ~ (pow2 k == 0)%Q) by (intros H0; rewrite H0 in Hp; lra).
  apply (proj1 (Qmult_inj_r _ _ (pow2 k) Hne)).
  rewrite pow2_opp_cancel. field. exact Hne.
Qed.

(** The quotient of two positive integers is rounded to a float, and the
    ceiling of the float is still the ceiling of the quotient, for a
    dividend below [2^52]: the float cannot fall to the integer below,
    nor climb over the ceiling. *)
Lemma truediv_ceiling_exact (a b : Z) (x : float) :
  0 < a < 4503599627370496 -> 0 < b <= 2 ^ 1000 ->
  int_truediv a b = Ok x ->
  Qceiling (F2Q x) = Qceiling (inject_Z a / inject_Z b).
Proof.
  intros Ha Hb H.
  destruct (int_truediv_ok _ _ _ H) as (_ & F & _ & Ex).
  specialize (Ex ltac:(lia)).
  pose proof (inject_Z_pos b ltac:(lia)) as Qb.
  pose proof (inject_Z_pos a ltac:(lia)) as Qa.
  set (q := (inject_Z a / inject_Z b)%Q) in *.
  assert (Hq : (q * inject_Z b == inject_Z a)%Q).
  { unfold q. field. intros H0. rewrite H0 in Qb. discriminate Qb. }
  assert (Hq0 : (0 < q)%Q).
  { unfold q. apply Qlt_shift_div_l; [exact Qb |]. rewrite Qmult_0_l.
    exact Qa. }
  assert (Hqa : (q <= inject_Z a)%Q).
  { destruct (Qdiv_upper_bound a b a) as [_ Hup];
      [lia | lia | nia | exact Hup]. }
  destruct (ceiling_bounds q) as [Hc0 Hc1].
  set (C := Qceiling q) in *.
  assert (HCa : C <= a).
  { unfold C. rewrite <- (Qceiling_Z a). apply Qceiling_resp_le. exact Hqa. }
  assert (HC1 : 1 <= C).
  { assert (H0 : (inject_Z 0 < inject_Z C)%Q)
      by (change (inject_Z 0) with 0%Q; lra).
    rewrite <- Zlt_Qlt in H0. lia. }
  (* not over the ceiling *)
  assert (Hup : Qceiling (F2Q x) <= C).
  { destruct (round_bounded q C) as (_ & _ & Hle);
      [lra | lra | change (2 ^ prec) with 9007199254740992; lia |].
    rewrite <- Ex in Hle.
    rewrite <- (Qceiling_Z C). apply Qceiling_resp_le. exact Hle. }
  (* not down to the integer below *)
  set (M := C - 1).
  assert (HMq : (inject_Z M < q)%Q).
  { unfold M, Z.sub. rewrite inject_Z_plus, inject_Z_opp.
    change (inject_Z 1) with 1%Q. lra. }
  assert (HMb : M * b < a).
  { rewrite Zlt_Qlt, inject_Z_mult, <- Hq.
    apply Qmult_lt_compat_r; [exact Qb | exact HMq]. }
  set (k := Z.log2_up b).
  assert (Hk0 : 0 <= k) by apply Z.log2_up_nonneg.
  assert (Hk1 : k <= 1000).
  { apply Z.log2_up_le_pow2; [apply Hb | apply Hb]. }
  assert (Hbk : b <= 2 ^ k) by (apply Z.log2_log2_up_spec; lia).
  assert (Hkb : 2 ^ k < 2 * b).
  { destruct (Z.eq_dec b 1) as [E1 | N1].
    - unfold k. rewrite E1. reflexivity.
    - destruct (Z.log2_up_spec b ltac:(lia)) as [Hlow _]. fold k in Hlow.
      pose proof (Z.log2_up_pos b ltac:(lia)) as Hkpos. fold k in Hkpos.
      replace k with (Z.succ (Z.pred k)) by lia.
      rewrite Z.pow_succ_r by lia. lia. }
  set (K := 2 ^ k) in *.
  assert (HK : (0 < inject_Z K)%Q).
  { apply inject_Z_pos. unfold K. apply Z.pow_pos_nonneg; lia. }
  set (z := M * K + 1).
  assert (Hz : 0 < z < 9007199254740992).
  { assert (HM0 : 0 <= M) by (unfold M; lia).
    assert (HK0 : 0 < K) by (unfold K; apply Z.pow_pos_nonneg; lia).
    assert (0 <= M * K) by (apply Z.mul_nonneg_nonneg; lia).
    assert (M * K <= M * (2 * b))
      by (apply Z.mul_le_mono_nonneg_l; lia).
    unfold z. lia. }
  destruct (round_exact z (- k)) as [Fp Vp].
  { rewrite Z.abs_eq by lia. change (2 ^ prec) with 9007199254740992. lia. }
  { unfold emin, emax, prec. lia. }
  assert (Hp : (inject_Z z * pow2 (- k) == inject_Z z / inject_Z K)%Q).
  { rewrite (pow2_inv k Hk0). reflexivity. }
  assert (HMp : (inject_Z M < inject_Z z * pow2 (- k))%Q).
  { rewrite Hp. apply Qlt_shift_div_l; [exact HK |].
    rewrite <- inject_Z_mult, <- Zlt_Qlt. unfold z. lia. }
  assert (Hpq : (inject_Z z * pow2 (- k) <= q)%Q).
  { rewrite Hp. unfold q. apply Qle_shift_div_l; [exact Qb |].
    setoid_replace (inject_Z z / inject_Z K * inject_Z b)%Q
      with (inject_Z z * inject_Z b / inject_Z K)%Q
      by (field; intros H0; rewrite H0 in HK; discriminate HK).
    apply Qle_shift_div_r; [exact HK |].
    rewrite <- !inject_Z_mult, <- Zle_Qle. unfold z. nia. }
  assert (HM0 : (0 <= inject_Z M)%Q).
  { change 0%Q with (inject_Z 0). rewrite <- Zle_Qle. unfold M. lia. }
  assert (Hle : leb (round (inject_Z z * pow2 (- k))) (round q) = true).
  { apply round_monotone; [lra | exact Hpq]. }
  rewrite <- Ex in Hle. apply (leb_finite _ _ Fp F) in Hle.
  rewrite Vp in Hle.
  pose proof (Qle_ceiling (F2Q x)) as Hcx.
  assert (Hlow : (inject_Z M < inject_Z (Qceiling (F2Q x)))%Q) by lra.
  rewrite <- Zlt_Qlt in Hlow. unfold M in Hlow. lia.
Qed.

(** The total laps are the exact ceiling of the race time over the
    normalised lap time, for a race under [2^52] microseconds, positive
    samples, a fuel rate and a time lost in the pit lane that are not
    negative: rounding the quotient to a float loses no lap and adds
    none.  The total time is these laps at the normalised lap time; it
    covers the race, and by less than one lap. *)
Theorem total_laps_exact
  (race_time : timedelta) (strategies_to_times : Dict.dict (list timedelta))
  (litres_per_lap : float) (time_lost_driving_through_pits : timedelta)
  (out : Dict.dict StrategyResult) (k : string) (r : StrategyResult) :
  0 < race_time < 4503599627370496 ->
  0 <= time_lost_driving_through_pits ->
  leb (S754_zero false) litres_per_lap = true ->
  (forall k' l, In (k', l) strategies_to_times -> Forall (fun t => 0 < t) l) ->
  get_strategies race_time strategies_to_times litres_per_lap
    time_lost_driving_through_pits = Ok out ->
  In (k, r) out ->
  0 < normalised_lap_time r
  /\ total_laps r
     = Qceiling (inject_Z race_time / inject_Z (normalised_lap_time r))
  /\ total_time r = total_laps r * normalised_lap_time r
  /\ race_time <= total_time r < race_time + normalised_lap_time r.
Proof.
  intros Hr Hp Hl Hpos H Hin.
  destruct (get_strategies_In _ _ _ _ _ _ _ H Hin) as (lap_times & Hlt & Hev).
  destruct (evaluate_strategy_bounds _ _ _ _ _ _ (proj1 Hr) Hp Hl
              (Hpos _ _ Hlt) Hev)
    as (adjusted & nl & nf & stop & _ & _ & _ & _ & Hadj0 & Hnl0 & _
        & Hstop0 & Hlap & _ & Hdiv & Hlaps).
  destruct (evaluate_strategy_inv _ _ _ _ _ _ Hev)
    as (raw & nl' & nf' & _ & _ & Hres).
  destruct (strategy_result_inv _ _ _ _ _ _ _ _ Hres)
    as (stop' & lost & am & c' & _ & _ & _ & Hadd & _ & _ & _ & _ & Htime
        & _).
  apply make_ok in Hadd. destruct Hadd as [Hsum Hrange].
  rewrite <- Hsum in Hrange. apply in_range_bounds in Hrange.
  unfold calculate_total_time, Timedelta.mul_int in Htime.
  apply make_ok in Htime. destruct Htime as [Htime _].
  assert (Hlap0 : 0 < normalised_lap_time r).
  { rewrite Hlap.
    assert (0 <= divide_and_round
                   (TIME_LOST_AT_RACE_START
                    + time_lost_driving_through_pits + stop) nl).
    { apply divide_and_round_nonneg; [exact Hnl0 |].
      unfold TIME_LOST_AT_RACE_START, Timedelta.us_per_second. lia. }
    lia. }
  set (lt := normalised_lap_time r) in *.
  assert (Hlt1000 : lt <= 2 ^ 1000).
  { apply (Z.le_trans _ Timedelta.max_us); [apply Hrange |].
    vm_compute. intros Hc. discriminate Hc. }
  pose proof (truediv_ceiling_exact race_time lt (laps_at_zero r) Hr
                (conj Hlap0 Hlt1000) Hdiv) as Hexact.
  rewrite <- Hlaps in Hexact.
  split; [exact Hlap0 |]. split; [exact Hexact |].
  split; [rewrite Htime; apply Z.mul_comm |].
  destruct (ceiling_bounds (inject_Z race_time / inject_Z lt)) as [Hc0 Hc1].
  rewrite <- Hexact in Hc0, Hc1.
  pose proof (inject_Z_pos lt Hlap0) as Ql.
  assert (Hq : (inject_Z race_time / inject_Z lt * inject_Z lt
                == inject_Z race_time)%Q).
  { field. intros H0. rewrite H0 in Ql. discriminate Ql. }
  rewrite Htime, (Z.mul_comm lt).
  split.
  - rewrite Zle_Qle, inject_Z_mult, <- Hq.
    apply Qmult_le_compat_r; [lra | apply Qlt_le_weak, Ql].
  - rewrite Zlt_Qlt, inject_Z_mult, inject_Z_plus, <- Hq.
    setoid_replace (inject_Z race_time / inject_Z lt * inject_Z lt
                    + inject_Z lt)%Q
      with ((inject_Z race_time / inject_Z lt + 1) * inject_Z lt)%Q by ring.
    apply Qmult_lt_compat_r; [exact Ql | lra].
Qed.

Lemma total_laps_exact_witness :
  0 < normalised_lap_time example_soft_50
  /\ total_laps example_soft_50
     = Qceiling (inject_Z 3600000000
                 / inject_Z (normalised_lap_time example_soft_50))
  /\ total_time example_soft_50
     = total_laps example_soft_50 * normalised_lap_time example_soft_50
  /\ 3600000000 <= total_time example_soft_50
     < 3600000000 + normalised_lap_time example_soft_50.
Proof.
  apply (total_laps_exact 3600000000 example_times (literal 3 1) 10000000
           example_out "soft_50" example_soft_50).
  - split; reflexivity.
  - discriminate.
  - reflexivity.
  - exact example_times_positive.
  - vm_compute. reflexivity.
  - simpl. auto.
Defined.

(** ** The order of strategies that tie *)

Lemma precedes_In {A : Type} (a b : A) (l : list A) :
  precedes a b l -> In a l /\ In b l.
Proof.
  induction 1 as [l Hb | c l _ [Ha Hb]].
  - split; [left; reflexivity | right; exact Hb].
  - split; right; assumption.
Qed.

Lemma precedes_app_l {A : Type} (a b : A) (l1 l2 : list A) :
  precedes a b l1 -> precedes a b (l1 ++ l2).
Proof.
  induction 1 as [l Hb | c l _ IH]; cbn [app].
  - apply precedes_here. apply in_or_app. left. exact Hb.
  - apply precedes_later. exact IH.
Qed.

Lemma precedes_app_r {A : Type} (a b : A) (l1 l2 : list A) :
  precedes a b l2 -> precedes a b (l1 ++ l2).
Proof.
  intros H. induction l1 as [| c l1 IH]; cbn [app];
    [exact H | apply precedes_later, IH].
Qed.

Lemma precedes_app_cross {A : Type} (a b : A) (l1 l2 : list A) :
  In a l1 -> In b l2 -> precedes a b (l1 ++ l2).
Proof.
  intros Ha Hb. induction l1 as [| c l1 IH]; [destruct Ha |].
  cbn [app]. destruct Ha as [-> | Ha].
  - apply precedes_here. apply in_or_app. right. exact Hb.
  - apply precedes_later, IH, Ha.
Qed.

Lemma precedes_rev {A : Type} (a b : A) (l : list A) :
  precedes a b l -> precedes b a (rev l).
Proof.
  induction 1 as [l Hb | c l _ IH]; cbn [rev].
  - apply precedes_app_cross; [apply in_rev in Hb; exact Hb
                              | left; reflexivity].
  - apply precedes_app_l, IH.
Qed.

Lemma precedes_map {A B : Type} (f : A -> B) (a b : A) (l : list A) :
  precedes a b l -> precedes (f a) (f b) (map f l).
Proof.
  induction 1 as [l Hb | c l _ IH]; cbn [map].
  - apply precedes_here, in_map, Hb.
  - apply precedes_later, IH.
Qed.

Lemma precedes_map_inv {A B : Type} (f : A -> B) (x y : B) (l : list A) :
  precedes x y (map f l) ->
  exists a b, f a = x /\ f b = y /\ precedes a b l.
Proof.
  induction l as [| c l IH]; cbn [map]; intros H.
  - inversion H.
  - inversion H as [l' Hy [Hx Hl] | c' l' Hp [Hc Hl]]; subst.
    + apply in_map_iff in Hy. destruct Hy as (b & Hb & Hin).
      exists c, b. split; [reflexivity |]. split; [exact Hb |].
      apply precedes_here, Hin.
    + destruct (IH Hp) as (a & b & Ha & Hb & Hab).
      exists a, b. split; [exact Ha |]. split; [exact Hb |].
      apply precedes_later, Hab.
Qed.

Lemma ltb_leb_false (x y : float) :
  ltb x y = true -> leb y x = false.
Proof.
  intros H.
  destruct (is_finite x) eqn:Fx, (is_finite y) eqn:Fy.
  - destruct (leb y x) eqn:Hle; [| reflexivity].
    apply (leb_finite _ _ Fy Fx) in Hle.
    unfold ltb in H.
    assert (Hc : Float.compare x y = Some (Qcompare (F2Q x) (F2Q y)))
      by (destruct x, y; try discriminate; reflexivity).
    rewrite Hc in H.
    destruct (Qcompare (F2Q x) (F2Q y)) eqn:Hq; try discriminate H.
    rewrite <- Qlt_alt in Hq. lra.
  - destruct y as [| [|] | |]; try discriminate Fy;
      destruct x; try discriminate Fx; try discriminate H; reflexivity.
  - destruct x as [| [|] | |]; try discriminate Fx;
      destruct y; try discriminate Fy; try discriminate H; reflexivity.
  - destruct x as [| [|] | |]; try discriminate Fx;
      destruct y as [| [|] | |]; try discriminate Fy;
      try discriminate H; reflexivity.
Qed.

Section Stable.

Context {A : Type} (key : A -> float).

Let ascending (a b : A) : Prop := leb (key a) (key b) = true.
Let ordered (l : list A) : Prop :=
  Forall (fun y => not_nan (key y) = true) l.

(** Inserting an item leaves the others in their order. *)
Lemma insert_sorted_precedes (x a b : A) (l : list A) :
  precedes a b l -> precedes a b (insert_sorted key x l).
Proof.
  induction 1 as [l Hb | c l Hp IH]; cbn [insert_sorted].
  - destruct (ltb (key x) (key a)).
    + apply precedes_later, precedes_here, Hb.
    + apply precedes_here.
      apply (Permutation_in _
               (Permutation_sym (insert_sorted_perm key x l))).
      right. exact Hb.
  - destruct (ltb (key x) (key c)).
    + apply precedes_later, precedes_later, Hp.
    + apply precedes_later, IH.
Qed.

(** An item is inserted behind the items it is not less than. *)
Lemma insert_sorted_behind (x y : A) (l : list A) :
  ordered l -> not_nan (key x) = true ->
  StronglySorted ascending l ->
  In y l -> ltb (key x) (key y) = false ->
  precedes y x (insert_sorted key x l).
Proof.
  intros Nl Nx Hs. induction Hs as [| y0 l Hs IH Hall]; intros Hy Hxy.
  - destruct Hy.
  - inversion Nl as [| ? ? Ny0 Nl']; subst.
    cbn [insert_sorted].
    destruct (ltb (key x) (key y0)) eqn:Hlt.
    + exfalso.
      assert (Hy0 : leb (key y0) (key y) = true).
      { destruct Hy as [<- | Hy].
        - apply leb_refl, Ny0.
        - rewrite Forall_forall in Hall. apply Hall, Hy. }
      assert (Ny : not_nan (key y) = true) by (apply leb_not_nan in Hy0; tauto).
      pose proof (ltb_leb _ _ Nx Ny Hxy) as Hyx.
      pose proof (leb_trans _ _ _ Hy0 Hyx) as Hc.
      rewrite (ltb_leb_false _ _ Hlt) in Hc. discriminate Hc.
    + destruct Hy as [<- | Hy].
      * apply precedes_here.
        apply (Permutation_in _
                 (Permutation_sym (insert_sorted_perm key x l))).
        left. reflexivity.
      * apply precedes_later, IH; assumption.
Qed.

Lemma fold_insert_stable (l : list A) :
  ordered l ->
  forall acc, ordered acc -> StronglySorted ascending acc ->
  forall a b, ltb (key b) (key a) = false ->
  precedes a b acc \/ (In a acc /\ In b l) \/ precedes a b l ->
  precedes a b (fold_left (fun acc x => insert_sorted key x acc) l acc).
Proof.
  induction 1 as [| x l Nx Nl IH]; intros acc Nacc Hs a b Hba Hcases.
  - cbn [fold_left]. destruct Hcases as [H | [[_ []] | H]];
      [exact H | inversion H].
  - cbn [fold_left].
    assert (Nacc' : ordered (insert_sorted key x acc)).
    { unfold ordered. rewrite (insert_sorted_perm key x acc).
      constructor; assumption. }
    assert (Hin : forall c, In c acc -> In c (insert_sorted key x acc)).
    { intros c Hc.
      apply (Permutation_in _
               (Permutation_sym (insert_sorted_perm key x acc))).
      right. exact Hc. }
    assert (Hx : In x (insert_sorted key x acc)).
    { apply (Permutation_in _
               (Permutation_sym (insert_sorted_perm key x acc))).
      left. reflexivity. }
    apply (IH _ Nacc' (insert_sorted_ascending key x acc Nx Nacc Hs) a b Hba).
    destruct Hcases as [H | [[Ha [<- | Hb]] | H]].
    + left. apply insert_sorted_precedes, H.
    + left. apply insert_sorted_behind; assumption.
    + right. left. split; [apply Hin, Ha | exact Hb].
    + inversion H as [l' Hb [Hax Hl] | c l' Hp [Hc Hl]]; subst.
      * right. left. split; [exact Hx | exact Hb].
      * right. right. exact Hp.
Qed.

Lemma stable_sort_stable (l : list A) (a b : A) :
  ordered l -> precedes a b l -> ltb (key b) (key a) = false ->
  precedes a b (stable_sort key l).
Proof.
  intros Nl Hab Hba. unfold stable_sort.
  apply (fold_insert_stable l Nl [] (Forall_nil _) (SSorted_nil _) a b Hba).
  right. right. exact Hab.
Qed.

(** With [reverse=True] an item stays before the items behind it that
    are not greater. *)
Lemma sorted_reverse_stable (l : list A) (a b : A) :
  ordered l -> precedes a b l -> ltb (key a) (key b) = false ->
  precedes a b (sorted key l true).
Proof.
  intros Nl Hab Hlt. unfold sorted.
  apply precedes_rev. apply stable_sort_stable.
  - unfold ordered. rewrite <- Permutation_rev. exact Nl.
  - apply precedes_rev, Hab.
  - exact Hlt.
Qed.

End Stable.

(** The ranking is stable: a strategy that stands before another one in
    the input, and has not fewer laps at zero, stands before it in the
    output.  Strategies that tie keep the order of the input. *)
Theorem get_strategies_stable
  (race_time : timedelta) (strategies_to_times : Dict.dict (list timedelta))
  (litres_per_lap : float) (time_lost_driving_through_pits : timedelta)
  (out : Dict.dict StrategyResult)
  (k1 k2 : string) (r1 r2 : StrategyResult) :
  Dict.wf strategies_to_times ->
  get_strategies race_time strategies_to_times litres_per_lap
    time_lost_driving_through_pits = Ok out ->
  precedes k1 k2 (Dict.keys strategies_to_times) ->
  In (k1, r1) out -> In (k2, r2) out ->
  ltb (laps_at_zero r1) (laps_at_zero r2) = false ->
  precedes (k1, r1) (k2, r2) out.
Proof.
  intros Hwf H Hk H1 H2 Hlt.
  destruct (get_strategies_lookup _ _ _ _ _ Hwf H) as [Hwf' _].
  pose proof H as H'. unfold get_strategies in H'.
  bind_inv H'. injection H' as Hout.
  destruct (evaluate_all_Forall2 _ _ _ _ [] v Hwf (fun _ _ H => H) E)
    as (out' & -> & Hall).
  cbn [app] in *.
  assert (Hperm : Permutation out out').
  { rewrite <- Hout.
    exact (sorted_perm (fun r => laps_at_zero (snd r)) out' true). }
  assert (Hkeys : Dict.keys out' = Dict.keys strategies_to_times).
  { clear -Hall. unfold Dict.keys.
    induction Hall as [| a b l l' [Hk _] _ IH]; cbn [map]; [reflexivity |].
    rewrite IH, Hk. reflexivity. }
  rewrite <- Hkeys in Hk. unfold Dict.keys in Hk.
  destruct (precedes_map_inv fst k1 k2 out' Hk)
    as ([k1' ra] & [k2' rb] & Ea & Eb & Hab).
  cbn [fst] in Ea, Eb. subst k1' k2'.
  destruct (precedes_In _ _ _ Hab) as [Ia Ib].
  apply (Permutation_in _ (Permutation_sym Hperm)) in Ia.
  apply (Permutation_in _ (Permutation_sym Hperm)) in Ib.
  assert (Era : ra = r1).
  { apply (lookup_In out k1 ra Hwf') in Ia.
    apply (lookup_In out k1 r1 Hwf') in H1. congruence. }
  assert (Erb : rb = r2).
  { apply (lookup_In out k2 rb Hwf') in Ib.
    apply (lookup_In out k2 r2 Hwf') in H2. congruence. }
  subst ra rb. rewrite <- Hout.
  apply (sorted_reverse_stable (fun r => laps_at_zero (snd r)));
    [| exact Hab | exact Hlt].
  apply Forall_forall. intros [k r] Hin.
  apply (Permutation_in _ (Permutation_sym Hperm)) in Hin.
  pose proof (total_laps_ceiling_finite _ _ _ _ _ _ _ H Hin) as Hfin.
  cbn [snd]. destruct (laps_at_zero r);
    [reflexivity | discriminate Hfin | discriminate Hfin | reflexivity].
Qed.

Lemma get_strategies_stable_witness :
  precedes ("soft_50", example_soft_50) ("med_50", example_med_50)
    example_out.
Proof.
  apply (get_strategies_stable 3600000000 example_times (literal 3 1)
           10000000 example_out).
  - repeat constructor; simpl; intuition discriminate.
  - vm_compute. reflexivity.
  - apply precedes_here. simpl. auto.
  - simpl. auto.
  - simpl. auto.
  - reflexivity.
Defined.
